(** * Streaming JSON extraction and projection: a shallow embedding

    This development embeds the three classes under [src/stream] of the
    connector and states the properties of its specification over them:

    - [JsonParser]  ([JsonParser.ts]): a Node [Transform] that feeds its
      chunks to the [stream-json] pipeline [parser -> pick -> streamArray]
      and pushes the value of every array element it is handed;
    - [JsonFieldFilter] ([JsonFieldFilter.ts]): the projector, which walks
      each field path over the source object and writes into one shared
      target object, then prunes empty containers;
    - [AxiosResponseStreamFilter] ([AxiosResponseStreamFilter.ts]): the
      orchestrator piping a response body through both.

    Conventions of the embedding.

    - A JavaScript string is a [string]: one [ascii] per code unit, so the
      model covers code units below 256.
    - A number is kept as an exact decimal [Fin neg m e], that is
      [(-1)^neg * m * 10^e]; IEEE rounding is not modelled, and a step that
      would depend on it answers [Unmodelled].
    - An object is the ordered list of its own enumerable properties; the
      members every object inherits ([hasOwnProperty], [constructor], ...)
      are taken not to occur as property names.  An array keeps its
      elements in a list, a hole being [VUndef], next to its other own
      properties; its [length] is the length of that list.
    - Objects live in a store ([heap]) and are named by locations, because
      the projector assigns source objects into the target by reference.
    - [stream-json] and Node's [Readable] are external: they are modelled
      from their documented behaviour, in sections of their own. *)

From Stdlib Require Import String Ascii List ZArith NArith Lia Bool.
From Stdlib Require Import Numbers.DecimalString.
From stdpp Require Import base list strings.
Import ListNotations.
Open Scope string_scope.
Open Scope list_scope.
Open Scope nat_scope.

(** ** JavaScript strings *)

Module JsString.

Definition chars (s : string) : list ascii := list_ascii_of_string s.
Definition of_chars (l : list ascii) : string := string_of_list_ascii l.

(** [s.split(sep)] for a one-character separator: the pieces between the
    separators, in order; a string without separator is its only piece. *)
Fixpoint split_chars (sep : ascii) (cur : list ascii) (l : list ascii)
  : list (list ascii) :=
  match l with
  | [] => [rev cur]
  | c :: l' =>
      if Ascii.eqb c sep
      then rev cur :: split_chars sep [] l'
      else split_chars sep (c :: cur) l'
  end.

Definition split (sep : ascii) (s : string) : list string :=
  map of_chars (split_chars sep [] (chars s)).

(** [s.indexOf(needle)], [None] standing for [-1]. *)
Definition indexOf (needle s : string) : option nat := String.index 0 needle s.

(** [s.includes(needle)]. *)
Definition includes (needle s : string) : bool :=
  match indexOf needle s with Some _ => true | None => false end.

(** [s.substring(a, b)] for non-negative arguments: both are clamped to
    the length and swapped when [a > b]. *)
Definition substring (a b : nat) (s : string) : string :=
  let lo := Nat.min a b in
  let hi := Nat.max a b in
  String.substring lo (hi - lo) s.

(** [s.replace(needle, repl)] with a string pattern: the first occurrence
    only. *)
Definition replace (needle repl s : string) : string :=
  match indexOf needle s with
  | None => s
  | Some i =>
      String.substring 0 i s +:+ repl +:+
      String.substring (i + String.length needle)
                       (String.length s - (i + String.length needle)) s
  end.

End JsString.

(** ** JavaScript numbers and [Number(string)] *)

Inductive jsnumber :=
| NaN
| Inf (neg : bool)
| Fin (neg : bool) (m : N) (e : Z).

Definition num (z : Z) : jsnumber := Fin (z <? 0)%Z (Z.abs_N z) 0.

Definition isNaN (x : jsnumber) : bool :=
  match x with NaN => true | _ => false end.

Definition number_is_zero (x : jsnumber) : bool :=
  match x with Fin _ m _ => (m =? 0)%N | _ => false end.

(** What [x >= 0 && x < len] and the property key of [x] come to.
    [AtIndex n]: [x] is the integer [n >= 0] (or [-0]); [OutOfRange]: the
    guard [x >= 0 && x < len] fails for every array length; [Inexact]: [x]
    is not an integer, so that the double it rounds to decides. *)
Inductive array_index :=
| AtIndex (n : N)
| OutOfRange
| Inexact.

Definition to_index (x : jsnumber) : array_index :=
  match x with
  | NaN => OutOfRange
  | Inf _ => OutOfRange
  | Fin neg m e =>
      if (m =? 0)%N then AtIndex 0
      else if (0 <=? e)%Z
           then (if neg then OutOfRange else AtIndex (m * 10 ^ Z.to_N e))
           else let d := (10 ^ Z.to_N (- e))%N in
                if (m mod d =? 0)%N
                then (if neg then OutOfRange else AtIndex (m / d))
                else Inexact
  end.

Module StringToNumber.

Definition code (c : ascii) : N := N_of_ascii c.

(** White space and line terminators among the code units below 256. *)
Definition is_space (c : ascii) : bool :=
  let n := code c in
  ((9 <=? n) && (n <=? 13) || (n =? 32) || (n =? 160))%N.

Definition is_digit (c : ascii) : bool :=
  let n := code c in ((48 <=? n) && (n <=? 57))%N.

Definition digit_of (base : N) (c : ascii) : option N :=
  let n := code c in
  let v :=
    if ((48 <=? n) && (n <=? 57))%N then Some (n - 48)%N
    else if ((97 <=? n) && (n <=? 102))%N then Some (n - 87)%N
    else if ((65 <=? n) && (n <=? 70))%N then Some (n - 55)%N
    else None in
  match v with
  | Some d => if (d <? base)%N then Some d else None
  | None => None
  end.

Fixpoint drop_space (l : list ascii) : list ascii :=
  match l with
  | c :: l' => if is_space c then drop_space l' else l
  | [] => []
  end.

Definition trim (l : list ascii) : list ascii :=
  rev (drop_space (rev (drop_space l))).

(** The value of a non-empty run of digits in [base] that fills the
    whole list. *)
Fixpoint digits_value (base : N) (acc : N) (l : list ascii) : option N :=
  match l with
  | [] => Some acc
  | c :: l' =>
      match digit_of base c with
      | Some d => digits_value base (acc * base + d)%N l'
      | None => None
      end
  end.

Definition all_digits (base : N) (l : list ascii) : option N :=
  match l with
  | [] => None
  | _ => digits_value base 0 l
  end.

(** The longest prefix of decimal digits, and what follows it. *)
Fixpoint span_digits (l : list ascii) : list ascii * list ascii :=
  match l with
  | c :: l' =>
      if is_digit c
      then let '(d, r) := span_digits l' in (c :: d, r)
      else ([], l)
  | [] => ([], [])
  end.

Definition dec_value (l : list ascii) : N :=
  match digits_value 10 0 l with Some v => v | None => 0%N end.

(** [ExponentPart]: [e] or [E], an optional sign, at least one digit,
    and nothing after it. *)
Definition exponent (l : list ascii) : option Z :=
  match l with
  | [] => Some 0%Z
  | c :: l' =>
      if Ascii.eqb c "e" || Ascii.eqb c "E" then
        let '(sgn, ds) :=
          match l' with
          | s :: r =>
              if Ascii.eqb s "-" then (true, r)
              else if Ascii.eqb s "+" then (false, r)
              else (false, l')
          | [] => (false, [])
          end in
        match all_digits 10 ds with
        | Some v => Some (if sgn then (- Z.of_N v)%Z else Z.of_N v)
        | None => None
        end
      else None
  end.

(** [StrUnsignedDecimalLiteral] other than [Infinity]. *)
Definition unsigned_decimal (neg : bool) (l : list ascii) : jsnumber :=
  let '(ip, r1) := span_digits l in
  let '(fp, r2) :=
    match r1 with
    | c :: r =>
        if Ascii.eqb c "." then let '(f, r') := span_digits r in (Some f, r')
        else (None, r1)
    | [] => (None, [])
    end in
  let frac := match fp with Some f => f | None => [] end in
  let well_formed :=
    match ip, frac with
    | [], [] => false
    | _, _ => true
    end in
  if well_formed then
    match exponent r2 with
    | Some ex => Fin neg (dec_value (ip ++ frac)) (ex - Z.of_nat (length frac))
    | None => NaN
    end
  else NaN.

Definition signed_decimal (l : list ascii) : jsnumber :=
  let '(neg, body) :=
    match l with
    | c :: r =>
        if Ascii.eqb c "-" then (true, r)
        else if Ascii.eqb c "+" then (false, r)
        else (false, l)
    | [] => (false, [])
    end in
  if String.eqb (JsString.of_chars body) "Infinity" then Inf neg
  else unsigned_decimal neg body.

Definition radix_literal (base : N) (ds : list ascii) : jsnumber :=
  match all_digits base ds with
  | Some v => Fin false v 0
  | None => NaN
  end.

(** [Number(s)] on a string. *)
Definition toNumber (s : string) : jsnumber :=
  match trim (JsString.chars s) with
  | [] => Fin false 0 0
  | c0 :: c1 :: ds =>
      if Ascii.eqb c0 "0" && (Ascii.eqb c1 "x" || Ascii.eqb c1 "X")
      then radix_literal 16 ds
      else if Ascii.eqb c0 "0" && (Ascii.eqb c1 "o" || Ascii.eqb c1 "O")
      then radix_literal 8 ds
      else if Ascii.eqb c0 "0" && (Ascii.eqb c1 "b" || Ascii.eqb c1 "B")
      then radix_literal 2 ds
      else signed_decimal (c0 :: c1 :: ds)
  | l => signed_decimal l
  end.

End StringToNumber.

Definition Number (s : string) : jsnumber := StringToNumber.toNumber s.

(** [String(n)] for an array index. *)
Definition index_key (n : N) : string := NilZero.string_of_uint (N.to_uint n).

(** ** Values, objects and the store *)

Definition loc := nat.

Inductive val :=
| VUndef
| VNull
| VBool (b : bool)
| VNum (n : jsnumber)
| VStr (s : string)
| VRef (l : loc).

(** An object or array.  For an array [elems] holds the indexed elements
    ([VUndef] for a hole) and [props] its other own properties; a plain
    object has no [elems]. *)
Record obj := mkObj {
  is_array : bool;
  elems : list val;
  props : list (string * val)
}.

Abbreviation heap := (list obj).

Definition empty_object : obj := mkObj false [] [].
Definition empty_array : obj := mkObj true [] [].

Inductive error :=
| ConfigurationError   (* thrown by the constructor of [JsonParser] *)
| ParseError           (* raised by the [stream-json] parser *)
| NotAnArray           (* [streamArray]: "Top-level object should be an array." *)
| PushAfterEOF         (* [Readable.push] of a value after [push(null)] *)
| TypeError
| RangeError
| StackOverflow        (* the recursion budget of the model is used up *)
| Unmodelled.          (* a step outside the embedding *)

Inductive result (A : Type) :=
| Ok (a : A)
| Err (e : error).
Arguments Ok {A} a.
Arguments Err {A} e.

Definition bind {A B : Type} (m : result A) (k : A -> result B) : result B :=
  match m with
  | Ok a => k a
  | Err e => Err e
  end.

Notation "'let*' x ':=' m 'in' k" := (bind m (fun x => k))
  (at level 10, x pattern, m at level 200, k at level 200).

(** [!v] is [negb (truthy v)]. *)
Definition truthy (v : val) : bool :=
  match v with
  | VUndef | VNull => false
  | VBool b => b
  | VNum n => negb (isNaN n || number_is_zero n)
  | VStr s => negb (String.eqb s EmptyString)
  | VRef _ => true
  end.

Module Store.

Definition alloc (o : obj) (h : heap) : loc * heap := (length h, h ++ [o]).

(** The object at a location; a dangling location reads as an empty
    object (no location dangles in a store built by [alloc]). *)
Definition get (h : heap) (l : loc) : obj :=
  match h !! l with
  | Some o => o
  | None => empty_object
  end.

Definition set (l : loc) (o : obj) (h : heap) : heap := <[l := o]> h.

(** [Array.isArray(v)]. *)
Definition isArray (h : heap) (v : val) : bool :=
  match v with
  | VRef l => is_array (get h l)
  | _ => false
  end.

End Store.

(** ** Own properties *)

Module Props.

Fixpoint assoc {A} (k : string) (ps : list (string * A)) : option A :=
  match ps with
  | [] => None
  | (k', v) :: ps' => if String.eqb k k' then Some v else assoc k ps'
  end.

Fixpoint remove {A} (k : string) (ps : list (string * A)) : list (string * A) :=
  match ps with
  | [] => []
  | (k', v) :: ps' =>
      if String.eqb k k' then ps' else (k', v) :: remove k ps'
  end.

(** A canonical array index: the decimal form of an integer below
    [2^32 - 1].  Such keys are enumerated first, in ascending order. *)
Definition canonical_index (k : string) : option N :=
  match StringToNumber.all_digits 10 (JsString.chars k) with
  | Some n =>
      if String.eqb (index_key n) k && (n <? 4294967295)%N
      then Some n else None
  | None => None
  end.

(** Where a new key goes: an integer key before the first key that is
    not an integer key or is a larger one; any other key at the end. *)
Fixpoint insert_new {A} (k : string) (v : A) (ps : list (string * A))
  : list (string * A) :=
  match ps with
  | [] => [(k, v)]
  | (k', v') :: ps' =>
      match canonical_index k with
      | None => (k', v') :: insert_new k v ps'
      | Some n =>
          match canonical_index k' with
          | Some n' =>
              if (n <? n')%N then (k, v) :: ps
              else (k', v') :: insert_new k v ps'
          | None => (k, v) :: ps
          end
      end
  end.

Fixpoint replace {A} (k : string) (v : A) (ps : list (string * A))
  : list (string * A) :=
  match ps with
  | [] => []
  | (k', v') :: ps' =>
      if String.eqb k k' then (k, v) :: ps' else (k', v') :: replace k v ps'
  end.

(** [o[k] = v] on the property list of an ordinary object. *)
Definition upsert {A} (k : string) (v : A) (ps : list (string * A))
  : list (string * A) :=
  match assoc k ps with
  | Some _ => replace k v ps
  | None => insert_new k v ps
  end.

End Props.

(** A property key as [Object.keys] lists it. *)
Inductive key :=
| KIndex (i : nat)
| KName (k : string).

Module Obj.

Definition length_value (o : obj) : val :=
  VNum (Fin false (N.of_nat (length (elems o))) 0).

(** [o.hasOwnProperty(k)] together with [o[k]], for a name [k] that is
    not an array index. *)
Definition get_named (o : obj) (k : string) : option val :=
  if is_array o && String.eqb k "length" then Some (length_value o)
  else Props.assoc k (props o).

(** [o[i]] and whether it is an own property, for an index [i]. *)
Definition get_index (o : obj) (i : nat) : option val :=
  if is_array o then
    match elems o !! i with
    | Some VUndef | None => None
    | Some v => Some v
    end
  else Props.assoc (index_key (N.of_nat i)) (props o).

Definition read (x : option val) : val :=
  match x with Some v => v | None => VUndef end.

(** Writing [a.length = n]: the list is cut or padded with holes. *)
Definition resize (n : nat) (l : list val) : list val :=
  firstn n l ++ repeat VUndef (n - length l).

(** [a.length = v] on an array: [v] must convert to an integer below
    [2^32]. *)
Definition set_length (o : obj) (v : val) : result obj :=
  let of_number x :=
    match x with
    | NaN | Inf _ => Err RangeError
    | Fin _ _ _ =>
        match to_index x with
        | AtIndex n =>
            if (n <? 4294967296)%N
            then Ok (mkObj true (resize (N.to_nat n) (elems o)) (props o))
            else Err RangeError
        | OutOfRange => Err RangeError
        | Inexact => Err Unmodelled
        end
    end in
  match v with
  | VUndef => Err RangeError
  | VNull => of_number (num 0)
  | VBool b => of_number (num (if b then 1 else 0))
  | VNum x => of_number x
  | VStr s => of_number (Number s)
  | VRef _ => Err Unmodelled
  end.

(** [o[k] = v] for a name [k] that is not an array index. *)
Definition set_named (o : obj) (k : string) (v : val) : result obj :=
  if is_array o && String.eqb k "length" then set_length o v
  else Ok (mkObj (is_array o) (elems o) (Props.upsert k v (props o))).

(** [o[i] = v] for an index [i]: an array grows, with holes, when [i]
    is past its end. *)
Definition set_index (o : obj) (i : nat) (v : val) : obj :=
  if is_array o then
    if i <? length (elems o)
    then mkObj true (<[i := v]> (elems o)) (props o)
    else mkObj true (elems o ++ repeat VUndef (i - length (elems o)) ++ [v])
               (props o)
  else mkObj false (elems o)
             (Props.upsert (index_key (N.of_nat i)) v (props o)).

(** [Object.keys(o)]: the indices that are not holes, then the names. *)
Fixpoint index_keys (i : nat) (l : list val) : list key :=
  match l with
  | [] => []
  | VUndef :: l' => index_keys (S i) l'
  | _ :: l' => KIndex i :: index_keys (S i) l'
  end.

Definition keys (o : obj) : list key :=
  index_keys 0 (elems o) ++ map (fun p => KName (fst p)) (props o).

Definition get_key (o : obj) (k : key) : val :=
  match k with
  | KIndex i => read (get_index o i)
  | KName s => read (get_named o s)
  end.

(** [delete o[k]]: deleting an element of an array leaves a hole. *)
Definition delete_key (o : obj) (k : key) : obj :=
  match k with
  | KIndex i =>
      if is_array o
      then mkObj true (<[i := VUndef]> (elems o)) (props o)
      else mkObj false (elems o)
                 (Props.remove (index_key (N.of_nat i)) (props o))
  | KName s => mkObj (is_array o) (elems o) (Props.remove s (props o))
  end.

End Obj.

(** ** The projector: [JsonFieldFilter] *)

Module JsonFieldFilter.

(** [source.forEach((item, i) => f(i, item))] on the array at [src]:
    the length is read once, each element when its turn comes, and a
    hole is skipped. *)
Fixpoint forEach_from (f : nat -> val -> heap -> result heap)
         (src : loc) (i n : nat) (h : heap) : result heap :=
  match n with
  | 0 => Ok h
  | S n' =>
      match Obj.get_index (Store.get h src) i with
      | None => forEach_from f src (S i) n' h
      | Some item =>
          let* h' := f i item h in
          forEach_from f src (S i) n' h'
      end
  end.

Definition forEach (f : nat -> val -> heap -> result heap)
           (src : loc) (h : heap) : result heap :=
  forEach_from f src 0 (length (elems (Store.get h src))) h.

(** Reading and writing a property of the target.  A target that is
    not an object does not arise from a walk started on a fresh
    object. *)
Definition target_named (h : heap) (target : val) (k : string) : result val :=
  match target with
  | VRef l => Ok (Obj.read (Obj.get_named (Store.get h l) k))
  | _ => Err Unmodelled
  end.

Definition target_index (h : heap) (target : val) (i : nat) : result val :=
  match target with
  | VRef l => Ok (Obj.read (Obj.get_index (Store.get h l) i))
  | _ => Err Unmodelled
  end.

Definition assign_named (h : heap) (target : val) (k : string) (v : val)
  : result heap :=
  match target with
  | VRef l =>
      let* o := Obj.set_named (Store.get h l) k v in
      Ok (Store.set l o h)
  | _ => Err Unmodelled
  end.

Definition assign_index (h : heap) (target : val) (i : nat) (v : val)
  : result heap :=
  match target with
  | VRef l => Ok (Store.set l (Obj.set_index (Store.get h l) i v) h)
  | _ => Err Unmodelled
  end.

(** [nextPart === '*' || !isNaN(Number(nextPart))] *)
Definition is_array_access (part : string) : bool :=
  String.eqb part "*" || negb (isNaN (Number part)).

(** [parsePath]: one segment. *)
Definition parseSegment (segment : string) : list string :=
  if JsString.includes "[*]" segment then
    let base := JsString.replace "[*]" EmptyString segment in
    (if String.eqb base EmptyString then [] else [base]) ++ ["*"]
  else if JsString.includes "[" segment && JsString.includes "]" segment then
    match JsString.indexOf "[" segment, JsString.indexOf "]" segment with
    | Some bracketIndex, Some closeIndex =>
        let base := JsString.substring 0 bracketIndex segment in
        let indexPart :=
          JsString.substring (bracketIndex + 1) closeIndex segment in
        (if String.eqb base EmptyString then [] else [base]) ++ [indexPart]
    | _, _ => [segment]
    end
  else [segment].

Definition parsePath (path : string) : list string :=
  concat (map parseSegment (JsString.split "." path)).

(** [buildStructureFromPath(source, pathParts, index, target, fullPath)],
    by recursion on the parts from [index] on. *)
Fixpoint buildStructureFromPath (pathParts : list string) (h : heap)
         (source target : val) {struct pathParts} : result heap :=
  match pathParts with
  | [] => Ok h
  | part :: rest =>
      let isLast := match rest with [] => true | _ => false end in
      if String.eqb part "*" then
        match source with
        | VRef ls =>
            if negb (is_array (Store.get h ls)) then Ok h
            else if negb (Store.isArray h target) then
              (* a new array is filled, then [target.push] is called on
                 a target that is no array *)
              let '(la, h0) := Store.alloc empty_array h in
              let* _ :=
                forEach
                  (fun i sourceItem h1 =>
                     let '(li, h2) := Store.alloc empty_object h1 in
                     let* h3 := assign_index h2 (VRef la) i (VRef li) in
                     buildStructureFromPath rest h3 sourceItem (VRef li))
                  ls h0 in
              Err TypeError
            else
              forEach
                (fun i sourceItem h1 =>
                   let* ti := target_index h1 target i in
                   let* h2 :=
                     match ti with
                     | VUndef =>
                         let '(li, h') := Store.alloc empty_object h1 in
                         assign_index h' target i (VRef li)
                     | _ => Ok h1
                     end in
                   let* ti' := target_index h2 target i in
                   buildStructureFromPath rest h2 sourceItem ti')
                ls h
        | _ => Ok h
        end
      else if negb (isNaN (Number part)) then
        match source with
        | VRef ls =>
            let so := Store.get h ls in
            if negb (is_array so) then Ok h
            else
              match to_index (Number part) with
              | Inexact => Err Unmodelled
              | OutOfRange => Ok h
              | AtIndex n =>
                  if (n <? N.of_nat (length (elems so)))%N then
                    let arrayIndex := N.to_nat n in
                    let sourceItem := Obj.read (Obj.get_index so arrayIndex) in
                    if isLast then assign_index h target arrayIndex sourceItem
                    else
                      let* ti := target_index h target arrayIndex in
                      let* h1 :=
                        if negb (truthy ti) then
                          let '(li, h') := Store.alloc empty_object h in
                          assign_index h' target arrayIndex (VRef li)
                        else Ok h in
                      let* ti' := target_index h1 target arrayIndex in
                      buildStructureFromPath rest h1 sourceItem ti'
                  else Ok h
              end
        | _ => Ok h
        end
      else
        match source with
        | VRef ls =>
            match Obj.get_named (Store.get h ls) part with
            | None => Ok h
            | Some sourceValue =>
                if isLast then assign_named h target part sourceValue
                else
                  let* tp := target_named h target part in
                  let* h1 :=
                    if negb (truthy tp) then
                      let nextPart := hd EmptyString rest in
                      let fresh :=
                        if is_array_access nextPart
                        then empty_array else empty_object in
                      let '(lc, h') := Store.alloc fresh h in
                      assign_named h' target part (VRef lc)
                    else Ok h in
                  let* tp' := target_named h1 target part in
                  buildStructureFromPath rest h1 sourceValue tp'
            end
        | _ => Ok h
        end
  end.

Definition extractField (h : heap) (source : val) (fieldPath : string)
           (target : val) : result heap :=
  let pathParts := parsePath fieldPath in
  buildStructureFromPath pathParts h source target.

(** [Object.keys(item).length === 0] for an object or array [item]. *)
Definition no_keys (h : heap) (l : loc) : bool :=
  match Obj.keys (Store.get h l) with [] => true | _ => false end.

(** The test of [value.every(...)] on one element. *)
Definition is_empty_item (h : heap) (item : val) : bool :=
  match item with
  | VUndef | VNull => true
  | VRef l => no_keys h l
  | _ => false
  end.

(** [cleanupEmptyStructures(obj)]; [fuel] bounds the depth of the
    recursion. *)
Fixpoint cleanupEmptyStructures (fuel : nat) (h : heap) (obj : val)
  : result heap :=
  match fuel with
  | 0 => Err StackOverflow
  | S fuel' =>
      match obj with
      | VRef l =>
          let visit (h : heap) (k : key) : result heap :=
            let value := Obj.get_key (Store.get h l) k in
            match value with
            | VRef lv =>
                if is_array (Store.get h lv) then
                  if length (elems (Store.get h lv)) =? 0 then
                    Ok (Store.set l (Obj.delete_key (Store.get h l) k) h)
                  else
                    let* h1 :=
                      forEach
                        (fun _ item h0 =>
                           match item with
                           | VRef _ => cleanupEmptyStructures fuel' h0 item
                           | _ => Ok h0
                           end)
                        lv h in
                    if forallb (is_empty_item h1) (elems (Store.get h1 lv))
                    then Ok (Store.set l (Obj.delete_key (Store.get h1 l) k) h1)
                    else Ok h1
                else
                  let* h1 := cleanupEmptyStructures fuel' h value in
                  if no_keys h1 lv
                  then Ok (Store.set l (Obj.delete_key (Store.get h1 l) k) h1)
                  else Ok h1
            | _ => Ok h
            end in
          fold_left (fun r k => let* h0 := r in visit h0 k)
                    (rev (Obj.keys (Store.get h l))) (Ok h)
      | _ => Ok h
      end
  end.

(** The optional [customFilterCase(source, target)]. *)
Definition hook := val -> val -> heap -> result heap.

Definition applySpecs (fieldsToKeep : list string) (h : heap)
           (source target : val) : result heap :=
  fold_left
    (fun r fieldPath => let* h0 := r in extractField h0 source fieldPath target)
    fieldsToKeep (Ok h).

(** [_transform(obj)]: the store afterwards and the value pushed. *)
Definition _transform (fieldsToKeep : list string)
           (customFilterCase : option hook) (h : heap) (obj : val)
  : result (heap * val) :=
  match obj with
  | VRef _ =>
      let '(lf, h0) := Store.alloc empty_object h in
      let filtered := VRef lf in
      let* h1 := applySpecs fieldsToKeep h0 obj filtered in
      let* h2 :=
        match customFilterCase with
        | Some f => f obj filtered h1
        | None => Ok h1
        end in
      let* h3 := cleanupEmptyStructures (S (length h2)) h2 filtered in
      Ok (h3, filtered)
  | _ => Ok (h, obj)
  end.

End JsonFieldFilter.

(** ** Values as trees *)

(** A value with the objects it reaches written out. *)
#[local] Set Warnings "-register-all".
Inductive tree :=
| TUndef
| TNull
| TBool (b : bool)
| TNum (n : jsnumber)
| TStr (s : string)
| TArr (items : list tree) (extra : list (string * tree))
| TObj (fields : list (string * tree)).

Module Tree.

(** Building a tree in the store, children first. *)
Fixpoint alloc (t : tree) (h : heap) : val * heap :=
  let alloc_list :=
    fix alloc_list (ts : list tree) (h : heap) : list val * heap :=
      match ts with
      | [] => ([], h)
      | t :: ts' =>
          let '(v, h1) := alloc t h in
          let '(vs, h2) := alloc_list ts' h1 in
          (v :: vs, h2)
      end in
  let alloc_fields :=
    fix alloc_fields (fs : list (string * tree)) (h : heap)
      : list (string * val) * heap :=
      match fs with
      | [] => ([], h)
      | (k, t) :: fs' =>
          let '(v, h1) := alloc t h in
          let '(vs, h2) := alloc_fields fs' h1 in
          ((k, v) :: vs, h2)
      end in
  match t with
  | TUndef => (VUndef, h)
  | TNull => (VNull, h)
  | TBool b => (VBool b, h)
  | TNum n => (VNum n, h)
  | TStr s => (VStr s, h)
  | TArr items extra =>
      let '(vs, h1) := alloc_list items h in
      let '(ps, h2) := alloc_fields extra h1 in
      let '(l, h3) := Store.alloc (mkObj true vs ps) h2 in
      (VRef l, h3)
  | TObj fields =>
      let '(ps, h1) := alloc_fields fields h in
      let '(l, h2) := Store.alloc (mkObj false [] ps) h1 in
      (VRef l, h2)
  end.

(** Reading a value back as a tree; [fuel] bounds the depth. *)
Fixpoint reify (fuel : nat) (h : heap) (v : val) : option tree :=
  match v with
  | VUndef => Some TUndef
  | VNull => Some TNull
  | VBool b => Some (TBool b)
  | VNum n => Some (TNum n)
  | VStr s => Some (TStr s)
  | VRef l =>
      match fuel with
      | 0 => None
      | S fuel' =>
          match h !! l with
          | None => None
          | Some o =>
              let reify_list :=
                fix reify_list (vs : list val) : option (list tree) :=
                  match vs with
                  | [] => Some []
                  | v :: vs' =>
                      match reify fuel' h v, reify_list vs' with
                      | Some t, Some ts => Some (t :: ts)
                      | _, _ => None
                      end
                  end in
              let reify_fields :=
                fix reify_fields (ps : list (string * val))
                  : option (list (string * tree)) :=
                  match ps with
                  | [] => Some []
                  | (k, v) :: ps' =>
                      match reify fuel' h v, reify_fields ps' with
                      | Some t, Some ts => Some ((k, t) :: ts)
                      | _, _ => None
                      end
                  end in
              match reify_list (elems o), reify_fields (props o) with
              | Some ts, Some fs =>
                  Some (if is_array o then TArr ts fs else TObj fs)
              | _, _ => None
              end
          end
      end
  end.

Definition read (h : heap) (v : val) : option tree :=
  reify (S (length h)) h v.

End Tree.

(** One source value through the projector, from a store holding only
    that value: the source as it is afterwards, and the value pushed. *)
Definition project (fieldsToKeep : list string) (source : tree)
  : result (tree * tree) :=
  let '(obj, h) := Tree.alloc source [] in
  let* (h', out) := JsonFieldFilter._transform fieldsToKeep None h obj in
  match Tree.read h' obj, Tree.read h' out with
  | Some source', Some target => Ok (source', target)
  | _, _ => Err Unmodelled
  end.

(** ** [stream-json]: parser, [pick] and [streamArray]

    Modelled from the documented behaviour of the library, which is not
    part of the repository: the parser is a character-driven automaton
    whose state carries the open containers and the unfinished token
    from one [write] to the next; [pick] passes the sub-streams whose
    path matches its filter; [streamArray] assembles the elements of the
    array it is given and emits them as [{key, value}]. *)

Module StreamJson.

Inductive token :=
| startObject
| endObject
| startArray
| endArray
| keyValue (k : string)
| stringValue (s : string)
| numberValue (text : string)
| nullValue
| trueValue
| falseValue.

Module Parser.

Inductive parent := PObject | PArray.

Inductive expect :=
| ExpValue | ExpValue1 | ExpKey1 | ExpKey | ExpColon
| ExpObjectStop | ExpArrayStop | ExpDone.

Inductive numstate :=
| NumStart | NumZero | NumDigit | NumFracStart | NumFracDigit
| NumExpSign | NumExpStart | NumExpDigit.

Inductive strstate :=
| StrPlain
| StrEscape
| StrUnicode (hex : list ascii).

Inductive lexing :=
| Idle (e : expect)
| InString (is_key : bool) (acc : list ascii) (st : strstate)
| InNumber (st : numstate) (acc : list ascii)
| InLiteral (rest : list ascii) (tok : token).

Record state := mkState { lex : lexing; stack : list parent }.

Definition initial : state := mkState (Idle ExpValue) [].

Definition after_value (stack : list parent) : expect :=
  match stack with
  | [] => ExpDone
  | PObject :: _ => ExpObjectStop
  | PArray :: _ => ExpArrayStop
  end.

Definition is_ws (c : ascii) : bool := StringToNumber.is_space c.

Definition is_word (c : ascii) : bool :=
  let n := N_of_ascii c in
  ((48 <=? n) && (n <=? 57) || (65 <=? n) && (n <=? 90)
   || (97 <=? n) && (n <=? 122) || (n =? 95))%N.

Definition is_char (c : ascii) (s : string) : bool :=
  String.eqb (String c EmptyString) s.

(** The double quote. *)
Definition quote : ascii := ascii_of_nat 34.
Definition is_quote (c : ascii) : bool := Ascii.eqb c quote.

Definition close (p : parent) (st : list parent)
  : result (state * list token) :=
  match st, p with
  | PObject :: st', PObject => Ok (mkState (Idle (after_value st')) st', [endObject])
  | PArray :: st', PArray => Ok (mkState (Idle (after_value st')) st', [endArray])
  | _, _ => Err ParseError
  end.

Definition value_start (allow_close : bool) (st : list parent) (c : ascii)
  : result (state * list token) :=
  if is_quote c then Ok (mkState (InString false [] StrPlain) st, [])
  else if is_char c "{" then Ok (mkState (Idle ExpKey1) (PObject :: st), [startObject])
  else if is_char c "[" then Ok (mkState (Idle ExpValue1) (PArray :: st), [startArray])
  else if is_char c "]" then
    (if allow_close then close PArray st else Err ParseError)
  else if is_char c "-" then Ok (mkState (InNumber NumStart [c]) st, [])
  else if is_char c "0" then Ok (mkState (InNumber NumZero [c]) st, [])
  else if StringToNumber.is_digit c then Ok (mkState (InNumber NumDigit [c]) st, [])
  else if is_char c "t" then Ok (mkState (InLiteral (JsString.chars "rue") trueValue) st, [])
  else if is_char c "f" then Ok (mkState (InLiteral (JsString.chars "alse") falseValue) st, [])
  else if is_char c "n" then Ok (mkState (InLiteral (JsString.chars "ull") nullValue) st, [])
  else Err ParseError.

(** One character between tokens. *)
Definition structural (e : expect) (st : list parent) (c : ascii)
  : result (state * list token) :=
  if is_ws c then Ok (mkState (Idle e) st, [])
  else
    match e with
    | ExpValue | ExpDone => value_start false st c
    | ExpValue1 => value_start true st c
    | ExpKey1 =>
        if is_quote c then Ok (mkState (InString true [] StrPlain) st, [])
        else if is_char c "}" then close PObject st
        else Err ParseError
    | ExpKey =>
        if is_quote c then Ok (mkState (InString true [] StrPlain) st, [])
        else Err ParseError
    | ExpColon =>
        if is_char c ":" then Ok (mkState (Idle ExpValue) st, [])
        else Err ParseError
    | ExpObjectStop =>
        if is_char c "," then Ok (mkState (Idle ExpKey) st, [])
        else if is_char c "}" then close PObject st
        else Err ParseError
    | ExpArrayStop =>
        if is_char c "," then Ok (mkState (Idle ExpValue) st, [])
        else if is_char c "]" then close PArray st
        else Err ParseError
    end.

Definition text (acc : list ascii) : string := JsString.of_chars (rev acc).

(** A token ended by the character [c], which is then read as the
    character after a value. *)
Definition finish (tok : token) (st : list parent) (c : ascii)
  : result (state * list token) :=
  let* (s', toks) := structural (after_value st) st c in
  Ok (s', tok :: toks).

Definition number_step (ns : numstate) (acc : list ascii)
           (st : list parent) (c : ascii) : result (state * list token) :=
  let digit := StringToNumber.is_digit c in
  let go ns' := Ok (mkState (InNumber ns' (c :: acc)) st, []) in
  let stop := finish (numberValue (text acc)) st c in
  let is_e := is_char c "e" || is_char c "E" in
  match ns with
  | NumStart =>
      if is_char c "0" then go NumZero
      else if digit then go NumDigit else Err ParseError
  | NumZero =>
      if is_char c "." then go NumFracStart
      else if is_e then go NumExpSign else stop
  | NumDigit =>
      if digit then go NumDigit
      else if is_char c "." then go NumFracStart
      else if is_e then go NumExpSign else stop
  | NumFracStart => if digit then go NumFracDigit else Err ParseError
  | NumFracDigit =>
      if digit then go NumFracDigit
      else if is_e then go NumExpSign else stop
  | NumExpSign =>
      if is_char c "+" || is_char c "-" then go NumExpStart
      else if digit then go NumExpDigit else Err ParseError
  | NumExpStart => if digit then go NumExpDigit else Err ParseError
  | NumExpDigit => if digit then go NumExpDigit else stop
  end.

Definition number_complete (ns : numstate) : bool :=
  match ns with
  | NumZero | NumDigit | NumFracDigit | NumExpDigit => true
  | _ => false
  end.

Definition unescape (c : ascii) : option ascii :=
  if is_quote c || is_char c "\" || is_char c "/" then Some c
  else if is_char c "b" then Some (ascii_of_nat 8)
  else if is_char c "f" then Some (ascii_of_nat 12)
  else if is_char c "n" then Some (ascii_of_nat 10)
  else if is_char c "r" then Some (ascii_of_nat 13)
  else if is_char c "t" then Some (ascii_of_nat 9)
  else None.

Definition string_token (is_key : bool) (acc : list ascii) : token :=
  if is_key then keyValue (text acc) else stringValue (text acc).

Definition string_step (is_key : bool) (acc : list ascii) (ss : strstate)
           (st : list parent) (c : ascii) : result (state * list token) :=
  match ss with
  | StrPlain =>
      if is_quote c then
        Ok (mkState (Idle (if is_key then ExpColon else after_value st)) st,
            [string_token is_key acc])
      else if is_char c "\" then Ok (mkState (InString is_key acc StrEscape) st, [])
      else if (N_of_ascii c <? 32)%N then Err ParseError
      else Ok (mkState (InString is_key (c :: acc) StrPlain) st, [])
  | StrEscape =>
      if is_char c "u" then Ok (mkState (InString is_key acc (StrUnicode [])) st, [])
      else
        match unescape c with
        | Some d => Ok (mkState (InString is_key (d :: acc) StrPlain) st, [])
        | None => Err ParseError
        end
  | StrUnicode hex =>
      match StringToNumber.digit_of 16 c with
      | None => Err ParseError
      | Some _ =>
          let hex' := hex ++ [c] in
          if length hex' <? 4
          then Ok (mkState (InString is_key acc (StrUnicode hex')) st, [])
          else
            match StringToNumber.all_digits 16 hex' with
            | Some n =>
                if (n <? 256)%N
                then Ok (mkState (InString is_key (ascii_of_N n :: acc) StrPlain) st, [])
                else Err Unmodelled
            | None => Err ParseError
            end
      end
  end.

(** One character of input. *)
Definition step (s : state) (c : ascii) : result (state * list token) :=
  match lex s with
  | Idle e => structural e (stack s) c
  | InString is_key acc ss => string_step is_key acc ss (stack s) c
  | InNumber ns acc => number_step ns acc (stack s) c
  | InLiteral (c' :: rest) tok =>
      if Ascii.eqb c c'
      then Ok (mkState (InLiteral rest tok) (stack s), [])
      else Err ParseError
  | InLiteral [] tok =>
      if is_word c then Err ParseError else finish tok (stack s) c
  end.

(** End of input: an open number or literal is closed; anything else
    still open is an error. *)
Definition finish_input (s : state) : result (list token) :=
  match lex s, stack s with
  | Idle ExpDone, _ => Ok []
  | InNumber ns acc, [] =>
      if number_complete ns then Ok [numberValue (text acc)]
      else Err ParseError
  | InLiteral [] tok, [] => Ok [tok]
  | _, _ => Err ParseError
  end.

(** A whole text through the parser: its tokens, or the error. *)
Fixpoint run (s : state) (l : list ascii) : result (list token) :=
  match l with
  | [] => finish_input s
  | c :: l' =>
      let* (s', ts) := step s c in
      let* ts' := run s' l' in
      Ok (ts ++ ts')
  end.

Definition parse (text : string) : result (list token) :=
  run initial (JsString.chars text).

End Parser.

(** A well-formed document: a text the parser accepts to its end. *)
Definition well_formed (text : string) : Prop :=
  exists ts, Parser.parse text = Ok ts.

(** [pick({filter: path})] with a string filter. *)
Module Pick.

Inductive entry :=
| ENull
| EKey (k : string)
| EIndex (i : Z).

(** [stack] has its top first; [depth] is positive while a picked
    container is being passed. *)
Record state := mkState { stack : list entry; depth : nat }.

Definition initial : state := mkState [] 0.

Definition entry_text (e : entry) : string :=
  match e with
  | ENull => EmptyString
  | EKey k => k
  | EIndex i =>
      if (i <? 0)%Z then "-" +:+ index_key (Z.to_N (- i))
      else index_key (Z.to_N i)
  end.

(** [stack.join('.')] *)
Definition join (st : list entry) : string :=
  String.concat "." (map entry_text (rev st)).

(** [FilterBase.stringFilter(filter, '.')] *)
Definition matches (filter : string) (st : list entry) : bool :=
  let path := join st in
  String.eqb path filter
  || ((String.length filter <? String.length path)
      && String.eqb (String.substring 0 (String.length filter) path) filter
      && String.eqb (String.substring (String.length filter) 1 path) ".").

Definition bump (st : list entry) : list entry :=
  match st with
  | EIndex i :: st' => EIndex (i + 1) :: st'
  | _ => st
  end.

Definition starts_value (t : token) : bool :=
  match t with
  | startObject | startArray | stringValue _ | numberValue _
  | nullValue | trueValue | falseValue => true
  | _ => false
  end.

Definition step (filter : string) (s : state) (t : token)
  : state * list token :=
  match depth s with
  | S d =>
      (* [_passObject] *)
      let d' :=
        match t with
        | startObject | startArray => S (S d)
        | endObject | endArray => d
        | _ => S d
        end in
      (mkState (stack s) d', [t])
  | 0 =>
      (* [_check] *)
      let st1 :=
        match t with
        | keyValue k =>
            match stack s with
            | _ :: st' => EKey k :: st'
            | [] => []
            end
        | _ => if starts_value t then bump (stack s) else stack s
        end in
      if starts_value t && matches filter st1 then
        match t with
        | startObject | startArray => (mkState st1 1, [t])
        | _ => (mkState st1 0, [t])
        end
      else
        let st2 :=
          match t with
          | startObject => ENull :: st1
          | startArray => EIndex (-1) :: st1
          | endObject | endArray => tl st1
          | _ => st1
          end in
        (mkState st2 0, [])
  end.

End Pick.

(** [streamArray()] and the [Assembler] it drives. *)
Module StreamArray.

Record assembler := mkAssembler {
  stack : list (tree * option string);
  current : tree;
  key : option string;
  done : bool
}.

Definition depth (a : assembler) : nat :=
  length (stack a) + (if done a then 0 else 1).

Definition saveValue (a : assembler) (v : tree) : assembler :=
  if done a then mkAssembler (stack a) v (key a) true
  else
    match current a with
    | TArr items extra =>
        mkAssembler (stack a) (TArr (items ++ [v]) extra) (key a) false
    | TObj fields =>
        let k := match key a with Some k => k | None => "null" end in
        mkAssembler (stack a) (TObj (Props.upsert k v fields)) None false
    | _ => a
    end.

Definition open (a : assembler) (fresh : tree) : assembler :=
  if done a then mkAssembler (stack a) fresh None false
  else mkAssembler ((current a, key a) :: stack a) fresh None false.

Definition close (a : assembler) : assembler :=
  match stack a with
  | (c, k) :: st' => saveValue (mkAssembler st' c k (done a)) (current a)
  | [] => mkAssembler [] (current a) (key a) true
  end.

Definition consume (a : assembler) (t : token) : assembler :=
  match t with
  | startObject => open a (TObj [])
  | startArray => open a (TArr [] [])
  | endObject | endArray => close a
  | keyValue k => mkAssembler (stack a) (current a) (Some k) (done a)
  | stringValue s => saveValue a (TStr s)
  | numberValue text => saveValue a (TNum (Number text))
  | nullValue => saveValue a TNull
  | trueValue => saveValue a (TBool true)
  | falseValue => saveValue a (TBool false)
  end.

Record state := mkState {
  waiting : bool;
  asm : assembler;
  counter : nat
}.

Definition initial : state :=
  mkState true (mkAssembler [] TNull None true) 0.

(** A [data] event of the pipeline. *)
Record item := mkItem { item_key : nat; item_value : tree }.

Definition step (s : state) (t : token) : result (state * list item) :=
  if waiting s && negb (match t with startArray => true | _ => false end)
  then Err NotAnArray
  else
    let a := consume (asm s) t in
    if depth a =? 1 then
      match current a with
      | TArr items extra =>
          match rev items with
          | [] => Ok (mkState false a (counter s), [])
          | last :: front =>
              Ok (mkState false
                    (mkAssembler (stack a) (TArr (rev front) extra) (key a) (done a))
                    (S (counter s)),
                  [mkItem (counter s) last])
          end
      | TObj fields =>
          match Props.assoc "length" fields with
          | Some (TUndef | TNull | TBool false | TStr EmptyString) | None =>
              Ok (mkState false a (counter s), [])
          | Some (TNum n) =>
              if isNaN n || number_is_zero n
              then Ok (mkState false a (counter s), [])
              else Err TypeError
          | Some _ => Err TypeError
          end
      | _ => Ok (mkState false a (counter s), [])
      end
    else Ok (mkState false a (counter s), [])
.

End StreamArray.

(** Feeding a list of inputs to a stage, its outputs collected in
    order. *)
Fixpoint run_stage {S I O : Type} (f : S -> I -> S * list O)
         (s : S) (l : list I) : S * list O :=
  match l with
  | [] => (s, [])
  | i :: l' =>
      let '(s1, o1) := f s i in
      let '(s2, o2) := run_stage f s1 l' in
      (s2, o1 ++ o2)
  end.

(** The pipeline [parser().pipe(streamArray())], or with [pick]
    between the two when a filter is given: characters in, [data]
    events out.  [broken] is the error that stopped it. *)
Module Pipeline.

Record state := mkState {
  filter : option string;
  tokens : Parser.state;
  picker : Pick.state;
  streamer : StreamArray.state;
  broken : option error
}.

Definition initial (filter : option string) : state :=
  mkState filter Parser.initial Pick.initial StreamArray.initial None.

Definition break (s : state) (e : error) : state :=
  mkState (filter s) (tokens s) (picker s) (streamer s) (Some e).

Definition is_broken (s : state) : Prop := exists e, broken s = Some e.

Definition toStreamArray (s : state) (t : token)
  : state * list StreamArray.item :=
  match broken s with
  | Some _ => (s, [])
  | None =>
      match StreamArray.step (streamer s) t with
      | Err e => (break s e, [])
      | Ok (sa, items) =>
          (mkState (filter s) (tokens s) (picker s) sa None, items)
      end
  end.

Definition onToken (s : state) (t : token) : state * list StreamArray.item :=
  match broken s with
  | Some _ => (s, [])
  | None =>
      match filter s with
      | None => toStreamArray s t
      | Some path =>
          let '(pk, ts) := Pick.step path (picker s) t in
          run_stage toStreamArray
            (mkState (filter s) (tokens s) pk (streamer s) None) ts
      end
  end.

Definition onChar (s : state) (c : ascii) : state * list StreamArray.item :=
  match broken s with
  | Some _ => (s, [])
  | None =>
      match Parser.step (tokens s) c with
      | Err e => (break s e, [])
      | Ok (tk, ts) =>
          run_stage onToken
            (mkState (filter s) tk (picker s) (streamer s) None) ts
      end
  end.

(** [write(chunk)] *)
Definition write (s : state) (chunk : string) : state * list StreamArray.item :=
  run_stage onChar s (JsString.chars chunk).

(** [end()] *)
Definition finish (s : state) : state * list StreamArray.item :=
  match broken s with
  | Some _ => (s, [])
  | None =>
      match Parser.finish_input (tokens s) with
      | Err e => (break s e, [])
      | Ok ts => run_stage onToken s ts
      end
  end.

(** A whole input, chunk by chunk, then [end()]. *)
Definition run (s : state) (chunks : list string)
  : state * list StreamArray.item :=
  let '(s1, o1) := run_stage write s chunks in
  let '(s2, o2) := finish s1 in
  (s2, o1 ++ o2).

End Pipeline.

End StreamJson.

(** ** The streaming parser: [JsonParser] *)

Module JsonParser.

Import StreamJson.

Definition is_line_terminator (c : ascii) : bool :=
  let n := N_of_ascii c in ((n =? 10) || (n =? 13))%N.

(** [extractPath.match(/^(.+)\[\*\]$/)]: the group it captures.  The
    marker is the last three characters; before it the group needs at
    least one character, none of them a line terminator. *)
Definition pathMatch (extractPath : string) : option string :=
  let n := String.length extractPath in
  if (4 <=? n) && String.eqb (String.substring (n - 3) 3 extractPath) "[*]"
  then
    let jsonPath := String.substring 0 (n - 3) extractPath in
    if forallb (fun c => negb (is_line_terminator c)) (JsString.chars jsonPath)
    then Some jsonPath else None
  else None.

(** The parser at work: its [stream-json] pipeline, what it has pushed
    so far, whether [push(null)] has ended its readable side, and the
    error it has emitted, if any. *)
Record state := mkState {
  pipeline : Pipeline.state;
  pushed : list tree;
  ended : bool;
  failure : option error
}.

(** [new JsonParser({extractPath})]: the path is split at the marker
    and the pipeline is built with or without [pick]. *)
Definition new (extractPath : string) : result state :=
  match pathMatch extractPath with
  | None => Err ConfigurationError
  | Some jsonPath =>
      if String.eqb jsonPath EmptyString
      then Ok (mkState (Pipeline.initial None) [] false None)
      else Ok (mkState (Pipeline.initial (Some jsonPath)) [] false None)
  end.

Definition fail (s : state) (e : error) : state :=
  mkState (pipeline s) (pushed s) (ended s) (Some e).

(** [this.push(chunk)] of Node's [Readable]: [null] ends the stream,
    and a value pushed after that is an error. *)
Definition push (s : state) (chunk : tree) : state :=
  match chunk with
  | TNull => mkState (pipeline s) (pushed s) true (failure s)
  | _ =>
      if ended s then fail s PushAfterEOF
      else mkState (pipeline s) (pushed s ++ [chunk]) false (failure s)
  end.

(** The [data] handler: [if (data.value !== undefined) this.push(data.value)];
    a parser that has failed handles nothing more. *)
Definition onData (s : state) (data : StreamArray.item) : state :=
  match failure s with
  | Some _ => s
  | None =>
      match StreamArray.item_value data with
      | TUndef => s
      | value => push s value
      end
  end.

(** The [error] handler: an error of the pipeline is emitted again. *)
Definition onError (s : state) (pl : Pipeline.state) : state :=
  match failure s, Pipeline.broken pl with
  | None, Some e => fail s e
  | _, _ => s
  end.

(** The readable side of the parser. *)
Definition readable (s : state) : list tree * bool * option error :=
  (pushed s, ended s, failure s).

(** After a call into the pipeline: its new state is kept and its
    error, if any, handled. *)
Definition settle (pl : Pipeline.state) (s : state) : state :=
  onError (mkState pl (pushed s) (ended s) (failure s)) pl.

(** A call into the pipeline: the events it gave are handled in
    order. *)
Definition handle (s : state) (r : Pipeline.state * list StreamArray.item)
  : state :=
  settle (fst r) (fold_left onData (snd r) s).

(** [_transform(chunk)]: [this.jsonParser.write(chunk)] *)
Definition _transform (s : state) (chunk : string) : state :=
  handle s (Pipeline.write (pipeline s) chunk).

(** [_flush()]: [this.jsonParser.end()] *)
Definition _flush (s : state) : state :=
  handle s (Pipeline.finish (pipeline s)).

(** A whole input, chunk by chunk. *)
Definition run (s : state) (chunks : list string) : state :=
  _flush (fold_left _transform chunks s).

(** What a consumer of the parser sees: the Source Values and the
    error, if any. *)
Definition outcome (s : state) : list tree * option error :=
  (pushed s, failure s).

(** The elements of the target array as the pipeline delivers them for
    an input, one [data] event each. *)
Definition delivered (s : state) (chunks : list string) : list tree :=
  map StreamArray.item_value (snd (Pipeline.run (pipeline s) chunks)).

(** The values that pass [data.value !== undefined]. *)
Definition defined (vs : list tree) : list tree :=
  List.filter (fun v => match v with TUndef => false | _ => true end) vs.

End JsonParser.

(** ** The orchestrator: [AxiosResponseStreamFilter] *)

Module AxiosResponseStreamFilter.

Record config := mkConfig {
  fieldsToKeep : list string;
  customFilterCase : option JsonFieldFilter.hook
}.

(** One parsed value through [JsonFieldFilter], from a store holding
    that value only: the value the filter pushes. *)
Definition filterOne (cfg : config) (value : tree) : result tree :=
  let '(obj, h) := Tree.alloc value [] in
  let* (h', out) :=
    JsonFieldFilter._transform (fieldsToKeep cfg) (customFilterCase cfg) h obj in
  match Tree.read h' out with
  | Some t => Ok t
  | None => Err Unmodelled
  end.

Fixpoint collect (cfg : config) (values : list tree) : result (list tree) :=
  match values with
  | [] => Ok []
  | v :: vs =>
      let* t := filterOne cfg v in
      let* ts := collect cfg vs in
      Ok (t :: ts)
  end.

(** [processResponse(response)] on the chunks of [response.data]: the
    array stored under [response] of the new [response.data]. *)
Definition processResponse (cfg : config) (chunks : list string)
  : result (list tree) :=
  let* parser := JsonParser.new "response[*]" in
  let s := JsonParser.run parser chunks in
  match JsonParser.failure s with
  | Some e => Err e
  | None => collect cfg (JsonParser.pushed s)
  end.

End AxiosResponseStreamFilter.

(** A JSON text written with apostrophes for its double quotes. *)
Definition json_text (s : string) : string :=
  JsString.of_chars
    (map (fun c => if Ascii.eqb c "'" then StreamJson.Parser.quote else c)
         (JsString.chars s)).

(** ** Sample inputs *)

(** The person record of the scenarios. *)
Definition person : tree :=
  TObj [("personid", TStr "U1");
        ("personBasic",
         TObj [("names",
                TArr [TObj [("firstName", TStr "Bugs");
                            ("lastName", TStr "Bunny")]] [])]);
        ("extra", TStr "x")].

(** A response whose array holds a [null] between two objects. *)
Definition doc_with_null : string :=
  json_text "{'response':[{'id':1},null,{'id':2}]}".

(** A response of two objects, and the same text cut inside the first. *)
Definition doc_two : string :=
  json_text "{'response':[{'id':1},{'id':2}]}".
Definition doc_two_head : string := json_text "{'response':[{'i".
Definition doc_two_tail : string := json_text "d':1},{'id':2}]}".


(** An object whose property [a] holds an empty object next to a number. *)
Definition nested_with_empty : tree :=
  TObj [("a", TObj [("b", TObj []); ("c", TNum (num 1))])].

(** A flat object whose only value is zero. *)
Definition flat_zero : tree := TObj [("a", TNum (num 0))].

(** An array of one object that has no property [x]. *)
Definition array_without_x : tree :=
  TObj [("a", TArr [TObj [("y", TNum (num 1))]] [])].

(** An array of two objects, each with an empty array [b]. *)
Definition two_with_empty_b : tree :=
  TObj [("a", TArr [TObj [("b", TArr [] [])];
                    TObj [("b", TArr [] []); ("q", TNum (num 1))]] [])].

(** A response of one object. *)
Definition doc_one : string := json_text "{'response':[{'id':1}]}".

(** What the projector makes of a value when no field is kept. *)
Definition blank (v : tree) : tree :=
  match v with
  | TArr _ _ | TObj _ => TObj []
  | _ => v
  end.

(** The fields of an object, none for another value. *)
Definition fields_of (t : tree) : list (string * tree) :=
  match t with
  | TObj fields => fields
  | _ => []
  end.


(** ** Trees in the store *)

(** [repr P h v t]: in the store [h] the value [v] stands for the tree
    [t], through objects at locations in [P] only. *)
Inductive repr (P : loc -> Prop) (h : heap) : val -> tree -> Prop :=
| repr_undef : repr P h VUndef TUndef
| repr_null : repr P h VNull TNull
| repr_bool b : repr P h (VBool b) (TBool b)
| repr_num n : repr P h (VNum n) (TNum n)
| repr_str s : repr P h (VStr s) (TStr s)
| repr_arr l vs ps items extra :
    P l ->
    h !! l = Some (mkObj true vs ps) ->
    Forall2 (repr P h) vs items ->
    Forall2 (fun p q => fst p = fst q /\ repr P h (snd p) (snd q)) ps extra ->
    repr P h (VRef l) (TArr items extra)
| repr_obj l ps fields :
    P l ->
    h !! l = Some (mkObj false [] ps) ->
    Forall2 (fun p q => fst p = fst q /\ repr P h (snd p) (snd q)) ps fields ->
    repr P h (VRef l) (TObj fields).

(** The locations below [n]: where a source value lives when the target
    is allocated after it. *)
Definition below (n : nat) : loc -> Prop := fun l => l < n.

(** A tree as a JSON text gives it: no hole, and no property on an array
    besides its elements. *)
Fixpoint is_json (t : tree) : bool :=
  match t with
  | TUndef => false
  | TNull | TBool _ | TNum _ | TStr _ => true
  | TArr items extra =>
      forallb is_json items && match extra with [] => true | _ => false end
  | TObj fields => forallb (fun p => is_json (snd p)) fields
  end.

(** ** The walk of one Spec, on trees

    The token-by-token algorithm of the specification for one Spec on a
    fresh target: what the container created for the current position
    holds once the walk returns (before any pruning). *)

Module Spec.

Definition fresh (arr : bool) : tree := if arr then TArr [] [] else TObj [].

(** The fresh container with one element set at index [i]. *)
Definition put_index (arr : bool) (i : nat) (v : tree) : tree :=
  if arr then TArr (repeat TUndef i ++ [v]) []
  else TObj [(index_key (N.of_nat i), v)].

(** The fresh object with one property set. *)
Definition put_named (k : string) (v : tree) : tree := TObj [(k, v)].

(** The own property [k] of a source node, [k] not an array index. *)
Definition named (s : tree) (k : string) : option tree :=
  match s with
  | TObj fields => Props.assoc k fields
  | TArr items extra =>
      if String.eqb k "length"
      then Some (TNum (Fin false (N.of_nat (length items)) 0))
      else Props.assoc k extra
  | _ => None
  end.

Fixpoint collect (rs : list (result tree)) : result (list tree) :=
  match rs with
  | [] => Ok []
  | r :: rs' =>
      let* t := r in
      let* ts := collect rs' in
      Ok (t :: ts)
  end.

(** [arr] tells whether the container at the current position was
    created as an array. *)
Fixpoint project_tokens (parts : list string) (s : tree) (arr : bool)
  {struct parts} : result tree :=
  match parts with
  | [] => Ok (fresh arr)
  | part :: rest =>
      let isLast := match rest with [] => true | _ => false end in
      if String.eqb part "*" then
        (* Wildcard: every element of a source array, each projected by
           the remaining tokens into an object of its own *)
        match s with
        | TArr items _ =>
            let* elems :=
              collect (map (fun si => project_tokens rest si false) items) in
            if arr then Ok (TArr elems []) else Err TypeError
        | _ => Ok (fresh arr)
        end
      else if negb (isNaN (Number part)) then
        (* Index(n): the element at [n] of a source array, if there is one *)
        match s with
        | TArr items _ =>
            match to_index (Number part) with
            | Inexact => Err Unmodelled
            | OutOfRange => Ok (fresh arr)
            | AtIndex n =>
                if (n <? N.of_nat (length items))%N then
                  let i := N.to_nat n in
                  let si := nth i items TUndef in
                  if isLast then Ok (put_index arr i si)
                  else
                    let* c := project_tokens rest si false in
                    Ok (put_index arr i c)
                else Ok (fresh arr)
            end
        | _ => Ok (fresh arr)
        end
      else
        (* Literal(name): the property of a source object, if it has it *)
        match named s part with
        | None => Ok (fresh arr)
        | Some sv =>
            if arr then Err Unmodelled
            else if isLast then Ok (put_named part sv)
            else
              let* c :=
                project_tokens rest sv
                  (JsonFieldFilter.is_array_access (hd EmptyString rest)) in
              Ok (put_named part c)
        end
  end.

(** The container the walk is given fits the token it starts with: an
    array is only created for a Wildcard or an Index. *)
Definition fits (parts : list string) (arr : bool) : Prop :=
  arr = true ->
  match parts with
  | part :: _ => JsonFieldFilter.is_array_access part = true
  | [] => True
  end.

End Spec.


(** ** The walk on a fresh target, in the store *)

Module FreshWalk.

Definition fresh_obj (arr : bool) : obj :=
  if arr then empty_array else empty_object.

(** The footprint of a target built at [lt]: the source below [n0], the
    target itself, and what was allocated while the store grew from
    length [n] to length [n']. *)
Definition built (n0 lt n n' : nat) : loc -> Prop :=
  fun l => l < n0 \/ l = lt \/ n <= l < n'.

(** The footprint of the elements of a target array: the source below
    [n0] and what was allocated from [n] on. *)
Definition grown (n0 n n' : nat) : loc -> Prop :=
  fun l => l < n0 \/ n <= l < n'.

(** The walk of [parts] from a fresh container at [lt] does what
    [Spec.project_tokens] says: it fails with the same error, or it ends
    in a store where [lt] stands for the projected tree, having changed
    no object that existed before but [lt]. *)
Definition agrees_with_spec (parts : list string) : Prop :=
  forall (h : heap) (n0 : nat) (source : val) (s : tree) (lt : loc) (arr : bool),
    repr (below n0) h source s ->
    is_json s = true ->
    n0 <= lt ->
    h !! lt = Some (fresh_obj arr) ->
    Spec.fits parts arr ->
    match Spec.project_tokens parts s arr with
    | Ok t =>
        exists h',
          JsonFieldFilter.buildStructureFromPath parts h source (VRef lt) = Ok h'
          /\ length h <= length h'
          /\ (forall l, l < length h -> l <> lt -> h' !! l = h !! l)
          /\ repr (built n0 lt (length h) (length h')) h' (VRef lt) t
    | Err e =>
        JsonFieldFilter.buildStructureFromPath parts h source (VRef lt) = Err e
    end.

(** The object a fresh container becomes when one element is set. *)
Definition one_index (arr : bool) (i : nat) (v : val) : obj :=
  if arr then mkObj true (repeat VUndef i ++ [v]) []
  else mkObj false [] [(index_key (N.of_nat i), v)].

(** A Literal token: neither the Wildcard nor a number. *)
Definition literal (part : string) : Prop :=
  String.eqb part "*" = false /\ isNaN (Number part) = true.

(** The node of the source a run of names leads to. *)
Fixpoint reach (s : tree) (names : list string) : option tree :=
  match names with
  | [] => Some s
  | k :: ks =>
      match Spec.named s k with
      | Some sv => reach sv ks
      | None => None
      end
  end.

(** A chain of containers from [l]: objects of one property each, named
    by [ks] in turn, down to an empty container. *)
Fixpoint chain_at (h : heap) (l : loc) (ks : list string) (last_arr : bool)
  : Prop :=
  match ks with
  | [] => h !! l = Some (fresh_obj last_arr)
  | k :: ks' =>
      exists l', l < l'
        /\ h !! l = Some (mkObj false [] [(k, VRef l')])
        /\ chain_at h l' ks' last_arr
  end.

(** One round of the Wildcard loop on a target array that has no
    element yet at [i]: a new object is stored there and the remaining
    tokens are walked into it. *)
Definition each_fresh (la : loc) (rest : list string)
  : nat -> val -> heap -> result heap :=
  fun i sourceItem h1 =>
    let '(li, h2) := Store.alloc empty_object h1 in
    let* h3 := JsonFieldFilter.assign_index h2 (VRef la) i (VRef li) in
    JsonFieldFilter.buildStructureFromPath rest h3 sourceItem (VRef li).

End FreshWalk.


(** A store holding the array [[{x: 1}, {y: 2}]] at location 2 and an
    empty array at location 3. *)
Definition sample_store : heap :=
  [mkObj false [] [("x", VNum (num 1))];
   mkObj false [] [("y", VNum (num 2))];
   mkObj true [VRef 0; VRef 1] [];
   empty_array].


(** The store holding [person] alone, allocated children first: the root
    object is at location 3. *)
Definition person_store : heap :=
  Eval vm_compute in snd (Tree.alloc person []).


(** ** Characters a path does not hold *)

(** [s] has no occurrence of the character [c]. *)
Definition lacks (c : ascii) (s : string) : Prop := ~ In c (JsString.chars s).

(** ** Measures and shapes of trees *)

(** The number of containers on the longest branch. *)
Fixpoint height (t : tree) : nat :=
  match t with
  | TArr items extra =>
      S (Nat.max (list_max (map height items))
                 (list_max (map (fun p => height (snd p)) extra)))
  | TObj fields => S (list_max (map (fun p => height (snd p)) fields))
  | _ => 0
  end.

Definition is_hole (t : tree) : bool :=
  match t with TUndef => true | _ => false end.

(** An element that [every] does not take for empty: neither a hole nor
    [null], nor an object or array without key. *)
Definition counted (t : tree) : bool :=
  match t with
  | TUndef | TNull => false
  | TBool _ | TNum _ | TStr _ => true
  | TArr items extra =>
      existsb (fun i => negb (is_hole i)) items
      || match extra with [] => false | _ => true end
  | TObj fields => match fields with [] => false | _ => true end
  end.

(** What [cleanupEmptyStructures] leaves as it is, in the two places a
    value can have.  First component: the value under a key of the
    object being cleaned, which is deleted when it is an array without
    counted element or an object without property, and whose array
    elements and properties are cleaned in turn.  Second component: the
    object or array handed to [cleanupEmptyStructures] itself, which is
    never deleted, only cleaned key by key. *)
Fixpoint survives (t : tree) : bool * bool :=
  match t with
  | TArr items extra =>
      let plain := match extra with [] => true | _ => false end in
      (existsb counted items && forallb (fun i => snd (survives i)) items && plain,
       forallb (fun i => fst (survives i)) items && plain)
  | TObj fields =>
      let inside := forallb (fun p => fst (survives (snd p))) fields in
      (inside && match fields with [] => false | _ => true end, inside)
  | _ => (true, true)
  end.

(** A value that pruning leaves alone under a key: nothing in it is
    removed, and it is not removed itself. *)
Definition dense (t : tree) : bool := fst (survives t).

(** A value in which pruning removes nothing when it is the object or
    array being cleaned; it may be empty itself. *)
Definition dense_inside (t : tree) : bool := snd (survives t).

(** The values directly under a container. *)
Definition child_of (t c : tree) : Prop :=
  match t with
  | TArr items extra => In c items \/ exists k, In (k, c) extra
  | TObj fields => exists k, In (k, c) fields
  | _ => False
  end.

(** The object that holds [v] at the end of a run of names. *)
Fixpoint nest (names : list string) (v : tree) : tree :=
  match names with
  | [] => v
  | k :: ks => TObj [(k, nest ks v)]
  end.

(** The properties of [src] named by [ks], assigned one after the other
    to the properties [acc]. *)
Definition pick {A} (ks : list string) (src acc : list (string * A))
  : list (string * A) :=
  fold_left
    (fun acc k =>
       match Props.assoc k src with
       | Some t => Props.upsert k t acc
       | None => acc
       end)
    ks acc.

(** The properties of [fields] named by [ks], as assigning them in turn
    to a new object leaves them. *)
Definition select (ks : list string) (fields : list (string * tree))
  : list (string * tree) :=
  pick ks fields [].

(** A Spec that is one property name: no dot, no bracket, neither the
    star nor a number. *)
Definition plain_name (k : string) : Prop :=
  lacks "."%char k /\ lacks "["%char k /\ FreshWalk.literal k.

(** One round of the loop of [cleanupEmptyStructures] over the keys of
    the object at [l]. *)
Definition prune_visit (fuel' : nat) (l : loc) (h : heap) (k : key)
  : result heap :=
  let value := Obj.get_key (Store.get h l) k in
  match value with
  | VRef lv =>
      if is_array (Store.get h lv) then
        if length (elems (Store.get h lv)) =? 0 then
          Ok (Store.set l (Obj.delete_key (Store.get h l) k) h)
        else
          let* h1 :=
            JsonFieldFilter.forEach
              (fun _ item h0 =>
                 match item with
                 | VRef _ => JsonFieldFilter.cleanupEmptyStructures fuel' h0 item
                 | _ => Ok h0
                 end)
              lv h in
          if forallb (JsonFieldFilter.is_empty_item h1) (elems (Store.get h1 lv))
          then Ok (Store.set l (Obj.delete_key (Store.get h1 l) k) h1)
          else Ok h1
      else
        let* h1 := JsonFieldFilter.cleanupEmptyStructures fuel' h value in
        if JsonFieldFilter.no_keys h1 lv
        then Ok (Store.set l (Obj.delete_key (Store.get h1 l) k) h1)
        else Ok h1
  | _ => Ok h
  end.

(** The loops of [Tree.alloc] and [Tree.reify] over the elements and
    over the properties of a container. *)
Fixpoint alloc_items (a : tree -> heap -> val * heap) (ts : list tree)
         (h : heap) : list val * heap :=
  match ts with
  | [] => ([], h)
  | t :: ts' =>
      let '(v, h1) := a t h in
      let '(vs, h2) := alloc_items a ts' h1 in
      (v :: vs, h2)
  end.

Fixpoint alloc_props (a : tree -> heap -> val * heap)
         (fs : list (string * tree)) (h : heap)
  : list (string * val) * heap :=
  match fs with
  | [] => ([], h)
  | (k, t) :: fs' =>
      let '(v, h1) := a t h in
      let '(vs, h2) := alloc_props a fs' h1 in
      ((k, v) :: vs, h2)
  end.

Fixpoint reify_items (r : val -> option tree) (vs : list val)
  : option (list tree) :=
  match vs with
  | [] => Some []
  | v :: vs' =>
      match r v, reify_items r vs' with
      | Some t, Some ts => Some (t :: ts)
      | _, _ => None
      end
  end.

Fixpoint reify_props (r : val -> option tree) (ps : list (string * val))
  : option (list (string * tree)) :=
  match ps with
  | [] => Some []
  | (k, v) :: ps' =>
      match r v, reify_props r ps' with
      | Some t, Some ts => Some ((k, t) :: ts)
      | _, _ => None
      end
  end.

(** An object or an array: what [_transform] projects. *)
Definition container (t : tree) : Prop :=
  match t with TArr _ _ | TObj _ => True | _ => False end.

(** The first token of a Spec. *)
Definition root_token (spec : string) : string :=
  hd EmptyString (JsonFieldFilter.parsePath spec).

(** The footprint of what hangs under a target at [lt]: the source below
    [n0] and the locations after the target up to [n]. *)
Definition under (n0 lt n : nat) : loc -> Prop :=
  fun l => l < n0 \/ lt < l < n.

(** A boolean, a number or a string. *)
Definition scalar (t : tree) : Prop :=
  match t with TBool _ | TNum _ | TStr _ => True | _ => False end.

(** What the walk of the one name [leaf] makes of an array element: the
    object with that property of the element, the empty object when the
    element has no such property. *)
Definition leaf_object (leaf : string) (item : tree) : tree :=
  match Spec.named item leaf with
  | Some v => TObj [(leaf, v)]
  | None => TObj []
  end.

(** ** What pruning may take away *)

(** [ps'] is [ps] without some of its properties that held an object or
    array. *)
Inductive props_left : list (string * val) -> list (string * val) -> Prop :=
| left_nil : props_left [] []
| left_keep p ps ps' : props_left ps ps' -> props_left (p :: ps) (p :: ps')
| left_drop k l ps ps' : props_left ps ps' -> props_left ((k, VRef l) :: ps) ps'.

(** [vs'] is [vs] with holes in place of some elements that were objects
    or arrays. *)
Definition elems_left (vs vs' : list val) : Prop :=
  Forall2 (fun v v' => v' = v \/ (v' = VUndef /\ exists l, v = VRef l)) vs vs'.

Definition obj_left (o o' : obj) : Prop :=
  is_array o' = is_array o
  /\ elems_left (elems o) (elems o')
  /\ props_left (props o) (props o').

Definition store_left (h h' : heap) : Prop := Forall2 obj_left h h'.

(** No object of the store has two properties of the same name. *)
Definition unique_names (h : heap) : Prop :=
  Forall (fun o => NoDup (map fst (props o))) h.

(** The store holding [{a: {b: {}, c: 1}}] at location 2. *)
Definition nested_store : heap :=
  [empty_object;
   mkObj false [] [("b", VRef 0); ("c", VNum (num 1))];
   mkObj false [] [("a", VRef 1)]].

(** ** Several Wildcard Specs over one array *)

(** One round of the Wildcard loop on a target that is an array
    already: the element is given an object if it has none, and the
    remaining tokens are walked into it. *)
Definition each_merged (target : val) (rest : list string)
  : nat -> val -> heap -> result heap :=
  fun i sourceItem h1 =>
    let* ti := JsonFieldFilter.target_index h1 target i in
    let* h2 :=
      match ti with
      | VUndef =>
          let '(li, h') := Store.alloc empty_object h1 in
          JsonFieldFilter.assign_index h' target i (VRef li)
      | _ => Ok h1
      end in
    let* ti' := JsonFieldFilter.target_index h2 target i in
    JsonFieldFilter.buildStructureFromPath rest h2 sourceItem ti'.

(** The names walked into the object of element [j] so far, when the
    Specs of [done] are through and the loop of the Spec of [leaf] is
    at element [i]. *)
Definition stage (done : list string) (leaf : string) (i j : nat) : list string :=
  if j <? i then done ++ [leaf] else done.

(** The store [h'] is the store [h] of the source followed by a target
    [{base: [e_0, ..., e_(m-1)]}], the object [e_j] holding the
    properties of the [j]-th row of the source named by [sel j], as
    assigning them in turn leaves them. *)
Definition laid (h : heap) (base : string) (pss : list (list (string * val)))
           (m : nat) (sel : nat -> list string) (h' : heap) : Prop :=
  length h' = length h + 2 + m
  /\ (forall x, x < length h -> h' !! x = h !! x)
  /\ h' !! length h = Some (mkObj false [] [(base, VRef (S (length h)))])
  /\ h' !! S (length h)
     = Some (mkObj true (map VRef (seq (length h + 2) m)) [])
  /\ (forall j, j < m ->
        h' !! (length h + 2 + j)
        = Some (mkObj false [] (pick (sel j) (nth j pss []) []))).

(** A source array of objects. *)
Definition rows_at (h : heap) (rs : list loc) (pss : list (list (string * val)))
  : Prop :=
  Forall2 (fun r ps => r < length h /\ h !! r = Some (mkObj false [] ps)) rs pss.

(** * Properties *)

(** ** The streaming parser *)

Section Stages.

Context {S I O : Type} (f : S -> I -> S * list O).

Lemma run_stage_app (s : S) (l1 l2 : list I) :
  StreamJson.run_stage f s (l1 ++ l2) =
  let '(s1, o1) := StreamJson.run_stage f s l1 in
  let '(s2, o2) := StreamJson.run_stage f s1 l2 in
  (s2, o1 ++ o2).
Proof.
  revert s. induction l1 as [|i l1 IH]; intros s; simpl.
  - destruct (StreamJson.run_stage f s l2); reflexivity.
  - destruct (f s i) as [s1 o1]. rewrite IH.
    destruct (StreamJson.run_stage f s1 l1) as [s2 o2].
    destruct (StreamJson.run_stage f s2 l2) as [s3 o3].
    now rewrite app_assoc.
Qed.

(** A stage that ignores its input in the states [stuck] stays there
    and puts out nothing. *)
Lemma run_stage_stuck (stuck : S -> Prop) :
  (forall s i, stuck s -> f s i = (s, [])) ->
  forall l s, stuck s -> StreamJson.run_stage f s l = (s, []).
Proof.
  intros Hf l. induction l as [|i l IH]; intros s Hs; simpl; [reflexivity|].
  rewrite (Hf s i Hs), (IH s Hs). reflexivity.
Qed.

End Stages.

Lemma chars_app (a b : string) :
  JsString.chars (a +:+ b) = JsString.chars a ++ JsString.chars b.
Proof.
  unfold JsString.chars. induction a as [|c a IH]; simpl; [reflexivity|].
  now rewrite IH.
Qed.

Module PipelineFacts.

Import StreamJson StreamJson.Pipeline.

Lemma onChar_broken s c : is_broken s -> onChar s c = (s, []).
Proof. intros [e He]. unfold onChar. now rewrite He. Qed.

Lemma write_broken s chunk : is_broken s -> write s chunk = (s, []).
Proof.
  intros Hs. unfold write.
  apply (run_stage_stuck onChar is_broken); [apply onChar_broken | exact Hs].
Qed.

Lemma finish_broken s : is_broken s -> finish s = (s, []).
Proof. intros [e He]. unfold finish. now rewrite He. Qed.

(** Writing a text in two pieces is writing it whole: the automaton
    keeps the unfinished token and the open containers in its state. *)
Lemma write_app s a b :
  write s (a +:+ b) =
  let '(s1, o1) := write s a in
  let '(s2, o2) := write s1 b in
  (s2, o1 ++ o2).
Proof. unfold write. rewrite chars_app. apply run_stage_app. Qed.

End PipelineFacts.

Module JsonParserFacts.

Import StreamJson JsonParser.

Lemma onData_pipeline s d : pipeline (onData s d) = pipeline s.
Proof.
  unfold onData. destruct (failure s); [reflexivity|].
  destruct (StreamArray.item_value d); simpl; try reflexivity;
    unfold push, fail; destruct (ended s); reflexivity.
Qed.

(** What the handler makes of a run of [data] events depends on the
    readable side only. *)
Lemma onData_readable s s' d :
  readable s = readable s' -> readable (onData s d) = readable (onData s' d).
Proof.
  unfold readable. intros H. injection H as Hp He Hf.
  unfold onData. rewrite Hf. destruct (failure s') eqn:E; simpl.
  - congruence.
  - destruct (StreamArray.item_value d); simpl; unfold push, fail; simpl;
      rewrite ?Hp, ?He, ?Hf; try congruence;
      destruct (ended s'); simpl; congruence.
Qed.

Lemma deliver_readable items : forall s s',
  readable s = readable s' ->
  readable (fold_left onData items s) = readable (fold_left onData items s').
Proof.
  induction items as [|d items IH]; intros s s' H; simpl; [exact H|].
  apply IH, onData_readable, H.
Qed.

Lemma onData_failed s d e : failure s = Some e -> onData s d = s.
Proof. intros H. unfold onData. now rewrite H. Qed.

Lemma deliver_failed items : forall s e,
  failure s = Some e -> fold_left onData items s = s.
Proof.
  induction items as [|d items IH]; intros s e H; simpl; [reflexivity|].
  rewrite (onData_failed s d e H). eapply IH, H.
Qed.

Lemma handle_settle s pl items :
  handle s (pl, items) = settle pl (fold_left onData items s).
Proof. reflexivity. Qed.

Lemma settle_readable pl s s' :
  readable s = readable s' -> settle pl s = settle pl s'.
Proof.
  unfold readable, settle. intros H. injection H as Hp He Hf.
  now rewrite Hp, He, Hf.
Qed.

Lemma settle_pipeline pl s : pipeline (settle pl s) = pl.
Proof.
  unfold settle, onError; cbn.
  destruct (failure s); [reflexivity|]. destruct (Pipeline.broken pl); reflexivity.
Qed.

Lemma settle_idem pl s : settle pl (settle pl s) = settle pl s.
Proof.
  unfold settle, onError; cbn.
  destruct (failure s) eqn:Ef; cbn; [reflexivity|].
  destruct (Pipeline.broken pl) eqn:Eb; cbn; rewrite ?Eb; reflexivity.
Qed.

Lemma settle_sound pl s :
  Pipeline.broken pl = None ->
  readable (settle pl s) = readable s.
Proof.
  intros Eb. unfold settle, onError, readable; cbn. rewrite Eb.
  destruct (failure s) eqn:Ef; cbn; rewrite ?Ef; reflexivity.
Qed.

(** Two chunks in a row are handled as their concatenation. *)
Lemma _transform_app s a b :
  _transform (_transform s a) b = _transform s (a +:+ b).
Proof.
  unfold _transform at 1 3. rewrite PipelineFacts.write_app.
  unfold _transform.
  destruct (Pipeline.write (pipeline s) a) as [pl1 o1] eqn:E1.
  rewrite (handle_settle s pl1 o1), settle_pipeline.
  destruct (Pipeline.broken pl1) as [e|] eqn:Eb.
  - (* the pipeline broke in the first chunk: the second adds nothing *)
    rewrite (PipelineFacts.write_broken pl1 b) by (eexists; exact Eb).
    rewrite app_nil_r, !handle_settle. cbn [fold_left].
    apply settle_idem.
  - destruct (Pipeline.write pl1 b) as [pl2 o2] eqn:E2.
    rewrite !handle_settle, fold_left_app.
    apply settle_readable.
    rewrite (deliver_readable o2 _ (fold_left onData o1 s)); [reflexivity|].
    now apply settle_sound.
Qed.

(** The values pushed in a run are those the handler pushes for the
    events of the whole input. *)
Lemma fold_transform c chunks : forall s,
  fold_left _transform (c :: chunks) s =
  settle (fst (run_stage Pipeline.write (pipeline s) (c :: chunks)))
         (fold_left onData
            (snd (run_stage Pipeline.write (pipeline s) (c :: chunks))) s).
Proof.
  revert c. induction chunks as [|c' chunks IH]; intros c s.
  - cbn [run_stage fold_left]. unfold _transform.
    destruct (Pipeline.write (pipeline s) c) as [pl1 o1].
    cbn [fst snd]. now rewrite app_nil_r, handle_settle.
  - change (fold_left _transform (c :: c' :: chunks) s)
      with (fold_left _transform (c' :: chunks) (_transform s c)).
    rewrite IH. cbn [run_stage].
    assert (Hs1 : exists pl1 o1,
               Pipeline.write (pipeline s) c = (pl1, o1) /\
               _transform s c = settle pl1 (fold_left onData o1 s)).
    { unfold _transform. destruct (Pipeline.write (pipeline s) c) as [pl1 o1].
      exists pl1, o1. split; [reflexivity | apply handle_settle]. }
    destruct Hs1 as (pl1 & o1 & E1 & Hs1). rewrite Hs1, E1, settle_pipeline.
    destruct (Pipeline.write pl1 c') as [pl2 o2] eqn:E2.
    destruct (run_stage Pipeline.write pl2 chunks) as [pl3 o3] eqn:E3.
    cbn [fst snd]. rewrite (fold_left_app _ o1).
    destruct (Pipeline.broken pl1) as [e|] eqn:Eb.
    + rewrite (PipelineFacts.write_broken pl1 c') in E2 by (eexists; exact Eb).
      injection E2 as <- <-.
      assert (Hst : run_stage Pipeline.write pl1 chunks = (pl1, [])).
      { apply (run_stage_stuck Pipeline.write Pipeline.is_broken);
          [intros; now apply PipelineFacts.write_broken | eexists; exact Eb]. }
      rewrite Hst in E3. injection E3 as <- <-. cbn [fold_left app].
      apply settle_idem.
    + apply settle_readable, deliver_readable. now apply settle_sound.
Qed.

Lemma run_settle s chunks :
  run s chunks =
  settle (fst (Pipeline.run (pipeline s) chunks))
         (fold_left onData (snd (Pipeline.run (pipeline s) chunks)) s).
Proof.
  unfold run, Pipeline.run, _flush.
  destruct chunks as [|c chunks].
  - cbn [run_stage fold_left].
    destruct (Pipeline.finish (pipeline s)) as [pl2 o2].
    now rewrite handle_settle.
  - rewrite fold_transform, settle_pipeline.
    destruct (run_stage Pipeline.write (pipeline s) (c :: chunks)) as [pl1 o1].
    cbn [fst snd].
    destruct (Pipeline.finish pl1) as [pl2 o2] eqn:E2.
    rewrite handle_settle. cbn [fst snd]. rewrite fold_left_app.
    destruct (Pipeline.broken pl1) as [e|] eqn:Eb.
    + rewrite (PipelineFacts.finish_broken pl1) in E2 by (eexists; exact Eb).
      injection E2 as <- <-. cbn [fold_left]. apply settle_idem.
    + apply settle_readable, deliver_readable. now apply settle_sound.
Qed.

Lemma settle_pushed pl s : pushed (settle pl s) = pushed s.
Proof.
  unfold settle, onError; cbn.
  destruct (failure s); [reflexivity|]. destruct (Pipeline.broken pl); reflexivity.
Qed.

Lemma run_pushed s chunks :
  pushed (run s chunks) =
  pushed (fold_left onData (snd (Pipeline.run (pipeline s) chunks)) s).
Proof.
  now rewrite run_settle, settle_pushed.
Qed.

End JsonParserFacts.

Module JsonParserClaims.

Import StreamJson JsonParser JsonParserFacts.

Lemma new_fresh extractPath parser :
  new extractPath = Ok parser ->
  pushed parser = [] /\ ended parser = false /\ failure parser = None.
Proof.
  unfold new. destruct (pathMatch extractPath) as [g|]; [|discriminate].
  destruct (String.eqb g EmptyString); intros H; injection H as <-; auto.
Qed.

(** Until a [null] comes, every defined value is pushed. *)
Lemma deliver_no_null items : forall s,
  failure s = None -> ended s = false ->
  ~ In TNull (map StreamArray.item_value items) ->
  let s' := fold_left onData items s in
  pushed s' = pushed s ++ defined (map StreamArray.item_value items)
  /\ ended s' = false /\ failure s' = None.
Proof.
  induction items as [|d items IH]; intros s Hf He Hn; cbn [fold_left map].
  - cbn. now rewrite app_nil_r.
  - cbn [map In] in Hn.
    assert (Hd : StreamArray.item_value d <> TNull) by tauto.
    assert (Hn' : ~ In TNull (map StreamArray.item_value items)) by tauto.
    assert (Hs : pushed (onData s d)
                 = pushed s ++ defined [StreamArray.item_value d]
                 /\ ended (onData s d) = false /\ failure (onData s d) = None).
    { unfold onData, push. rewrite Hf.
      destruct (StreamArray.item_value d); try congruence; rewrite ?He; cbn;
        rewrite ?app_nil_r; auto. }
    destruct Hs as (Hp & He' & Hf').
    destruct (IH (onData s d) Hf' He' Hn') as (IHp & IHe & IHf).
    repeat split; [|assumption..].
    rewrite IHp, Hp, <- app_assoc. f_equal.
    unfold defined. cbn [List.filter map].
    destruct (StreamArray.item_value d); reflexivity.
Qed.

(** Once [push(null)] has ended the readable side, nothing more is
    pushed. *)
Lemma deliver_ended items : forall s,
  ended s = true ->
  pushed (fold_left onData items s) = pushed s.
Proof.
  induction items as [|d items IH]; intros s He; cbn [fold_left]; [reflexivity|].
  assert (Hs : pushed (onData s d) = pushed s /\ ended (onData s d) = true).
  { unfold onData, push, fail. destruct (failure s); [auto|].
    destruct (StreamArray.item_value d); rewrite ?He; cbn; auto. }
  destruct Hs as (Hp & He'). now rewrite (IH _ He').
Qed.

Lemma defined_no_null vs : ~ In TNull vs -> ~ In TNull (defined vs).
Proof.
  unfold defined. intros H Hin. apply filter_In in Hin. tauto.
Qed.

End JsonParserClaims.

(** C9.  For every document whose target array holds a [null] element,
    what the parser emits stops there: it emits the (defined) elements
    before the first [null], the [null] itself is not emitted, and no
    element after it is. *)
Theorem C9_output_stops_at_first_null :
  forall (extractPath : string) (parser : JsonParser.state)
         (chunks : list string) (before after : list tree),
    JsonParser.new extractPath = Ok parser ->
    JsonParser.delivered parser chunks = before ++ TNull :: after ->
    ~ In TNull before ->
    JsonParser.pushed (JsonParser.run parser chunks) = JsonParser.defined before
    /\ ~ In TNull (JsonParser.pushed (JsonParser.run parser chunks)).
Proof.
  intros extractPath parser chunks before after Hnew Hdel Hbefore.
  destruct (JsonParserClaims.new_fresh _ _ Hnew) as (Hp & He & Hf).
  assert (Hrun : JsonParser.pushed (JsonParser.run parser chunks)
                 = JsonParser.defined before).
  { rewrite JsonParserFacts.run_pushed.
    unfold JsonParser.delivered in Hdel.
    destruct (map_eq_app _ _ _ _ Hdel) as (xs & rest & Hitems & Hxs & Hrest).
    destruct rest as [|d ys]; [discriminate|].
    cbn [map] in Hrest. injection Hrest as Hd Hys.
    rewrite Hitems, fold_left_app. cbn [fold_left].
    rewrite <- Hxs in Hbefore.
    destruct (JsonParserClaims.deliver_no_null xs parser Hf He Hbefore)
      as (Hp1 & He1 & Hf1).
    set (s1 := fold_left JsonParser.onData xs parser) in *.
    assert (Hs2 : JsonParser.pushed (JsonParser.onData s1 d) = JsonParser.pushed s1
                  /\ JsonParser.ended (JsonParser.onData s1 d) = true).
    { unfold JsonParser.onData. rewrite Hf1, Hd. cbn. auto. }
    destruct Hs2 as (Hp2 & He2).
    rewrite (JsonParserClaims.deliver_ended ys _ He2), Hp2, Hp1, Hp, Hxs.
    reflexivity. }
  split; [exact Hrun|].
  rewrite Hrun. now apply JsonParserClaims.defined_no_null.
Qed.

Lemma C9_output_stops_at_first_null_witness :
  exists parser,
    JsonParser.new "response[*]" = Ok parser /\
    JsonParser.pushed (JsonParser.run parser [doc_with_null])
    = [TObj [("id", TNum (num 1))]].
Proof.
  eexists. split; [reflexivity|].
  refine (proj1 (C9_output_stops_at_first_null "response[*]" _ [doc_with_null]
                   [TObj [("id", TNum (num 1))]] [TObj [("id", TNum (num 2))]]
                   eq_refl _ _)).
  - vm_compute. reflexivity.
  - cbn. intros [H|[]]. discriminate.
Defined.

(** C2.  On a well-formed document whose extraction path resolves to
    an array of three elements, the second of them [null], the parser
    emits one Source Value, not three: [push(null)] ends its readable
    side, and the element after it is refused. *)
Theorem C2_null_element_cuts_output :
  exists parser,
    JsonParser.new "response[*]" = Ok parser /\
    StreamJson.well_formed doc_with_null /\
    length (JsonParser.delivered parser [doc_with_null]) = 3 /\
    JsonParser.outcome (JsonParser.run parser [doc_with_null])
    = ([TObj [("id", TNum (num 1))]], Some PushAfterEOF).
Proof.
  eexists. split; [reflexivity|]. split; [|split].
  - eexists. vm_compute. reflexivity.
  - vm_compute. reflexivity.
  - vm_compute. reflexivity.
Qed.

(** C4.  For every well-formed document and every split of its text
    into two chunks, the parser ends in the same state, and so has
    emitted the same Source Values, as on the text in one chunk. *)
Theorem C4_split_chunks_same_values :
  forall (extractPath : string) (parser : JsonParser.state) (doc a b : string),
    JsonParser.new extractPath = Ok parser ->
    StreamJson.well_formed doc ->
    doc = a +:+ b ->
    JsonParser.run parser [a; b] = JsonParser.run parser [doc].
Proof.
  intros extractPath parser doc a b _ _ ->.
  unfold JsonParser.run. cbn [fold_left].
  now rewrite JsonParserFacts._transform_app.
Qed.

Lemma C4_split_chunks_same_values_witness :
  exists parser,
    JsonParser.new "response[*]" = Ok parser /\
    JsonParser.run parser [doc_two_head; doc_two_tail] = JsonParser.run parser [doc_two] /\
    JsonParser.pushed (JsonParser.run parser [doc_two_head; doc_two_tail])
    = [TObj [("id", TNum (num 1))]; TObj [("id", TNum (num 2))]].
Proof.
  eexists. split; [reflexivity|].
  split.
  - apply (C4_split_chunks_same_values "response[*]" _ doc_two doc_two_head doc_two_tail).
    + reflexivity.
    + eexists. vm_compute. reflexivity.
    + vm_compute. reflexivity.
  - vm_compute. reflexivity.
Defined.

(** ** The constructor of the parser *)

Module ConstructorFacts.

Import JsonParser.

Lemma length_append (s t : string) :
  String.length (s +:+ t) = String.length s + String.length t.
Proof. induction s as [|c s IH]; simpl; [reflexivity | f_equal; exact IH]. Qed.

Lemma substring_length (s : string) : forall n m,
  n + m <= String.length s -> String.length (String.substring n m s) = m.
Proof.
  induction s as [|c s IH]; intros n m H; cbn in H.
  - assert (n = 0) by lia. assert (m = 0) by lia. subst. reflexivity.
  - destruct n as [|n]; cbn.
    + destruct m as [|m]; cbn; [reflexivity|]. rewrite IH; [reflexivity|lia].
    + apply IH. lia.
Qed.

Lemma substring_none (s : string) : String.substring 0 0 s = EmptyString.
Proof. destruct s; reflexivity. Qed.

Lemma substring_all (s : string) : String.substring 0 (String.length s) s = s.
Proof. induction s as [|c s IH]; simpl; [reflexivity | f_equal; exact IH]. Qed.

(** A string is its first [n] characters followed by the rest. *)
Lemma substring_split (s : string) : forall n,
  n <= String.length s ->
  s = String.substring 0 n s +:+ String.substring n (String.length s - n) s.
Proof.
  induction s as [|c s IH]; intros n H; cbn in H.
  - assert (n = 0) by lia. subst. reflexivity.
  - destruct n as [|n].
    + rewrite substring_none, Nat.sub_0_r, substring_all. reflexivity.
    + change (String c s = String c (String.substring 0 n s +:+
                 String.substring n (String.length s - n) s)).
      f_equal. apply IH. lia.
Qed.

Lemma substring_append_l (g t : string) :
  String.substring 0 (String.length g) (g +:+ t) = g.
Proof.
  induction g as [|c g IH]; simpl; [apply substring_none | f_equal; exact IH].
Qed.

Lemma substring_append_r (g t : string) (m : nat) :
  String.substring (String.length g) m (g +:+ t) = String.substring 0 m t.
Proof. induction g as [|c g IH]; simpl; [reflexivity | exact IH]. Qed.

Definition no_line_terminator (g : string) : Prop :=
  forallb (fun c => negb (is_line_terminator c)) (JsString.chars g) = true.

(** What the regular expression [/^(.+)\[\*\]$/] accepts: a non-empty
    group free of line terminators, followed by the marker. *)
Lemma pathMatch_spec (extractPath g : string) :
  pathMatch extractPath = Some g <->
  extractPath = g +:+ "[*]" /\ g <> EmptyString /\ no_line_terminator g.
Proof.
  unfold pathMatch, no_line_terminator. split.
  - destruct (4 <=? String.length extractPath) eqn:Hlen; [|discriminate].
    apply Nat.leb_le in Hlen. cbn [andb].
    destruct (String.eqb_spec
                (String.substring (String.length extractPath - 3) 3 extractPath)
                "[*]") as [Hm|]; [|discriminate].
    destruct (forallb _ _) eqn:Hlt; [|discriminate].
    intros H. injection H as <-. repeat split.
    + rewrite (substring_split extractPath (String.length extractPath - 3)) at 1 by lia.
      replace (String.length extractPath - (String.length extractPath - 3))
        with 3 by lia.
      now rewrite Hm.
    + intros He.
      assert (Hl := substring_length extractPath 0 (String.length extractPath - 3)
                      ltac:(lia)).
      rewrite He in Hl. cbn in Hl. lia.
    + exact Hlt.
  - intros (-> & Hne & Hlt).
    rewrite length_append. cbn [String.length].
    assert (Hg : 1 <= String.length g) by (destruct g; [congruence | cbn; lia]).
    replace (4 <=? String.length g + 3) with true
      by (symmetry; apply Nat.leb_le; lia).
    replace (String.length g + 3 - 3) with (String.length g) by lia.
    rewrite substring_append_r, substring_append_l. cbn [andb].
    change (String.substring 0 3 "[*]") with "[*]".
    rewrite String.eqb_refl, Hlt. reflexivity.
Qed.

(** The constructor succeeds only with a filter for [pick]: the branch
    that streams the whole document is never taken. *)
Lemma new_always_picks (extractPath : string) (parser : state) :
  new extractPath = Ok parser ->
  exists jsonPath,
    StreamJson.Pipeline.filter (pipeline parser) = Some jsonPath
    /\ extractPath = jsonPath +:+ "[*]" /\ jsonPath <> EmptyString.
Proof.
  unfold new. destruct (pathMatch extractPath) as [g|] eqn:Hm; [|discriminate].
  apply pathMatch_spec in Hm. destruct Hm as (Hp & Hne & _).
  destruct (String.eqb_spec g EmptyString) as [|_]; [contradiction|].
  intros H. injection H as <-. exists g. auto.
Qed.

Lemma new_ok_iff (extractPath : string) :
  (exists parser, new extractPath = Ok parser) <->
  exists g, extractPath = g +:+ "[*]" /\ g <> EmptyString /\ no_line_terminator g.
Proof.
  split.
  - intros [parser H]. unfold new in H.
    destruct (pathMatch extractPath) as [g|] eqn:Hm; [|discriminate].
    exists g. now apply pathMatch_spec.
  - intros (g & Hg). apply pathMatch_spec in Hg. unfold new. rewrite Hg.
    destruct (String.eqb g EmptyString); eexists; reflexivity.
Qed.

End ConstructorFacts.

(** C1.  The path [[*]] ends in the array marker and is documented as
    the way to stream a top-level array, yet the constructor refuses it
    with the configuration error: the pattern asks for at least one
    character before the marker, so that no accepted path ever builds
    the pipeline without [pick]. *)
Theorem C1_marker_only_path_refused :
  JsonParser.new "[*]" = Err ConfigurationError
  /\ (forall extractPath parser,
        JsonParser.new extractPath = Ok parser ->
        StreamJson.Pipeline.filter (JsonParser.pipeline parser) <> None).
Proof.
  split; [reflexivity|].
  intros extractPath parser H.
  destruct (ConstructorFacts.new_always_picks _ _ H) as (g & Hg & _).
  congruence.
Qed.

(** ** The projector on the scenarios of the specification *)

Example scenario_1 :
  project ["personid"; "personBasic"] person =
  Ok (person,
      TObj [("personid", TStr "U1");
            ("personBasic",
             TObj [("names",
                    TArr [TObj [("firstName", TStr "Bugs");
                                ("lastName", TStr "Bunny")]] [])])]).
Proof. vm_compute. reflexivity. Qed.

Example scenario_2 : project [] person = Ok (person, TObj []).
Proof. vm_compute. reflexivity. Qed.

Example scenario_3 :
  project ["personBasic.names[*].firstName"] person =
  Ok (person,
      TObj [("personBasic",
             TObj [("names", TArr [TObj [("firstName", TStr "Bugs")]] [])])]).
Proof. vm_compute. reflexivity. Qed.

Example scenario_4 :
  project ["personBasic.names[10].firstName"; "personid"] person =
  Ok (person, TObj [("personid", TStr "U1")]).
Proof. vm_compute. reflexivity. Qed.

(** C3.  With the single Spec [a] the target shares the object under
    [a] with the source, and pruning the target then deletes the empty
    object [b] inside it: after the projection the source has lost
    [a.b]. *)
Theorem C3_pruning_reaches_into_source :
  exists source' target,
    project ["a"] nested_with_empty = Ok (source', target)
    /\ source' = TObj [("a", TObj [("c", TNum (num 1))])]
    /\ source' <> nested_with_empty.
Proof.
  do 2 eexists. split; [vm_compute; reflexivity|].
  split; [reflexivity | discriminate].
Qed.

(** C5.  On the flat object [{a: 0}] the Specs [a] and [a.b], both made
    of Literal tokens only, leave the target empty: the second Spec
    takes the zero already stored under [a] for a missing container and
    overwrites it, and pruning removes the empty container. *)
Theorem C5_falsy_leaf_is_lost :
  project ["a"; "a.b"] flat_zero = Ok (flat_zero, TObj [])
  /\ Props.assoc "a" (fields_of flat_zero) = Some (TNum (num 0))
  /\ JsonFieldFilter.parsePath "a" = ["a"]
  /\ JsonFieldFilter.parsePath "a.b" = ["a"; "b"].
Proof. repeat split; vm_compute; reflexivity. Qed.



(** C8, refuted as stated: with no field to keep the orchestrator does
    not resolve with the parsed value [{id: 1}] but with [{}]. *)
Lemma C8_counterexample :
  exists parser,
    JsonParser.new "response[*]" = Ok parser
    /\ JsonParser.outcome (JsonParser.run parser [doc_one])
       = ([TObj [("id", TNum (num 1))]], None)
    /\ AxiosResponseStreamFilter.processResponse
         (AxiosResponseStreamFilter.mkConfig [] None) [doc_one]
       = Ok [TObj []]
    /\ AxiosResponseStreamFilter.processResponse
         (AxiosResponseStreamFilter.mkConfig [] None) [doc_one]
       <> Ok (JsonParser.pushed (JsonParser.run parser [doc_one])).
Proof.
  eexists. split; [reflexivity|].
  split; [vm_compute; reflexivity|].
  split; [vm_compute; reflexivity|].
  vm_compute. discriminate.
Qed.

Module StoreFacts.

Lemma get_alloc (h : heap) (o : obj) :
  Store.get (h ++ [o]) (length h) = o.
Proof. unfold Store.get. now rewrite list_lookup_middle. Qed.

Lemma lookup_alloc (h : heap) (o : obj) :
  (h ++ [o]) !! length h = Some o.
Proof. now rewrite list_lookup_middle. Qed.

End StoreFacts.

Module TreeFacts.

(** An array or object is allocated last, after what it holds. *)
Lemma alloc_structured (t : tree) (h : heap) :
  match t with TArr _ _ | TObj _ => True | _ => False end ->
  exists h' o, Tree.alloc t h = (VRef (length h'), h' ++ [o]).
Proof.
  destruct t; try contradiction; intros _; simpl.
  - match goal with |- context [?f items h] =>
      destruct (f items h) as [vs h1] end.
    match goal with |- context [?f extra h1] =>
      destruct (f extra h1) as [ps h2] end.
    eexists _, _. reflexivity.
  - match goal with |- context [?f fields h] =>
      destruct (f fields h) as [ps h1] end.
    eexists _, _. reflexivity.
Qed.

End TreeFacts.

Module EmptySpecs.

Import AxiosResponseStreamFilter.

Lemma filterOne_blank (v : tree) :
  filterOne (mkConfig [] None) v = Ok (blank v).
Proof.
  unfold filterOne.
  assert (Hcase : match v with TArr _ _ | TObj _ => True | _ => False end
                  \/ match v with TArr _ _ | TObj _ => False | _ => True end)
    by (destruct v; auto).
  destruct Hcase as [Hs | Hs].
  - destruct (TreeFacts.alloc_structured v [] Hs) as (h' & o & ->).
    cbn [fieldsToKeep customFilterCase JsonFieldFilter._transform].
    unfold Store.alloc, JsonFieldFilter.applySpecs. cbn [fold_left bind].
    cbn [JsonFieldFilter.cleanupEmptyStructures].
    rewrite StoreFacts.get_alloc. cbn [Obj.keys empty_object elems props
      Obj.index_keys map app rev fold_left bind].
    unfold Tree.read. cbn [Tree.reify].
    rewrite StoreFacts.lookup_alloc. cbn.
    destruct v; try contradiction; reflexivity.
  - destruct v; try contradiction; reflexivity.
Qed.

Lemma collect_blank (vs : list tree) :
  collect (mkConfig [] None) vs = Ok (map blank vs).
Proof.
  induction vs as [|v vs IH]; [reflexivity|].
  cbn [collect map]. rewrite filterOne_blank, IH. reflexivity.
Qed.

End EmptySpecs.

(** C8, amended.  When the list of Specs is empty (and there is no hook)
    the orchestrator resolves with one value per Source Value the parser
    emitted: the empty object for an object or array, the value itself
    for a scalar. *)
Theorem C8_empty_specs_blank_every_object :
  forall (chunks : list string) (parser : JsonParser.state),
    JsonParser.new "response[*]" = Ok parser ->
    JsonParser.failure (JsonParser.run parser chunks) = None ->
    AxiosResponseStreamFilter.processResponse
      (AxiosResponseStreamFilter.mkConfig [] None) chunks
    = Ok (map blank (JsonParser.pushed (JsonParser.run parser chunks))).
Proof.
  intros chunks parser Hnew Hok.
  unfold AxiosResponseStreamFilter.processResponse.
  rewrite Hnew. cbn [bind]. rewrite Hok.
  apply EmptySpecs.collect_blank.
Qed.

Lemma C8_empty_specs_blank_every_object_witness :
  exists parser,
    JsonParser.new "response[*]" = Ok parser
    /\ AxiosResponseStreamFilter.processResponse
         (AxiosResponseStreamFilter.mkConfig [] None) [doc_two]
       = Ok (map blank (JsonParser.pushed (JsonParser.run parser [doc_two]))).
Proof.
  eexists. split; [reflexivity|].
  apply (C8_empty_specs_blank_every_object [doc_two]).
  - reflexivity.
  - vm_compute. reflexivity.
Defined.

(** ** Numeric path parts *)

Module NumericParts.

Import StringToNumber.

Definition digits (l : list ascii) : Prop :=
  l <> [] /\ Forall (fun c => is_digit c = true) l.

Lemma digit_not_space c : is_digit c = true -> is_space c = false.
Proof.
  unfold is_digit, is_space, code. intros H.
  apply andb_prop in H. destruct H as [H1 H2].
  apply N.leb_le in H1, H2.
  repeat (apply orb_false_intro || apply andb_false_intro2 || idtac);
    try (apply N.eqb_neq; lia); try (apply N.leb_gt; lia).
Qed.

Lemma drop_space_digits l : digits l -> drop_space l = l.
Proof.
  intros [Hne Hall]. destruct l as [|c l]; [congruence|].
  inversion Hall; subst. cbn. now rewrite digit_not_space.
Qed.

Lemma digits_rev l : digits l -> digits (rev l).
Proof.
  intros [Hne Hall]. split.
  - intros H. apply (f_equal (@rev _)) in H. rewrite rev_involutive in H.
    now cbn in H.
  - now apply List.Forall_rev.
Qed.

Lemma trim_digits l : digits l -> trim l = l.
Proof.
  intros H. unfold trim.
  rewrite (drop_space_digits l H), (drop_space_digits _ (digits_rev l H)).
  apply rev_involutive.
Qed.

Lemma span_all_digits l :
  Forall (fun c => is_digit c = true) l -> span_digits l = (l, []).
Proof.
  induction 1 as [|c l Hc _ IH]; cbn; [reflexivity|]. now rewrite Hc, IH.
Qed.

Lemma digit_codes c :
  is_digit c = true -> (48 <= N_of_ascii c <= 57)%N.
Proof.
  unfold is_digit, code. intros H. apply andb_prop in H.
  destruct H as [H1 H2]. apply N.leb_le in H1, H2. lia.
Qed.

Lemma unsigned_decimal_digits l :
  digits l -> exists m, unsigned_decimal false l = Fin false m 0.
Proof.
  intros [Hne Hall]. unfold unsigned_decimal.
  rewrite (span_all_digits l Hall). cbn [exponent].
  destruct l as [|c l]; [congruence|]. cbn [length]. rewrite app_nil_r.
  eexists. reflexivity.
Qed.

(** A digit is none of the characters that start another form of
    number. *)
Lemma digit_is_plain c s :
  is_digit c = true ->
  (N_of_ascii s < 48 \/ 57 < N_of_ascii s)%N ->
  Ascii.eqb c s = false.
Proof.
  intros Hc Hs. apply Ascii.eqb_neq. intros ->.
  apply digit_codes in Hc. lia.
Qed.

Lemma signed_decimal_digits l :
  digits l -> exists m, signed_decimal l = Fin false m 0.
Proof.
  intros H. pose proof H as [Hne Hall]. unfold signed_decimal.
  destruct l as [|c l]; [congruence|].
  inversion Hall as [|? ? Hd Hall']; subst.
  rewrite !(digit_is_plain c) by (assumption || (vm_compute; left + right; reflexivity)).
  assert (Hinf : String.eqb (JsString.of_chars (c :: l)) "Infinity" = false).
  { apply String.eqb_neq. cbn. intros Heq. injection Heq as Hc _.
    apply digit_codes in Hd. rewrite Hc in Hd. vm_compute in Hd.
    destruct Hd as [_ Hd]. now apply Hd. }
  rewrite Hinf. now apply unsigned_decimal_digits.
Qed.

(** [Number] of a non-empty string of decimal digits is a number. *)
Lemma Number_digits (s : string) :
  digits (JsString.chars s) -> isNaN (Number s) = false.
Proof.
  intros H. unfold Number, toNumber. rewrite (trim_digits _ H).
  pose proof H as [Hne Hall].
  destruct (JsString.chars s) as [|c0 [|c1 ds]] eqn:E; [congruence| |].
  - destruct (signed_decimal_digits [c0] H) as [m ->]. reflexivity.
  - inversion Hall as [|? ? H0 Hall']; subst. inversion Hall' as [|? ? H1 _]; subst.
    rewrite !(digit_is_plain c1) by (assumption || (vm_compute; left + right; reflexivity)).
    rewrite !andb_false_r. cbn [orb].
    destruct (signed_decimal_digits (c0 :: c1 :: ds) H) as [m ->]. reflexivity.
Qed.

Lemma star_is_no_number : isNaN (Number "*") = true.
Proof. reflexivity. Qed.

End NumericParts.



(** ** Trees in the store: framing *)

Section TreeInduction.

Variable Q : tree -> Prop.
Hypothesis Q_undef : Q TUndef.
Hypothesis Q_null : Q TNull.
Hypothesis Q_bool : forall b, Q (TBool b).
Hypothesis Q_num : forall n, Q (TNum n).
Hypothesis Q_str : forall s, Q (TStr s).
Hypothesis Q_arr : forall items extra,
  Forall Q items -> Forall (fun p => Q (snd p)) extra -> Q (TArr items extra).
Hypothesis Q_obj : forall fields,
  Forall (fun p => Q (snd p)) fields -> Q (TObj fields).

Fixpoint tree_ind_nested (t : tree) : Q t :=
  match t with
  | TUndef => Q_undef
  | TNull => Q_null
  | TBool b => Q_bool b
  | TNum n => Q_num n
  | TStr s => Q_str s
  | TArr items extra =>
      Q_arr items extra
        ((fix all (l : list tree) : Forall Q l :=
            match l with
            | [] => List.Forall_nil Q
            | x :: l' => @List.Forall_cons _ Q x l' (tree_ind_nested x) (all l')
            end) items)
        ((fix all (l : list (string * tree)) : Forall (fun p => Q (snd p)) l :=
            match l with
            | [] => List.Forall_nil _
            | x :: l' => @List.Forall_cons _ (fun p => Q (snd p)) x l' (tree_ind_nested (snd x)) (all l')
            end) extra)
  | TObj fields =>
      Q_obj fields
        ((fix all (l : list (string * tree)) : Forall (fun p => Q (snd p)) l :=
            match l with
            | [] => List.Forall_nil _
            | x :: l' => @List.Forall_cons _ (fun p => Q (snd p)) x l' (tree_ind_nested (snd x)) (all l')
            end) fields)
  end.

End TreeInduction.

Module ReprFacts.

Lemma Forall2_impl_Forall {A B} (R R' : A -> B -> Prop) (Q : B -> Prop) l k :
  Forall Q k ->
  Forall2 R l k ->
  (forall a b, Q b -> R a b -> R' a b) ->
  Forall2 R' l k.
Proof.
  intros HQ HR Himp. induction HR as [|a b l k Hab _ IH]; constructor.
  - inversion HQ; subst. now apply Himp.
  - inversion HQ; subst. now apply IH.
Qed.

(** A larger footprint represents the same tree. *)
Lemma repr_weaken (P P' : loc -> Prop) h :
  (forall l, P l -> P' l) ->
  forall t v, repr P h v t -> repr P' h v t.
Proof.
  intros Hsub t. induction t using tree_ind_nested; intros v Hr;
    inversion Hr; subst; try constructor.
  - econstructor; eauto.
    + eapply Forall2_impl_Forall; [eassumption | eassumption |]. cbn. auto.
    + eapply Forall2_impl_Forall; [eassumption | eassumption |].
      cbn. intros a b Hb [? ?]. auto.
  - econstructor; eauto.
    eapply Forall2_impl_Forall; [eassumption | eassumption |].
    cbn. intros a b Hb [? ?]. auto.
Qed.

(** A tree is still represented after a change of the store outside
    its footprint. *)
Lemma repr_frame (P : loc -> Prop) h h' :
  (forall l, P l -> h' !! l = h !! l) ->
  forall t v, repr P h v t -> repr P h' v t.
Proof.
  intros Hsame t. induction t using tree_ind_nested; intros v Hr;
    inversion Hr; subst; try constructor.
  - econstructor; eauto.
    + rewrite Hsame; eassumption.
    + eapply Forall2_impl_Forall; [eassumption | eassumption |]. cbn. auto.
    + eapply Forall2_impl_Forall; [eassumption | eassumption |].
      cbn. intros a b Hb [? ?]. auto.
  - econstructor; eauto.
    + rewrite Hsame; eassumption.
    + eapply Forall2_impl_Forall; [eassumption | eassumption |].
      cbn. intros a b Hb [? ?]. auto.
Qed.

Lemma repr_move (P P' : loc -> Prop) h h' t v :
  (forall l, P l -> P' l) ->
  (forall l, P l -> h' !! l = h !! l) ->
  repr P h v t -> repr P' h' v t.
Proof.
  intros Hsub Hsame Hr. eapply repr_weaken; [exact Hsub|].
  eapply repr_frame; eassumption.
Qed.

(** Properties are read alike in the store and in the tree. *)
Lemma assoc_fields (R : val -> tree -> Prop) k ps fields :
  Forall2 (fun p q => fst p = fst q /\ R (snd p) (snd q)) ps fields ->
  match Props.assoc k ps, Props.assoc k fields with
  | Some v, Some t => R v t
  | None, None => True
  | _, _ => False
  end.
Proof.
  induction 1 as [|[k1 v1] [k2 t2] ps fields [Hk Hv] _ IH]; cbn; [exact I|].
  cbn in Hk, Hv. subst k2. destruct (String.eqb k k1); [exact Hv | exact IH].
Qed.

Lemma repr_named P h l s k :
  repr P h (VRef l) s ->
  match Obj.get_named (Store.get h l) k, Spec.named s k with
  | Some v, Some t => repr P h v t
  | None, None => True
  | _, _ => False
  end.
Proof.
  intros Hr. inversion Hr as [| | | | |? vs ps items extra HP Hl Hvs Hps
                              |? ps fields HP Hl Hps]; subst.
  - unfold Store.get. rewrite Hl. unfold Obj.get_named, Spec.named.
    cbn [is_array andb props elems].
    destruct (String.eqb k "length").
    + unfold Obj.length_value. cbn [elems].
      rewrite (Forall2_length _ _ _ Hvs). constructor.
    + now apply assoc_fields.
  - unfold Store.get. rewrite Hl. unfold Obj.get_named, Spec.named.
    cbn [is_array andb props]. now apply assoc_fields.
Qed.

Lemma is_json_assoc k fields t :
  forallb (fun p => is_json (snd p)) fields = true ->
  Props.assoc k fields = Some t -> is_json t = true.
Proof.
  induction fields as [|[k' t'] fields IH]; cbn; [discriminate|].
  intros H. apply andb_prop in H. destruct H as [Ht Hrest].
  destruct (String.eqb k k'); [intros E; now injection E as <- | now apply IH].
Qed.

Lemma is_json_named s k t :
  is_json s = true -> Spec.named s k = Some t -> is_json t = true.
Proof.
  destruct s; cbn; try discriminate.
  - intros H. apply andb_prop in H. destruct H as [_ He].
    destruct (String.eqb k "length"); [intros E; now injection E as <-|].
    destruct extra; [discriminate | discriminate He].
  - apply is_json_assoc.
Qed.

Lemma is_json_items items extra :
  is_json (TArr items extra) = true ->
  Forall (fun s => is_json s = true) items /\ extra = [].
Proof.
  cbn. intros H. apply andb_prop in H. destruct H as [Hi He].
  split.
  - apply List.Forall_forall. intros s Hs.
    now apply (proj1 (forallb_forall _ _) Hi).
  - destruct extra; [reflexivity | discriminate].
Qed.

(** A defined tree is not represented by [undefined]. *)
Lemma repr_json_defined P h v t :
  repr P h v t -> is_json t = true -> v <> VUndef.
Proof. intros Hr Hj ->. inversion Hr; subst. discriminate. Qed.

End ReprFacts.

Module StoreSteps.

Lemma lookup_set_eq (h : heap) l o :
  l < length h -> Store.set l o h !! l = Some o.
Proof. intros H. unfold Store.set. now apply list_lookup_insert_eq. Qed.

Lemma lookup_set_ne (h : heap) l l' o :
  l <> l' -> Store.set l o h !! l' = h !! l'.
Proof. intros H. unfold Store.set. now apply list_lookup_insert_ne. Qed.

Lemma length_set (h : heap) l o : length (Store.set l o h) = length h.
Proof. unfold Store.set. apply length_insert. Qed.

Lemma lookup_alloc_old (h : heap) o l :
  l < length h -> (h ++ [o]) !! l = h !! l.
Proof. intros H. now apply lookup_app_l. Qed.

Lemma get_lookup (h : heap) l o : h !! l = Some o -> Store.get h l = o.
Proof. unfold Store.get. now intros ->. Qed.

Lemma lookup_lt (h : heap) l o : h !! l = Some o -> l < length h.
Proof. intros H. eapply lookup_lt_Some, H. Qed.

End StoreSteps.

(** ** The walk on a fresh target agrees with the walk on trees *)

Module FreshWalkFacts.

Import JsonFieldFilter FreshWalk StoreSteps.

Lemma repr_fresh n0 lt n n' (h : heap) arr :
  h !! lt = Some (fresh_obj arr) ->
  repr (built n0 lt n n') h (VRef lt) (Spec.fresh arr).
Proof.
  intros Hl. destruct arr; cbn in *.
  - eapply repr_arr; [right; left; reflexivity | exact Hl | constructor..].
  - eapply repr_obj; [right; left; reflexivity | exact Hl | constructor].
Qed.

(** The walk that returns at once. *)
Lemma stays n0 lt (h : heap) arr :
  h !! lt = Some (fresh_obj arr) ->
  exists h', Ok h = Ok h'
    /\ length h <= length h'
    /\ (forall l, l < length h -> l <> lt -> h' !! l = h !! l)
    /\ repr (built n0 lt (length h) (length h')) h' (VRef lt) (Spec.fresh arr).
Proof.
  intros Hl. exists h. repeat split; auto. now apply repr_fresh.
Qed.

Lemma repeat_undef P (h : heap) i :
  Forall2 (repr P h) (repeat VUndef i) (repeat TUndef i).
Proof. induction i; cbn; constructor; [constructor | assumption]. Qed.

(** The source array is read alike in the store and in the tree. *)
Lemma read_item P (h : heap) vs ps items i :
  Forall2 (repr P h) vs items ->
  i < length items ->
  repr P h (Obj.read (Obj.get_index (mkObj true vs ps) i)) (nth i items TUndef).
Proof.
  intros HF. revert i. induction HF as [|v s vs items Hv _ IH]; intros i Hi;
    cbn in Hi; [lia|].
  destruct i as [|i].
  - cbn. destruct v; cbn; exact Hv.
  - cbn [nth]. specialize (IH i ltac:(lia)).
    unfold Obj.get_index in *. cbn [is_array elems] in *.
    cbn [lookup list_lookup]. exact IH.
Qed.

Lemma nth_json items i :
  Forall (fun s => is_json s = true) items ->
  i < length items -> is_json (nth i items TUndef) = true.
Proof.
  intros HF. revert i. induction HF as [|s items Hs _ IH]; intros i Hi;
    cbn in Hi; [lia|].
  destruct i; cbn; [exact Hs | apply IH; lia].
Qed.

Lemma target_named_fresh (h : heap) lt k :
  h !! lt = Some empty_object -> target_named h (VRef lt) k = Ok VUndef.
Proof. intros H. unfold target_named. now rewrite (get_lookup _ _ _ H). Qed.

Lemma assign_named_fresh (h : heap) lt k v :
  h !! lt = Some empty_object ->
  assign_named h (VRef lt) k v = Ok (Store.set lt (mkObj false [] [(k, v)]) h).
Proof. intros H. unfold assign_named. now rewrite (get_lookup _ _ _ H). Qed.

Lemma target_named_one (h : heap) lt k v :
  h !! lt = Some (mkObj false [] [(k, v)]) -> target_named h (VRef lt) k = Ok v.
Proof.
  intros H. unfold target_named. rewrite (get_lookup _ _ _ H).
  unfold Obj.get_named. cbn. now rewrite String.eqb_refl.
Qed.

Lemma target_index_fresh (h : heap) lt arr i :
  h !! lt = Some (fresh_obj arr) -> target_index h (VRef lt) i = Ok VUndef.
Proof.
  intros H. unfold target_index. rewrite (get_lookup _ _ _ H).
  destruct arr; reflexivity.
Qed.

Lemma assign_index_fresh (h : heap) lt arr i v :
  h !! lt = Some (fresh_obj arr) ->
  assign_index h (VRef lt) i v = Ok (Store.set lt (one_index arr i v) h).
Proof.
  intros H. unfold assign_index. rewrite (get_lookup _ _ _ H).
  destruct arr; cbn; [rewrite Nat.sub_0_r|]; reflexivity.
Qed.

Lemma target_index_one (h : heap) lt arr i l :
  h !! lt = Some (one_index arr i (VRef l)) ->
  target_index h (VRef lt) i = Ok (VRef l).
Proof.
  intros H. unfold target_index. rewrite (get_lookup _ _ _ H).
  destruct arr; unfold Obj.get_index; cbn.
  - rewrite lookup_app_r by (rewrite repeat_length; lia).
    rewrite repeat_length, Nat.sub_diag. reflexivity.
  - now rewrite String.eqb_refl.
Qed.

Lemma repr_one_index P (h : heap) lt arr i v c :
  P lt ->
  h !! lt = Some (one_index arr i v) ->
  repr P h v c ->
  repr P h (VRef lt) (Spec.put_index arr i c).
Proof.
  intros HP Hl Hc. destruct arr; cbn in *.
  - eapply repr_arr; [exact HP | exact Hl | | constructor].
    apply Forall2_app; [apply repeat_undef | now repeat constructor].
  - eapply repr_obj; [exact HP | exact Hl |]. now repeat constructor.
Qed.

Lemma repr_one_named P (h : heap) lt k v c :
  P lt ->
  h !! lt = Some (mkObj false [] [(k, v)]) ->
  repr P h v c ->
  repr P h (VRef lt) (Spec.put_named k c).
Proof.
  intros HP Hl Hc. eapply repr_obj; [exact HP | exact Hl |].
  now repeat constructor.
Qed.

(** A value of the source stored in the fresh target. *)
Lemma store_leaf n0 (h : heap) lt o v c t :
  n0 <= lt -> lt < length h ->
  repr (below n0) h v c ->
  (forall P h', P lt -> h' !! lt = Some o -> repr P h' v c ->
                repr P h' (VRef lt) t) ->
  exists h', Ok (Store.set lt o h) = Ok h'
    /\ length h <= length h'
    /\ (forall l, l < length h -> l <> lt -> h' !! l = h !! l)
    /\ repr (built n0 lt (length h) (length h')) h' (VRef lt) t.
Proof.
  intros Hn Hlt Hv Hbuild. eexists. split; [reflexivity|].
  rewrite length_set. split; [lia|]. split.
  - intros l _ Hne. now apply lookup_set_ne.
  - apply Hbuild.
    + right; left; reflexivity.
    + now apply lookup_set_eq.
    + eapply ReprFacts.repr_move; [| |exact Hv].
      * intros l Hl. left. exact Hl.
      * intros l Hl. unfold below in Hl. apply lookup_set_ne. lia.
Qed.

(** A new container stored in the fresh target, and the rest of the path
    walked into it. *)
Lemma store_child n0 (h : heap) lt o kind rest source s t :
  agrees_with_spec rest ->
  n0 <= lt -> lt < length h ->
  repr (below n0) h source s -> is_json s = true ->
  Spec.fits rest kind ->
  (forall P h' c, P lt -> h' !! lt = Some o -> repr P h' (VRef (length h)) c ->
                  repr P h' (VRef lt) (t c)) ->
  let h2 := Store.set lt o (h ++ [fresh_obj kind]) in
  match Spec.project_tokens rest s kind with
  | Ok c =>
      exists h',
        buildStructureFromPath rest h2 source (VRef (length h)) = Ok h'
        /\ length h <= length h'
        /\ (forall l, l < length h -> l <> lt -> h' !! l = h !! l)
        /\ repr (built n0 lt (length h) (length h')) h' (VRef lt) (t c)
  | Err e => buildStructureFromPath rest h2 source (VRef (length h)) = Err e
  end.
Proof.
  intros IH Hn Hlt Hs Hj Hfits Hbuild h2.
  assert (Hlen2 : length h2 = S (length h)).
  { unfold h2. rewrite length_set, length_app. cbn. lia. }
  assert (Hold : forall l, l < length h -> l <> lt -> h2 !! l = h !! l).
  { intros l Hl Hne. unfold h2. rewrite lookup_set_ne by lia.
    now apply lookup_alloc_old. }
  assert (Hs2 : repr (below n0) h2 source s).
  { eapply ReprFacts.repr_frame; [|exact Hs].
    intros l Hl. unfold below in Hl. apply Hold; lia. }
  assert (Hc2 : h2 !! length h = Some (fresh_obj kind)).
  { unfold h2. rewrite lookup_set_ne by lia. apply list_lookup_middle. reflexivity. }
  specialize (IH h2 n0 source s (length h) kind Hs2 Hj ltac:(lia) Hc2 Hfits).
  destruct (Spec.project_tokens rest s kind) as [c|e]; [|exact IH].
  destruct IH as (h' & Hrun & Hlen & Hframe & Hrepr).
  exists h'. split; [exact Hrun|]. split; [lia|]. split.
  - intros l Hl Hne. rewrite Hframe by lia. now apply Hold.
  - apply Hbuild.
    + right; left; reflexivity.
    + rewrite Hframe by lia. unfold h2. apply lookup_set_eq.
      rewrite length_app. cbn. lia.
    + eapply ReprFacts.repr_weaken; [|exact Hrepr].
      unfold built. intros l. lia.
Qed.

End FreshWalkFacts.

Module WildcardLoop.

Import JsonFieldFilter FreshWalk FreshWalkFacts StoreSteps.

Lemma get_index_defined vs ps i v :
  vs !! i = Some v -> v <> VUndef ->
  Obj.get_index (mkObj true vs ps) i = Some v.
Proof.
  intros Hv Hne. unfold Obj.get_index. cbn. rewrite Hv.
  destruct v; congruence.
Qed.

(** The rounds of the Wildcard loop from index [i] on, when the target
    array holds the objects made for the elements before [i]. *)
Lemma rounds rest (f : nat -> val -> heap -> result heap) la :
  agrees_with_spec rest ->
  (forall i v (h1 : heap) tv,
      h1 !! la = Some (mkObj true tv []) -> length tv = i ->
      f i v h1 = each_fresh la rest i v h1) ->
  forall n i (h : heap) n0 ls L0 vs sps items tv done,
    i + n = length items ->
    ls < n0 -> n0 <= la -> la < L0 -> L0 <= length h ->
    h !! ls = Some (mkObj true vs sps) ->
    Forall2 (repr (below n0) h) vs items ->
    Forall (fun s => is_json s = true) items ->
    h !! la = Some (mkObj true tv []) -> length tv = i ->
    Forall2 (repr (grown n0 L0 (length h)) h) tv done ->
    match Spec.collect
            (map (fun si => Spec.project_tokens rest si false) (drop i items)) with
    | Ok more =>
        exists h' tv',
          forEach_from f ls i n h = Ok h'
          /\ length h <= length h'
          /\ (forall l, l < L0 -> l <> la -> h' !! l = h !! l)
          /\ h' !! la = Some (mkObj true tv' [])
          /\ Forall2 (repr (grown n0 L0 (length h')) h') tv' (done ++ more)
    | Err e => forEach_from f ls i n h = Err e
    end.
Proof.
  intros IH Hf n. induction n as [|n IHn];
    intros i h n0 ls L0 vs sps items tv done Hin Hls Hla HL0 HLh Hsrc Hvs Hjson
           Htgt Htv Hdone.
  - rewrite drop_ge by lia. cbn.
    exists h, tv. rewrite app_nil_r. repeat split; auto.
  - assert (Hi : i < length items) by lia.
    destruct (lookup_lt_is_Some_2 items i Hi) as [si Hsi].
    rewrite (drop_S _ _ _ Hsi). cbn [map Spec.collect].
    destruct (Forall2_lookup_r _ _ _ _ _ Hvs Hsi) as (v & Hv & Hvsi).
    assert (Hjsi : is_json si = true).
    { eapply (proj1 (List.Forall_forall _ _) Hjson), list_elem_of_In,
        list_elem_of_lookup_2, Hsi. }
    assert (Hvdef : v <> VUndef) by (eapply ReprFacts.repr_json_defined; eassumption).
    cbn [forEach_from]. rewrite (get_lookup _ _ _ Hsrc).
    rewrite (get_index_defined _ _ _ _ Hv Hvdef). rewrite (Hf i v h tv Htgt Htv).
    (* the round itself *)
    unfold each_fresh, Store.alloc, assign_index.
    set (li := length h). set (h2 := h ++ [empty_object]).
    assert (Hla2 : h2 !! la = Some (mkObj true tv [])).
    { unfold h2. rewrite lookup_alloc_old by lia. exact Htgt. }
    rewrite (get_lookup _ _ _ Hla2). cbn [bind].
    assert (Hput : Obj.set_index (mkObj true tv []) i (VRef li)
                   = mkObj true (tv ++ [VRef li]) []).
    { unfold Obj.set_index. cbn [is_array elems props].
      replace (i <? length tv) with false by (symmetry; apply Nat.ltb_ge; lia).
      now rewrite Htv, Nat.sub_diag. }
    rewrite Hput.
    set (h3 := Store.set la (mkObj true (tv ++ [VRef li]) []) h2).
    assert (Hlen3 : length h3 = S (length h)).
    { unfold h3, h2. rewrite length_set, length_app. cbn. lia. }
    assert (Hold3 : forall l, l < length h -> l <> la -> h3 !! l = h !! l).
    { intros l Hl Hne. unfold h3, h2. rewrite lookup_set_ne by lia.
      now apply lookup_alloc_old. }
    assert (Hla3 : h3 !! la = Some (mkObj true (tv ++ [VRef li]) [])).
    { unfold h3. apply lookup_set_eq. unfold h2. rewrite length_app. cbn. lia. }
    assert (Hli3 : h3 !! li = Some (FreshWalk.fresh_obj false)).
    { unfold h3, h2, li. rewrite lookup_set_ne by lia.
      apply list_lookup_middle. reflexivity. }
    assert (Hv3 : repr (below n0) h3 v si).
    { eapply ReprFacts.repr_frame; [|exact Hvsi].
      intros l Hl. unfold below in Hl. apply Hold3; lia. }
    specialize (IH h3 n0 v si li false Hv3 Hjsi ltac:(unfold li; lia) Hli3
                   ltac:(intros ?; discriminate)).
    destruct (Spec.project_tokens rest si false) as [c|e]; [|cbn; now rewrite IH].
    destruct IH as (h4 & Hrun & Hlen4 & Hframe4 & Hrepr4).
    rewrite Hrun. cbn [bind].
    (* the rounds after it *)
    assert (Hold4 : forall l, l < length h -> l <> la -> h4 !! l = h !! l).
    { intros l Hl Hne. rewrite Hframe4 by (unfold li; lia). now apply Hold3. }
    specialize (IHn (S i) h4 n0 ls L0 vs sps items (tv ++ [VRef li]) (done ++ [c])
                    ltac:(lia) Hls Hla HL0 ltac:(lia)).
    assert (Hsrc4 : h4 !! ls = Some (mkObj true vs sps)).
    { rewrite Hold4 by lia. exact Hsrc. }
    assert (Hvs4 : Forall2 (repr (below n0) h4) vs items).
    { eapply Forall2_impl; [exact Hvs|]. intros a b Hab.
      eapply ReprFacts.repr_frame; [|exact Hab].
      intros l Hl. unfold below in Hl. apply Hold4; lia. }
    assert (Htgt4 : h4 !! la = Some (mkObj true (tv ++ [VRef li]) [])).
    { rewrite Hframe4 by (unfold li; lia). exact Hla3. }
    assert (Hdone4 : Forall2 (repr (grown n0 L0 (length h4)) h4)
                       (tv ++ [VRef li]) (done ++ [c])).
    { apply Forall2_app.
      - eapply Forall2_impl; [exact Hdone|]. intros a b Hab.
        eapply ReprFacts.repr_move; [| |exact Hab].
        + unfold grown. intros l. lia.
        + unfold grown. intros l Hl. apply Hold4; lia.
      - repeat constructor.
        eapply ReprFacts.repr_weaken; [|exact Hrepr4].
        unfold built, grown, li. intros l. lia. }
    specialize (IHn Hsrc4 Hvs4 Hjson Htgt4
                    ltac:(rewrite length_app; cbn; lia) Hdone4).
    destruct (Spec.collect
                (map (fun si0 => Spec.project_tokens rest si0 false)
                     (drop (S i) items))) as [more|e]; [|exact IHn].
    destruct IHn as (h' & tv' & Hloop & Hlen' & Hframe' & Htgt' & Hrepr').
    exists h', tv'. cbn [bind]. rewrite <- app_assoc in Hrepr'. cbn in Hrepr'.
    repeat split; auto; [lia|].
    intros l Hl Hne. rewrite Hframe' by assumption. apply Hold4; lia.
Qed.

End WildcardLoop.

Module WalkAgrees.

Import JsonFieldFilter FreshWalk FreshWalkFacts StoreSteps.

(** On a target array without an element at [i] yet, the round of the
    merging loop is the round on a fresh array. *)
Lemma merge_round_fresh rest lt i v (h1 : heap) tv :
  h1 !! lt = Some (mkObj true tv []) -> length tv = i ->
  (let* ti := target_index h1 (VRef lt) i in
   let* h2 :=
     match ti with
     | VUndef =>
         let '(li, h') := Store.alloc empty_object h1 in
         assign_index h' (VRef lt) i (VRef li)
     | _ => Ok h1
     end in
   let* ti' := target_index h2 (VRef lt) i in
   buildStructureFromPath rest h2 v ti')
  = each_fresh lt rest i v h1.
Proof.
  intros Hl Htv. unfold target_index at 1. rewrite (get_lookup _ _ _ Hl).
  unfold Obj.get_index at 1. cbn [is_array elems].
  rewrite lookup_ge_None_2 by lia. cbn [Obj.read bind].
  unfold each_fresh, Store.alloc, assign_index.
  assert (Hl2 : (h1 ++ [empty_object]) !! lt = Some (mkObj true tv [])).
  { rewrite lookup_alloc_old by (eapply lookup_lt; eassumption). exact Hl. }
  rewrite (get_lookup _ _ _ Hl2). cbn [bind].
  unfold target_index. unfold Store.get at 1.
  rewrite lookup_set_eq
    by (rewrite length_app; cbn; apply lookup_lt in Hl; lia).
  unfold Obj.set_index, Obj.get_index. cbn [is_array elems props].
  replace (i <? length tv) with false by (symmetry; apply Nat.ltb_ge; lia).
  cbn [is_array elems].
  rewrite Htv, Nat.sub_diag. cbn [repeat app].
  rewrite lookup_app_r by lia. rewrite Htv, Nat.sub_diag. reflexivity.
Qed.

Lemma literal_is_no_access part :
  String.eqb part "*" = false -> isNaN (Number part) = true ->
  is_array_access part = false.
Proof. intros H1 H2. unfold is_array_access. now rewrite H1, H2. Qed.

(** The walk of one Spec from a fresh container agrees with the walk on
    trees, whatever the path. *)
Theorem walk_agrees (parts : list string) : agrees_with_spec parts.
Proof.
  induction parts as [|part rest IH];
    intros h n0 source s lt arr Hs Hj Hn Hlt Hfits.
  { cbn. now apply stays. }
  assert (Hltlen : lt < length h) by (eapply lookup_lt; eassumption).
  cbn [Spec.project_tokens buildStructureFromPath].
  destruct (String.eqb part "*") eqn:Estar.
  - (* Wildcard *)
    inversion Hs as [| | | | |l vs ps items extra HP Hl Hvs Hps
                     |l ps fields HP Hl Hps]; subst;
      try (now apply stays).
    + destruct (ReprFacts.is_json_items _ _ Hj) as [Hitems ->].
      rewrite (get_lookup _ _ _ Hl). cbn [is_array negb].
      unfold Store.isArray. rewrite (get_lookup _ _ _ Hlt).
      unfold forEach. 
      destruct arr; cbn [fresh_obj is_array empty_array empty_object negb].
      * (* the target is the array made for the Wildcard *)
        rewrite (get_lookup _ _ _ Hl). cbn [elems].
        rewrite (Forall2_length _ _ _ Hvs).
        pose proof (WildcardLoop.rounds rest _ lt IH
                      (fun i v h1 tv H1 H2 => merge_round_fresh rest lt i v h1 tv H1 H2)
                      (length items) 0 h n0 l (length h) vs ps items [] []
                      ltac:(lia) HP Hn Hltlen ltac:(lia) Hl Hvs Hitems Hlt
                      eq_refl ltac:(constructor)) as Hloop.
        rewrite drop_0 in Hloop.
        destruct (Spec.collect _) as [more|e]; [|exact Hloop].
        destruct Hloop as (h' & tv' & Hrun & Hlen & Hframe & Htgt & Hrepr).
        cbn [bind]. exists h'. repeat split; auto.
        eapply repr_arr; [right; left; reflexivity | exact Htgt | | constructor].
        eapply Forall2_impl; [exact Hrepr|]. intros a b Hab.
        eapply ReprFacts.repr_weaken; [|exact Hab].
        unfold grown, built. intros x. lia.
      * (* the target is an object: the new array is filled, then
           [target.push] fails *)
        unfold Store.alloc.
        assert (Hl0 : (h ++ [empty_array]) !! l = Some (mkObj true vs ps)).
        { rewrite lookup_alloc_old by (eapply lookup_lt; eassumption). exact Hl. }
        rewrite (get_lookup _ _ _ Hl0). cbn [elems].
        rewrite (Forall2_length _ _ _ Hvs).
        assert (Hvs0 : Forall2 (repr (below n0) (h ++ [empty_array])) vs items).
        { eapply Forall2_impl; [exact Hvs|]. intros a b Hab.
          eapply ReprFacts.repr_frame; [|exact Hab].
          intros x Hx. unfold below in Hx. apply lookup_alloc_old. lia. }
        pose proof (WildcardLoop.rounds rest (each_fresh (length h) rest) (length h) IH
                      (fun i v h1 tv _ _ => eq_refl)
                      (length items) 0 (h ++ [empty_array]) n0 l
                      (length (h ++ [empty_array])) vs ps items [] []
                      ltac:(lia) HP ltac:(lia)
                      ltac:(rewrite length_app; cbn; lia) ltac:(lia) Hl0 Hvs0 Hitems
                      ltac:(apply list_lookup_middle; reflexivity)
                      eq_refl ltac:(constructor)) as Hloop.
        rewrite drop_0 in Hloop.
        match goal with |- context [forEach_from ?f ?a ?b ?c ?d] =>
          change (forEach_from f a b c d)
            with (forEach_from (each_fresh (length h) rest) a b c d) end.
        destruct (Spec.collect _) as [more|e].
        -- destruct Hloop as (h' & tv' & Hrun & _). cbn [bind].
           now rewrite Hrun.
        -- cbn [bind]. now rewrite Hloop.
    + rewrite (get_lookup _ _ _ Hl). cbn [is_array negb]. now apply stays.
  - destruct (isNaN (Number part)) eqn:Enum; cbn [negb].
    + (* Literal *)
      assert (Harr : arr = false).
      { destruct arr; [|reflexivity]. specialize (Hfits eq_refl). cbn in Hfits.
        now rewrite (literal_is_no_access part Estar Enum) in Hfits. }
      subst arr.
      inversion Hs as [| | | | |l vs ps items extra HP Hl Hvs Hps
                       |l ps fields HP Hl Hps]; subst;
        try (now apply stays).
      all: pose proof (ReprFacts.repr_named _ _ _ _ part Hs) as Hnamed.
      all: destruct (Obj.get_named (Store.get h l) part) as [v|];
             destruct (Spec.named _ part) as [sv|] eqn:Esv;
             try contradiction; [|now apply stays].
      all: pose proof (ReprFacts.is_json_named _ _ _ Hj Esv) as Hjsv.
      all: destruct rest as [|next rest'].
      all: try (rewrite (assign_named_fresh _ _ _ _ Hlt);
                apply (store_leaf n0 h lt _ v sv); auto;
                intros; eapply repr_one_named; eassumption).
      all: rewrite (target_named_fresh _ _ _ Hlt); cbn [bind truthy negb hd].
      all: unfold Store.alloc.
      all: change (if is_array_access next then empty_array else empty_object)
             with (fresh_obj (is_array_access next)).
      all: rewrite (assign_named_fresh _ lt part (VRef (length h)))
             by (rewrite lookup_alloc_old by assumption; exact Hlt).
      all: cbn [bind].
      all: rewrite (target_named_one _ lt part (VRef (length h)))
             by (apply lookup_set_eq; rewrite length_app; cbn; lia).
      all: cbn [bind].
      all: pose proof (store_child n0 h lt (mkObj false [] [(part, VRef (length h))])
                         (is_array_access next) (next :: rest') v sv
                         (Spec.put_named part) IH Hn Hltlen Hnamed Hjsv
                         ltac:(intros E; exact E)
                         ltac:(intros; eapply repr_one_named; eassumption)) as Hchild.
      all: cbn zeta in Hchild.
      all: destruct (Spec.project_tokens (next :: rest') sv (is_array_access next))
             as [c|e]; cbn [bind]; exact Hchild.
    + (* Index *)
      inversion Hs as [| | | | |l vs ps items extra HP Hl Hvs Hps
                       |l ps fields HP Hl Hps]; subst;
        try (now apply stays).
      * rewrite (get_lookup _ _ _ Hl). cbn [is_array negb elems].
        destruct (ReprFacts.is_json_items _ _ Hj) as [Hitems ->].
        destruct (to_index (Number part)) as [n| |]; [|now apply stays|reflexivity].
        rewrite (Forall2_length _ _ _ Hvs).
        destruct (n <? N.of_nat (length items))%N eqn:Hin; [|now apply stays].
        apply N.ltb_lt in Hin.
        assert (Hi : N.to_nat n < length items) by lia.
        pose proof (read_item _ _ _ ps _ _ Hvs Hi) as Hitem.
        pose proof (nth_json _ _ Hitems Hi) as Hjitem.
        set (item := Obj.read (Obj.get_index (mkObj true vs ps) (N.to_nat n))) in *.
        destruct rest as [|next rest'].
        -- rewrite (assign_index_fresh _ _ _ _ _ Hlt).
           apply (store_leaf n0 h lt (one_index arr (N.to_nat n) item) item
                    (nth (N.to_nat n) items TUndef)); auto.
           intros; eapply repr_one_index; eassumption.
        -- rewrite (target_index_fresh _ _ _ _ Hlt). cbn [bind truthy negb].
           unfold Store.alloc.
           rewrite (assign_index_fresh _ lt arr (N.to_nat n) (VRef (length h)))
             by (rewrite lookup_alloc_old by assumption; exact Hlt).
           cbn [bind].
           rewrite (target_index_one _ lt arr (N.to_nat n) (length h))
             by (apply lookup_set_eq; rewrite length_app; cbn; lia).
           cbn [bind].
           pose proof (store_child n0 h lt (one_index arr (N.to_nat n) (VRef (length h)))
                         false (next :: rest') _ _
                         (Spec.put_index arr (N.to_nat n)) IH Hn Hltlen Hitem Hjitem
                         ltac:(intros E; discriminate E)
                         ltac:(intros; eapply repr_one_index; eassumption)) as Hchild.
           cbn zeta in Hchild.
           destruct (Spec.project_tokens (next :: rest') _ false)
             as [c|e]; cbn [bind]; exact Hchild.
      * rewrite (get_lookup _ _ _ Hl). cbn [is_array negb]. now apply stays.
Qed.

End WalkAgrees.

(** ** The Wildcard on a fresh target array *)

Module WildcardFacts.

Lemma collect_all (f : tree -> result tree) items elems :
  Forall2 (fun s e => f s = Ok e) items elems ->
  Spec.collect (map f items) = Ok elems.
Proof.
  induction 1 as [|s e items elems Hs _ IH]; cbn; [reflexivity|].
  now rewrite Hs, IH.
Qed.

End WildcardFacts.



(** ** A Spec that ends at an out-of-bounds index *)

Module DeadEnd.

Import JsonFieldFilter FreshWalk FreshWalkFacts StoreSteps.

Lemma number_is_no_star idx : isNaN (Number idx) = false -> String.eqb idx "*" = false.
Proof.
  intros H. destruct (String.eqb_spec idx "*") as [->|]; [|reflexivity].
  now rewrite NumericParts.star_is_no_number in H.
Qed.

(** The walk along names of the source down to an array that is too
    short for the index: it creates one container per name and stops. *)
Lemma chain_built names : forall (h : heap) n0 source s lt arr idx rest items extra n,
  Forall literal names ->
  repr (below n0) h source s ->
  n0 <= lt ->
  h !! lt = Some (fresh_obj arr) ->
  Spec.fits (names ++ idx :: rest) arr ->
  reach s names = Some (TArr items extra) ->
  isNaN (Number idx) = false ->
  to_index (Number idx) = AtIndex n ->
  (N.of_nat (length items) <= n)%N ->
  exists h' last,
    buildStructureFromPath (names ++ idx :: rest) h source (VRef lt) = Ok h'
    /\ length h <= length h'
    /\ (forall l, l < length h -> l <> lt -> h' !! l = h !! l)
    /\ chain_at h' lt names last
    /\ (names = [] -> last = arr).
Proof.
  induction names as [|k ks IH];
    intros h n0 source s lt arr idx rest items extra n
           Hlit Hs Hn Hlt Hfits Hreach Hnum Hidx Hoob.
  - cbn in Hreach. injection Hreach as ->.
    cbn [app buildStructureFromPath].
    rewrite (number_is_no_star idx Hnum), Hnum. cbn [negb].
    inversion Hs as [| | | | |l vs ps ? ? HP Hl Hvs Hps|]; subst.
    rewrite (get_lookup _ _ _ Hl). cbn [is_array negb elems]. rewrite Hidx.
    rewrite (Forall2_length _ _ _ Hvs).
    replace (n <? N.of_nat (length items))%N with false
      by (symmetry; apply N.ltb_ge; lia).
    exists h, arr. repeat split; auto.
  - inversion Hlit as [|? ? [Hstar Hnan] Hlit']; subst.
    cbn [reach] in Hreach.
    destruct (Spec.named s k) as [sv|] eqn:Esv; [|discriminate].
    assert (Harr : arr = false).
    { destruct arr; [|reflexivity]. specialize (Hfits eq_refl). cbn in Hfits.
      now rewrite (WalkAgrees.literal_is_no_access k Hstar Hnan) in Hfits. }
    subst arr.
    assert (Hltlen : lt < length h) by (eapply lookup_lt; eassumption).
    assert (Hsrc : exists l, source = VRef l).
    { inversion Hs; subst; try discriminate Esv; eauto. }
    destruct Hsrc as [l ->].
    pose proof (ReprFacts.repr_named _ _ _ _ k Hs) as Hnamed.
    rewrite Esv in Hnamed.
    destruct (Obj.get_named (Store.get h l) k) as [v|] eqn:Ev; [|contradiction].
    change ((k :: ks) ++ idx :: rest) with (k :: (ks ++ idx :: rest)).
    cbn [buildStructureFromPath]. rewrite Hstar, Hnan, Ev. cbn [negb].
    destruct (ks ++ idx :: rest) as [|next rest'] eqn:Erest;
      [now destruct ks|].
    rewrite (target_named_fresh _ _ _ Hlt). cbn [bind truthy negb hd].
    unfold Store.alloc.
    change (if is_array_access next then empty_array else empty_object)
      with (fresh_obj (is_array_access next)).
    rewrite (assign_named_fresh _ lt k (VRef (length h)))
      by (rewrite lookup_alloc_old by assumption; exact Hlt).
    cbn [bind].
    rewrite (target_named_one _ lt k (VRef (length h)))
      by (apply lookup_set_eq; rewrite length_app; cbn; lia).
    cbn [bind].
    set (h2 := Store.set lt (mkObj false [] [(k, VRef (length h))])
                         (h ++ [fresh_obj (is_array_access next)])).
    assert (Hlen2 : length h2 = S (length h)).
    { unfold h2. rewrite length_set, length_app. cbn. lia. }
    assert (Hold : forall x, x < length h -> x <> lt -> h2 !! x = h !! x).
    { intros x Hx Hne. unfold h2. rewrite lookup_set_ne by lia.
      now apply lookup_alloc_old. }
    assert (Hv2 : repr (below n0) h2 v sv).
    { eapply ReprFacts.repr_frame; [|exact Hnamed].
      intros x Hx. unfold below in Hx. apply Hold; lia. }
    assert (Hc2 : h2 !! length h = Some (fresh_obj (is_array_access next))).
    { unfold h2. rewrite lookup_set_ne by lia. apply list_lookup_middle. reflexivity. }
    rewrite <- Erest.
    destruct (IH h2 n0 v sv (length h) (is_array_access next) idx rest items extra n
                 Hlit' Hv2 ltac:(lia) Hc2
                 ltac:(rewrite Erest; intros E; exact E)
                 Hreach Hnum Hidx Hoob)
      as (h' & last & Hrun & Hlen & Hframe & Hchain & _).
    exists h', last. split; [exact Hrun|]. split; [lia|]. split; [|split].
    + intros x Hx Hne. rewrite Hframe by lia. now apply Hold.
    + cbn [chain_at]. exists (length h). split; [lia|]. split; [|exact Hchain].
      rewrite Hframe by lia. unfold h2. apply lookup_set_eq.
      rewrite length_app. cbn. lia.
    + discriminate.
Qed.


(** The locations of a chain lie in the store, one after the other. *)
Lemma chain_in_store ks : forall (h : heap) l last,
  chain_at h l ks last -> l + length ks < length h.
Proof.
  induction ks as [|k ks IH]; intros h l last H; cbn in *.
  - apply lookup_lt in H. lia.
  - destruct H as (l' & Hl & _ & Hc). apply IH in Hc. lia.
Qed.

(** Pruning collapses a chain: its head is left without property, and
    nothing before the head is touched. *)
Lemma cleanup_chain ks : forall (h : heap) l last fuel,
  chain_at h l ks last ->
  length ks < fuel ->
  exists h',
    cleanupEmptyStructures fuel h (VRef l) = Ok h'
    /\ length h' = length h
    /\ (forall x, x < l -> h' !! x = h !! x)
    /\ h' !! l = Some (match ks with [] => fresh_obj last | _ => empty_object end).
Proof.
  induction ks as [|k ks IH]; intros h l last fuel Hchain Hfuel;
    (destruct fuel as [|fuel]; [lia|]); cbn [chain_at] in Hchain.
  - cbn [cleanupEmptyStructures]. rewrite (get_lookup _ _ _ Hchain).
    exists h. destruct last; cbn; auto.
  - destruct Hchain as (l' & Hll' & Hl & Hchain).
    cbn [cleanupEmptyStructures length] in *.
    rewrite (get_lookup _ _ _ Hl).
    cbn [Obj.keys elems props Obj.index_keys map app rev fold_left bind fst].
    rewrite (get_lookup _ _ _ Hl).
    unfold Obj.get_key, Obj.get_named. cbn [is_array andb props Props.assoc].
    rewrite String.eqb_refl. cbn [Obj.read].
    assert (Hdel : Obj.delete_key (mkObj false [] [(k, VRef l')]) (KName k)
                   = empty_object).
    { unfold Obj.delete_key. cbn. now rewrite String.eqb_refl. }
    assert (Hllen : l < length h) by (eapply lookup_lt; eassumption).
    destruct (IH h l' last fuel Hchain ltac:(lia))
      as (h1 & Hrun & Hlen1 & Hframe1 & Hhead1).
    assert (Hl1 : h1 !! l = Some (mkObj false [] [(k, VRef l')])).
    { rewrite Hframe1 by lia. exact Hl. }
    destruct ks as [|k2 ks'].
    + (* the last container of the chain *)
      cbn [chain_at] in Hchain. rewrite (get_lookup _ _ _ Hchain).
      destruct last; cbn [fresh_obj empty_array empty_object is_array elems length
                          Nat.eqb].
      * eexists. split; [reflexivity|].
        rewrite length_set. split; [reflexivity|]. split.
        -- intros x Hx. apply lookup_set_ne. lia.
        -- etransitivity; [now apply lookup_set_eq|]. f_equal. exact Hdel.
      * rewrite Hrun. cbn [bind]. unfold no_keys.
        rewrite (get_lookup _ _ _ Hhead1). cbn.
        rewrite (get_lookup _ _ _ Hl1).
        eexists. split; [reflexivity|].
        rewrite length_set. split; [exact Hlen1|]. split.
        -- intros x Hx. rewrite lookup_set_ne by lia. apply Hframe1. lia.
        -- etransitivity; [apply lookup_set_eq; lia|]. f_equal. exact Hdel.
    + cbn [chain_at] in Hchain. destruct Hchain as (l2 & _ & Hl' & _).
      rewrite (get_lookup _ _ _ Hl'). cbn [is_array].
      rewrite Hrun. cbn [bind]. unfold no_keys.
      rewrite (get_lookup _ _ _ Hhead1). cbn.
      rewrite (get_lookup _ _ _ Hl1).
      eexists. split; [reflexivity|].
      rewrite length_set. split; [exact Hlen1|]. split.
      * intros x Hx. rewrite lookup_set_ne by lia. apply Hframe1. lia.
      * etransitivity; [apply lookup_set_eq; lia|]. f_equal. exact Hdel.
Qed.

(** A projection with one Spec that ends at an out-of-bounds index. *)
Lemma transform_dead_end spec names idx rest (h : heap) n0 ls s items extra n :
  parsePath spec = names ++ idx :: rest ->
  Forall literal names ->
  repr (below n0) h (VRef ls) s ->
  n0 <= length h ->
  reach s names = Some (TArr items extra) ->
  to_index (Number idx) = AtIndex n ->
  (N.of_nat (length items) <= n)%N ->
  exists h',
    _transform [spec] None h (VRef ls) = Ok (h', VRef (length h))
    /\ h' !! length h = Some empty_object
    /\ (forall l, l < length h -> h' !! l = h !! l).
Proof.
  intros Hparse Hlit Hs Hn Hreach Hidx Hoob.
  assert (Hnum : isNaN (Number idx) = false).
  { destruct (Number idx); [discriminate Hidx | reflexivity | reflexivity]. }
  unfold _transform, Store.alloc, applySpecs, extractField.
  cbn [fold_left bind]. rewrite Hparse.
  assert (Hs0 : repr (below n0) (h ++ [empty_object]) (VRef ls) s).
  { eapply ReprFacts.repr_frame; [|exact Hs].
    intros x Hx. unfold below in Hx. apply lookup_alloc_old. lia. }
  assert (Hlt : (h ++ [empty_object]) !! length h = Some (fresh_obj false))
    by (apply list_lookup_middle; reflexivity).
  destruct (chain_built names (h ++ [empty_object]) n0 (VRef ls) s (length h)
              false idx rest items extra n Hlit Hs0 Hn Hlt
              ltac:(intros E; discriminate E) Hreach Hnum Hidx Hoob)
    as (h1 & last & Hrun & Hlen & Hframe & Hchain & Hlast).
  rewrite Hrun. cbn [bind].
  pose proof (chain_in_store _ _ _ _ Hchain) as Hin.
  destruct (cleanup_chain names h1 (length h) last (S (length h1)) Hchain ltac:(lia))
    as (h' & Hclean & Hlen' & Hframe' & Hhead).
  rewrite Hclean. cbn [bind].
  exists h'. split; [reflexivity|]. split.
  - destruct names; [rewrite (Hlast eq_refl) in Hhead|]; exact Hhead.
  - intros l Hl.
    etransitivity; [apply Hframe'; lia|].
    etransitivity; [apply Hframe; rewrite ?length_app; cbn; lia|].
    now apply lookup_alloc_old.
Qed.

End DeadEnd.



(** ** [parsePath]: the tokens of a field path *)

Module PathFacts.

Import JsString JsonFieldFilter.

Lemma of_chars_chars (s : string) : of_chars (chars s) = s.
Proof. apply string_of_list_ascii_of_string. Qed.

Lemma lacks_append c (a b : string) :
  lacks c (a +:+ b) <-> lacks c a /\ lacks c b.
Proof.
  unfold lacks. rewrite chars_app, in_app_iff. tauto.
Qed.

Lemma lacks_cons c d (s : string) :
  lacks c (String d s) <-> d <> c /\ lacks c s.
Proof. unfold lacks. cbn. tauto. Qed.

Lemma split_chars_app sep (a b : list ascii) : forall cur,
  split_chars sep cur (a ++ sep :: b)
  = split_chars sep cur a ++ split_chars sep [] b.
Proof.
  induction a as [|c a IH]; intros cur; cbn.
  - now rewrite Ascii.eqb_refl.
  - destruct (Ascii.eqb c sep); [now rewrite IH | apply IH].
Qed.

Lemma split_chars_none sep (l : list ascii) : forall cur,
  ~ In sep l -> split_chars sep cur l = [rev cur ++ l].
Proof.
  induction l as [|c l IH]; intros cur H; cbn.
  - now rewrite app_nil_r.
  - destruct (Ascii.eqb_spec c sep) as [->|_]; [exfalso; apply H; now left|].
    rewrite IH by (intros Hin; apply H; now right).
    cbn. now rewrite <- app_assoc.
Qed.

Lemma split_append sep (p q : string) :
  split sep (p +:+ String sep q) = split sep p ++ split sep q.
Proof.
  unfold split. rewrite chars_app.
  change (chars (String sep q)) with (sep :: chars q).
  now rewrite split_chars_app, map_app.
Qed.

Lemma split_none sep (s : string) : lacks sep s -> split sep s = [s].
Proof.
  intros H. unfold split. rewrite split_chars_none by exact H.
  cbn. now rewrite of_chars_chars.
Qed.

(** Where a pattern is first found in a text that starts with characters
    other than the first of the pattern. *)
Lemma index_lacks a (needle base rest : string) :
  lacks a base ->
  String.index 0 (String a needle) (base +:+ rest)
  = option_map (Nat.add (String.length base))
               (String.index 0 (String a needle) rest).
Proof.
  induction base as [|c base IH]; intros H.
  - cbn [String.append String.length]. now destruct (String.index _ _ _).
  - apply lacks_cons in H. destruct H as [Hc H].
    change (String c base +:+ rest) with (String c (base +:+ rest)).
    cbn [String.index String.prefix].
    destruct (ascii_dec a c) as [->|_]; [contradiction|].
    rewrite (IH H). now destruct (String.index 0 (String a needle) rest).
Qed.

Lemma index_none a (needle s : string) :
  lacks a s -> String.index 0 (String a needle) s = None.
Proof.
  induction s as [|c s IH]; intros H; [reflexivity|].
  apply lacks_cons in H. destruct H as [Hc H].
  cbn [String.index String.prefix].
  destruct (ascii_dec a c) as [->|_]; [contradiction|].
  now rewrite (IH H).
Qed.

Lemma includes_none a (needle s : string) :
  lacks a s -> includes (String a needle) s = false.
Proof. intros H. unfold includes, indexOf. now rewrite index_none. Qed.

Lemma substring_past (g t : string) : forall k m,
  String.substring (String.length g + k) m (g +:+ t) = String.substring k m t.
Proof. induction g as [|c g IH]; intros k m; simpl; [reflexivity | apply IH]. Qed.

Lemma prefix_empty (s : string) : String.prefix EmptyString s = true.
Proof. now destruct s. Qed.

Lemma index_marker (junk : string) :
  String.index 0 "[*]" ("[*]" +:+ junk) = Some 0.
Proof. destruct junk; reflexivity. Qed.

(** A segment without bracket is one token. *)
Lemma parseSegment_plain (s : string) :
  lacks "["%char s -> parseSegment s = [s].
Proof.
  intros H. unfold parseSegment.
  rewrite (includes_none "[" "*]" s H).
  now rewrite (includes_none "[" EmptyString s H).
Qed.

(** A segment with the marker: the marker is taken out, once, and what
    is left of the segment is the name. *)
Lemma parseSegment_wildcard (base junk : string) :
  lacks "["%char base ->
  parseSegment (base +:+ "[*]" +:+ junk)
  = (if String.eqb (base +:+ junk) EmptyString then [] else [base +:+ junk])
      ++ ["*"].
Proof.
  intros H. unfold parseSegment, includes, replace, indexOf.
  rewrite (index_lacks "[" "*]" base ("[*]" +:+ junk) H).
  change (String "[" "*]") with "[*]". rewrite index_marker.
  cbn [option_map]. rewrite Nat.add_0_r.
  rewrite ConstructorFacts.substring_append_l.
  change (String.length "[*]") with 3.
  rewrite substring_past, ConstructorFacts.length_append.
  change (String.length ("[*]" +:+ junk)) with (3 + String.length junk).
  replace (String.length base + (3 + String.length junk) - (String.length base + 3))
    with (String.length junk) by lia.
  change (String.substring 3 (String.length junk) ("[*]" +:+ junk))
    with (String.substring 0 (String.length junk) junk).
  rewrite ConstructorFacts.substring_all.
  change (EmptyString +:+ junk) with junk.
  reflexivity.
Qed.

Lemma append_assoc (a b c : string) : (a +:+ b) +:+ c = a +:+ (b +:+ c).
Proof.
  induction a as [|x a IH]; [reflexivity|].
  change (String x ((a +:+ b) +:+ c) = String x (a +:+ (b +:+ c))).
  now rewrite IH.
Qed.

Lemma index_head a (rest : string) :
  String.index 0 (String a EmptyString) (String a rest) = Some 0.
Proof.
  cbn [String.index String.prefix].
  destruct (ascii_dec a a) as [_|Hne]; [|contradiction].
  now rewrite prefix_empty.
Qed.

(** No marker in a segment whose bracket holds something else than the
    star. *)
Lemma index_no_marker (idx junk : string) :
  lacks "["%char idx -> lacks "]"%char idx -> idx <> "*" ->
  lacks "["%char junk ->
  String.index 0 "[*]" (String "[" (idx +:+ String "]" junk)) = None.
Proof.
  intros Hopen Hclose Hstar Hjunk.
  assert (Hrest : lacks "["%char (idx +:+ String "]" junk)).
  { apply lacks_append. split; [exact Hopen|].
    apply lacks_cons. split; [discriminate | exact Hjunk]. }
  assert (Hpre : String.prefix "*]" (idx +:+ String "]" junk) = false).
  { destruct idx as [|c i]; [reflexivity|].
    change (String c i +:+ String "]" junk) with (String c (i +:+ String "]" junk)).
    cbn [String.prefix].
    destruct (ascii_dec "*" c) as [<-|_]; [|reflexivity].
    destruct i as [|d i]; [congruence|].
    change (String d i +:+ String "]" junk) with (String d (i +:+ String "]" junk)).
    cbn [String.prefix].
    destruct (ascii_dec "]" d) as [<-|_]; [|reflexivity].
    exfalso. apply Hclose. right. now left. }
  cbn [String.index String.prefix].
  destruct (ascii_dec "[" "[") as [_|Hne]; [|contradiction].
  change (String "*" "]") with "*]". rewrite Hpre.
  now rewrite (index_none "[" "*]" _ Hrest).
Qed.

(** A segment with a bracket that is not the marker: the name before the
    bracket and the text inside it; what follows the closing bracket is
    dropped. *)
Lemma parseSegment_index (base idx junk : string) :
  lacks "["%char base -> lacks "]"%char base ->
  lacks "["%char idx -> lacks "]"%char idx -> idx <> "*" ->
  lacks "["%char junk ->
  parseSegment (base +:+ String "[" (idx +:+ String "]" junk))
  = (if String.eqb base EmptyString then [] else [base]) ++ [idx].
Proof.
  intros Hb1 Hb2 Hi1 Hi2 Hstar Hj.
  unfold parseSegment, includes, indexOf.
  rewrite (index_lacks "[" "*]" base _ Hb1).
  change (String "[" "*]") with "[*]".
  rewrite (index_no_marker idx junk Hi1 Hi2 Hstar Hj). cbn [option_map].
  rewrite (index_lacks "[" EmptyString base _ Hb1), index_head.
  cbn [option_map andb]. rewrite Nat.add_0_r.
  assert (Hclose : String.index 0 "]" (base +:+ String "[" (idx +:+ String "]" junk))
                   = Some (String.length base + S (String.length idx))).
  { assert (Hfront : lacks "]"%char (base +:+ String "[" idx)).
    { apply lacks_append. split; [exact Hb2|].
      apply lacks_cons. split; [discriminate | exact Hi2]. }
    replace (base +:+ String "[" (idx +:+ String "]" junk))
      with ((base +:+ String "[" idx) +:+ String "]" junk)
      by (now rewrite append_assoc).
    rewrite (index_lacks "]" EmptyString _ _ Hfront), index_head.
    cbn [option_map]. rewrite ConstructorFacts.length_append. cbn [String.length].
    f_equal. lia. }
  rewrite Hclose.
  unfold substring.
  rewrite Nat.min_l, Nat.max_r by lia.
  rewrite Nat.min_l, Nat.max_r by lia.
  rewrite Nat.sub_0_r, ConstructorFacts.substring_append_l.
  replace (String.length base + S (String.length idx) - (String.length base + 1))
    with (String.length idx) by lia.
  rewrite substring_past.
  change (String.substring 1 (String.length idx) (String "[" (idx +:+ String "]" junk)))
    with (String.substring 0 (String.length idx) (idx +:+ String "]" junk)).
  now rewrite ConstructorFacts.substring_append_l.
Qed.

(** The pieces of a split hold no other character than the text. *)
Lemma split_chars_lacks c sep (l : list ascii) : forall cur,
  ~ In c cur -> ~ In c l ->
  Forall (fun piece => ~ In c piece) (split_chars sep cur l).
Proof.
  induction l as [|d l IH]; intros cur Hcur Hl; cbn.
  - constructor; [|constructor]. now rewrite <- in_rev.
  - assert (Hd : d <> c) by (intros ->; apply Hl; now left).
    assert (Hl' : ~ In c l) by (intros Hin; apply Hl; now right).
    destruct (Ascii.eqb d sep).
    + constructor; [now rewrite <- in_rev|]. apply IH; [intros [] | exact Hl'].
    + apply IH; [|exact Hl']. intros [->|Hin]; [congruence | now apply Hcur].
Qed.

Lemma chars_of_chars (l : list ascii) : chars (of_chars l) = l.
Proof. apply list_ascii_of_string_of_list_ascii. Qed.

Lemma split_lacks c sep (s : string) :
  lacks c s -> Forall (lacks c) (split sep s).
Proof.
  intros H. unfold split. apply List.Forall_map.
  eapply List.Forall_impl; [|apply (split_chars_lacks c sep (chars s) []); [intros []|exact H]].
  intros piece Hp. unfold lacks. now rewrite chars_of_chars.
Qed.

Lemma parse_plain_segments (segments : list string) :
  Forall (lacks "["%char) segments ->
  concat (map parseSegment segments) = segments.
Proof.
  induction 1 as [|seg segments Hseg _ IH]; cbn; [reflexivity|].
  now rewrite (parseSegment_plain seg Hseg), IH.
Qed.

End PathFacts.

(** X1.  [parsePath] works segment by segment: the tokens of [p.q] are
    the tokens of [p] followed by the tokens of [q]. *)
Theorem parsePath_dot (p q : string) :
  JsonFieldFilter.parsePath (p +:+ "." +:+ q)
  = JsonFieldFilter.parsePath p ++ JsonFieldFilter.parsePath q.
Proof.
  unfold JsonFieldFilter.parsePath.
  change ("." +:+ q) with (String "." q).
  now rewrite PathFacts.split_append, map_app, concat_app.
Qed.

(** X2.  A path without bracket is cut at its dots and nowhere else:
    every piece between two dots is one token, an empty piece too. *)
Theorem parsePath_without_bracket (path : string) :
  lacks "["%char path ->
  JsonFieldFilter.parsePath path = JsString.split "." path.
Proof.
  intros H. unfold JsonFieldFilter.parsePath.
  apply PathFacts.parse_plain_segments. now apply PathFacts.split_lacks.
Qed.

Lemma parsePath_without_bracket_witness :
  JsonFieldFilter.parsePath "personBasic.names.firstName"
  = JsString.split "." "personBasic.names.firstName".
Proof.
  apply parsePath_without_bracket.
  unfold lacks. vm_compute. intuition discriminate.
Defined.

(** X3.  In a segment [base[*]junk] only the first marker is the
    Wildcard: it is taken out, the rest of the segment glued together is
    the name before the Wildcard token, and there is no name token when
    nothing is left. *)
Theorem parsePath_wildcard_segment (base junk : string) :
  lacks "."%char base -> lacks "["%char base -> lacks "."%char junk ->
  JsonFieldFilter.parsePath (base +:+ "[*]" +:+ junk)
  = (if String.eqb (base +:+ junk) EmptyString then [] else [base +:+ junk])
      ++ ["*"].
Proof.
  intros Hdot Hopen Hjunk. unfold JsonFieldFilter.parsePath.
  rewrite PathFacts.split_none.
  - cbn [map concat]. rewrite app_nil_r.
    now apply PathFacts.parseSegment_wildcard.
  - apply PathFacts.lacks_append. split; [exact Hdot|].
    apply PathFacts.lacks_append. split; [|exact Hjunk].
    unfold lacks. vm_compute. intuition discriminate.
Qed.

Lemma parsePath_wildcard_segment_witness :
  JsonFieldFilter.parsePath ("names" +:+ "[*]" +:+ EmptyString) = ["names"; "*"]
  /\ JsonFieldFilter.parsePath ("a" +:+ "[*]" +:+ "[*]") = ["a[*]"; "*"].
Proof.
  split.
  - apply (parsePath_wildcard_segment "names" EmptyString);
      unfold lacks; vm_compute; intuition discriminate.
  - apply (parsePath_wildcard_segment "a" "[*]");
      unfold lacks; vm_compute; intuition discriminate.
Defined.

(** X4.  A segment [base[idx]junk] whose bracket does not hold the star
    gives the name [base] (no token when it is empty) and the text
    [idx] between the brackets, whatever it is; what follows the closing
    bracket is dropped. *)
Theorem parsePath_index_segment (base idx junk : string) :
  lacks "."%char base -> lacks "["%char base -> lacks "]"%char base ->
  lacks "."%char idx -> lacks "["%char idx -> lacks "]"%char idx ->
  idx <> "*" ->
  lacks "."%char junk -> lacks "["%char junk ->
  JsonFieldFilter.parsePath (base +:+ "[" +:+ idx +:+ "]" +:+ junk)
  = (if String.eqb base EmptyString then [] else [base]) ++ [idx].
Proof.
  intros Hb0 Hb1 Hb2 Hi0 Hi1 Hi2 Hstar Hj0 Hj1.
  unfold JsonFieldFilter.parsePath.
  change (base +:+ "[" +:+ idx +:+ "]" +:+ junk)
    with (base +:+ String "[" (idx +:+ String "]" junk)).
  rewrite PathFacts.split_none.
  - cbn [map concat]. rewrite app_nil_r.
    now apply PathFacts.parseSegment_index.
  - apply PathFacts.lacks_append. split; [exact Hb0|].
    apply PathFacts.lacks_cons. split; [discriminate|].
    apply PathFacts.lacks_append. split; [exact Hi0|].
    apply PathFacts.lacks_cons. split; [discriminate | exact Hj0].
Qed.

Lemma parsePath_index_segment_witness :
  JsonFieldFilter.parsePath ("positions" +:+ "[" +:+ "0" +:+ "]" +:+ "x")
  = ["positions"; "0"].
Proof.
  apply (parsePath_index_segment "positions" "0" "x");
    unfold lacks; vm_compute; intuition discriminate.
Defined.

(** ** The constructor of the parser, on every path *)

(** X5.  [new JsonParser({extractPath})] succeeds exactly on a path made
    of a non-empty prefix free of line terminators followed by the
    marker: the parser then starts with nothing pushed and a pipeline
    that picks that prefix; on every other path the constructor throws
    the configuration error. *)
Theorem new_accepts_marked_paths (extractPath : string) :
  (forall g,
      extractPath = g +:+ "[*]" -> g <> EmptyString ->
      ConstructorFacts.no_line_terminator g ->
      JsonParser.new extractPath
      = Ok (JsonParser.mkState (StreamJson.Pipeline.initial (Some g)) [] false None))
  /\ ((forall g, extractPath = g +:+ "[*]" -> g <> EmptyString ->
                 ~ ConstructorFacts.no_line_terminator g) ->
      JsonParser.new extractPath = Err ConfigurationError).
Proof.
  split.
  - intros g Hp Hne Hlt.
    assert (Hm : JsonParser.pathMatch extractPath = Some g)
      by (apply ConstructorFacts.pathMatch_spec; auto).
    unfold JsonParser.new. rewrite Hm.
    destruct (String.eqb_spec g EmptyString) as [|_]; [contradiction | reflexivity].
  - intros Hnone. unfold JsonParser.new.
    destruct (JsonParser.pathMatch extractPath) as [g|] eqn:Hm; [|reflexivity].
    apply ConstructorFacts.pathMatch_spec in Hm. destruct Hm as (Hp & Hne & Hlt).
    exfalso. exact (Hnone g Hp Hne Hlt).
Qed.

Lemma new_accepts_marked_paths_witness :
  JsonParser.new ("data.items" +:+ "[*]")
  = Ok (JsonParser.mkState (StreamJson.Pipeline.initial (Some "data.items"))
          [] false None).
Proof.
  apply (proj1 (new_accepts_marked_paths ("data.items" +:+ "[*]")) "data.items").
  - reflexivity.
  - discriminate.
  - reflexivity.
Defined.

(** ** Specs that stop short *)

Module Stops.

Import JsonFieldFilter FreshWalk FreshWalkFacts StoreSteps.

(** The walk along names of the source down to a node at which the next
    token selects nothing: one container is created per name, and that
    is all. *)
Lemma chain_stops names : forall (h : heap) n0 source s lt arr tok rest sv,
  Forall literal names ->
  repr (below n0) h source s ->
  n0 <= lt ->
  h !! lt = Some (fresh_obj arr) ->
  Spec.fits (names ++ tok :: rest) arr ->
  reach s names = Some sv ->
  (forall (h' : heap) v target,
      repr (below n0) h' v sv ->
      buildStructureFromPath (tok :: rest) h' v target = Ok h') ->
  exists h' last,
    buildStructureFromPath (names ++ tok :: rest) h source (VRef lt) = Ok h'
    /\ length h <= length h'
    /\ (forall l, l < length h -> l <> lt -> h' !! l = h !! l)
    /\ chain_at h' lt names last
    /\ (names = [] -> last = arr).
Proof.
  induction names as [|k ks IH];
    intros h n0 source s lt arr tok rest sv Hlit Hs Hn Hlt Hfits Hreach Hstop.
  - cbn in Hreach. injection Hreach as ->.
    cbn [app]. rewrite (Hstop h source (VRef lt) Hs).
    exists h, arr. repeat split; auto.
  - inversion Hlit as [|? ? [Hstar Hnan] Hlit']; subst.
    cbn [reach] in Hreach.
    destruct (Spec.named s k) as [sk|] eqn:Esk; [|discriminate].
    assert (Harr : arr = false).
    { destruct arr; [|reflexivity]. specialize (Hfits eq_refl). cbn in Hfits.
      now rewrite (WalkAgrees.literal_is_no_access k Hstar Hnan) in Hfits. }
    subst arr.
    assert (Hltlen : lt < length h) by (eapply lookup_lt; eassumption).
    assert (Hsrc : exists l, source = VRef l).
    { inversion Hs; subst; try discriminate Esk; eauto. }
    destruct Hsrc as [l ->].
    pose proof (ReprFacts.repr_named _ _ _ _ k Hs) as Hnamed.
    rewrite Esk in Hnamed.
    destruct (Obj.get_named (Store.get h l) k) as [v|] eqn:Ev; [|contradiction].
    change ((k :: ks) ++ tok :: rest) with (k :: (ks ++ tok :: rest)).
    cbn [buildStructureFromPath]. rewrite Hstar, Hnan, Ev. cbn [negb].
    destruct (ks ++ tok :: rest) as [|next rest'] eqn:Erest;
      [now destruct ks|].
    rewrite (target_named_fresh _ _ _ Hlt). cbn [bind truthy negb hd].
    unfold Store.alloc.
    change (if is_array_access next then empty_array else empty_object)
      with (fresh_obj (is_array_access next)).
    rewrite (assign_named_fresh _ lt k (VRef (length h)))
      by (rewrite lookup_alloc_old by assumption; exact Hlt).
    cbn [bind].
    rewrite (target_named_one _ lt k (VRef (length h)))
      by (apply lookup_set_eq; rewrite length_app; cbn; lia).
    cbn [bind].
    set (h2 := Store.set lt (mkObj false [] [(k, VRef (length h))])
                         (h ++ [fresh_obj (is_array_access next)])).
    assert (Hlen2 : length h2 = S (length h)).
    { unfold h2. rewrite length_set, length_app. cbn. lia. }
    assert (Hold : forall x, x < length h -> x <> lt -> h2 !! x = h !! x).
    { intros x Hx Hne. unfold h2. rewrite lookup_set_ne by lia.
      now apply lookup_alloc_old. }
    assert (Hv2 : repr (below n0) h2 v sk).
    { eapply ReprFacts.repr_frame; [|exact Hnamed].
      intros x Hx. unfold below in Hx. apply Hold; lia. }
    assert (Hc2 : h2 !! length h = Some (fresh_obj (is_array_access next))).
    { unfold h2. rewrite lookup_set_ne by lia. apply list_lookup_middle. reflexivity. }
    rewrite <- Erest.
    destruct (IH h2 n0 v sk (length h) (is_array_access next) tok rest sv
                 Hlit' Hv2 ltac:(lia) Hc2
                 ltac:(rewrite Erest; intros E; exact E)
                 Hreach Hstop)
      as (h' & last & Hrun & Hlen & Hframe & Hchain & _).
    exists h', last. split; [exact Hrun|]. split; [lia|]. split; [|split].
    + intros x Hx Hne.
      etransitivity; [apply Hframe; lia|]. now apply Hold.
    + cbn [chain_at]. exists (length h). split; [lia|]. split; [|exact Hchain].
      etransitivity; [apply Hframe; lia|]. unfold h2. apply lookup_set_eq.
      rewrite length_app. cbn. lia.
    + discriminate.
Qed.

(** A projection with one Spec that stops short: every container it
    created is pruned. *)
Lemma transform_stops spec names tok rest (h : heap) n0 ls s sv :
  parsePath spec = names ++ tok :: rest ->
  Forall literal names ->
  repr (below n0) h (VRef ls) s ->
  n0 <= length h ->
  reach s names = Some sv ->
  (forall (h' : heap) v target,
      repr (below n0) h' v sv ->
      buildStructureFromPath (tok :: rest) h' v target = Ok h') ->
  exists h',
    _transform [spec] None h (VRef ls) = Ok (h', VRef (length h))
    /\ h' !! length h = Some empty_object
    /\ (forall l, l < length h -> h' !! l = h !! l).
Proof.
  intros Hparse Hlit Hs Hn Hreach Hstop.
  unfold _transform, Store.alloc, applySpecs, extractField.
  cbn [fold_left bind]. rewrite Hparse.
  assert (Hs0 : repr (below n0) (h ++ [empty_object]) (VRef ls) s).
  { eapply ReprFacts.repr_frame; [|exact Hs].
    intros x Hx. unfold below in Hx. apply lookup_alloc_old. lia. }
  assert (Hlt : (h ++ [empty_object]) !! length h = Some (fresh_obj false))
    by (apply list_lookup_middle; reflexivity).
  destruct (chain_stops names (h ++ [empty_object]) n0 (VRef ls) s (length h)
              false tok rest sv Hlit Hs0 Hn Hlt
              ltac:(intros E; discriminate E) Hreach Hstop)
    as (h1 & last & Hrun & Hlen & Hframe & Hchain & Hlast).
  rewrite Hrun. cbn [bind].
  pose proof (DeadEnd.chain_in_store _ _ _ _ Hchain) as Hin.
  destruct (DeadEnd.cleanup_chain names h1 (length h) last (S (length h1))
              Hchain ltac:(lia))
    as (h' & Hclean & Hlen' & Hframe' & Hhead).
  rewrite Hclean. cbn [bind].
  exists h'. split; [reflexivity|]. split.
  - destruct names; [rewrite (Hlast eq_refl) in Hhead|]; exact Hhead.
  - intros l Hl.
    etransitivity; [apply Hframe'; lia|].
    etransitivity; [apply Hframe; rewrite ?length_app; cbn; lia|].
    now apply lookup_alloc_old.
Qed.

(** A Literal token selects nothing on a node that has no such own
    property. *)
Lemma literal_stops n0 k rest sv (h' : heap) v target :
  literal k -> Spec.named sv k = None ->
  repr (below n0) h' v sv ->
  buildStructureFromPath (k :: rest) h' v target = Ok h'.
Proof.
  intros [Hstar Hnan] Hnone Hv.
  cbn [buildStructureFromPath]. rewrite Hstar, Hnan. cbn [negb].
  destruct v as [| | | | |l]; try reflexivity.
  pose proof (ReprFacts.repr_named _ _ _ _ k Hv) as Hnamed.
  rewrite Hnone in Hnamed.
  now destruct (Obj.get_named (Store.get h' l) k).
Qed.

(** The Wildcard selects nothing on a node that is not an array. *)
Lemma wildcard_stops n0 rest sv (h' : heap) v target :
  (forall items extra, sv <> TArr items extra) ->
  repr (below n0) h' v sv ->
  buildStructureFromPath ("*" :: rest) h' v target = Ok h'.
Proof.
  intros Hno Hv. cbn [buildStructureFromPath String.eqb Ascii.eqb Bool.eqb].
  destruct v as [| | | | |l]; try reflexivity.
  inversion Hv as [| | | | |? vs ps items extra HP Hl Hvs Hps
                    |? ps fields HP Hl Hps]; subst.
  - now destruct (Hno items extra).
  - now rewrite (get_lookup _ _ _ Hl).
Qed.

Lemma person_in_store : repr (below 4) person_store (VRef 3) person.
Proof.
  eapply repr_obj; [unfold below; lia | reflexivity |].
  repeat constructor.
  eapply repr_obj; [unfold below; lia | reflexivity |].
  repeat constructor.
  eapply repr_arr; [unfold below; lia | reflexivity | | constructor].
  repeat constructor.
  eapply repr_obj; [unfold below; lia | reflexivity |].
  repeat constructor.
Qed.

Lemma fold_failed {A B} (f : A -> B -> result A) (l : list B) (e : error) :
  fold_left (fun r x => let* a := r in f a x) l (Err e) = Err e.
Proof. induction l as [|x l IH]; [reflexivity | exact IH]. Qed.

End Stops.





(** X8.  A Spec that starts with the Wildcard, met on a Source Value
    that is an array, makes [_transform] throw, whatever the Specs after
    it and the hook: the array filled for the Wildcard is handed to
    [target.push], and the target, the object [{}] made for the
    projection, has no [push]. *)
Theorem leading_wildcard_on_array_throws :
  forall (spec : string) (rest specs : list string)
         (customFilterCase : option JsonFieldFilter.hook)
         (h : heap) (ls : loc) (o : obj),
    JsonFieldFilter.parsePath spec = "*" :: rest ->
    h !! ls = Some o ->
    is_array o = true ->
    exists e,
      JsonFieldFilter._transform (spec :: specs) customFilterCase h (VRef ls)
      = Err e.
Proof.
  intros spec rest specs hook h ls o Hparse Hl Harr.
  unfold JsonFieldFilter._transform, Store.alloc, JsonFieldFilter.applySpecs.
  cbn [fold_left bind]. unfold JsonFieldFilter.extractField at 2.
  rewrite Hparse.
  assert (Hls : ls < length h) by (eapply StoreSteps.lookup_lt; eassumption).
  assert (Hsrc : Store.get (h ++ [empty_object]) ls = o).
  { apply StoreSteps.get_lookup.
    etransitivity; [apply StoreSteps.lookup_alloc_old; exact Hls | exact Hl]. }
  assert (Htgt : Store.get (h ++ [empty_object]) (length h) = empty_object).
  { apply StoreSteps.get_lookup. apply list_lookup_middle. reflexivity. }
  cbn [JsonFieldFilter.buildStructureFromPath String.eqb Ascii.eqb Bool.eqb
       Store.isArray].
  rewrite Hsrc, Harr, Htgt. cbn [negb is_array empty_object].
  unfold Store.alloc.
  match goal with
  | |- context [bind ?m (fun _ => Err TypeError)] => destruct m as [hx|e]
  end; cbn [bind]; rewrite Stops.fold_failed; eexists; reflexivity.
Qed.

Lemma leading_wildcard_on_array_throws_witness :
  exists e,
    JsonFieldFilter._transform ["[*].id"; "name"] None
      [mkObj false [] [("id", VNum (num 1))]; mkObj true [VRef 0] []] (VRef 1)
    = Err e.
Proof.
  apply (leading_wildcard_on_array_throws "[*].id" ["id"] ["name"] None
           [mkObj false [] [("id", VNum (num 1))]; mkObj true [VRef 0] []] 1
           (mkObj true [VRef 0] [])); reflexivity.
Defined.

(** ** Trees in the store: one tree per value, and its height *)

Module ReprShape.

Lemma height_child t c : child_of t c -> height c < height t.
Proof.
  destruct t as [| | | | |items extra|fields]; cbn [child_of]; try contradiction.
  - intros [Hin | [k Hin]]; cbn [height].
    + assert (height c <= list_max (map height items)).
      { apply (proj1 (List.Forall_forall _ _)
                  (proj1 (list_max_le _ _) (le_n _))).
        now apply in_map. }
      lia.
    + assert (height c <= list_max (map (fun p => height (snd p)) extra)).
      { apply (proj1 (List.Forall_forall _ _)
                  (proj1 (list_max_le _ _) (le_n _))).
        now apply (in_map (fun p => height (snd p)) extra (k, c)). }
      lia.
  - intros [k Hin]. cbn [height].
    assert (height c <= list_max (map (fun p => height (snd p)) fields)).
    { apply (proj1 (List.Forall_forall _ _)
                (proj1 (list_max_le _ _) (le_n _))).
      now apply (in_map (fun p => height (snd p)) fields (k, c)). }
    lia.
Qed.

Lemma dense_inside_obj fields :
  dense_inside (TObj fields) = forallb (fun p => dense (snd p)) fields.
Proof. reflexivity. Qed.

Lemma dense_inside_arr items extra :
  dense_inside (TArr items extra)
  = forallb dense items && match extra with [] => true | _ => false end.
Proof. reflexivity. Qed.

Lemma dense_obj fields :
  dense (TObj fields)
  = forallb (fun p => dense (snd p)) fields
    && match fields with [] => false | _ => true end.
Proof. reflexivity. Qed.

Lemma dense_arr items extra :
  dense (TArr items extra)
  = existsb counted items && forallb dense_inside items
    && match extra with [] => true | _ => false end.
Proof. reflexivity. Qed.

Lemma dense_child t c :
  dense_inside t = true -> child_of t c -> dense c = true.
Proof.
  destruct t as [| | | | |items extra|fields]; cbn [child_of];
    try contradiction.
  - rewrite dense_inside_arr. intros H [Hin | [k Hin]].
    + apply andb_prop in H. destruct H as [H _].
      now apply (proj1 (forallb_forall _ _) H).
    + apply andb_prop in H. destruct H as [_ H]. now destruct extra.
  - rewrite dense_inside_obj. intros H [k Hin].
    now apply (proj1 (forallb_forall _ _) H (k, c)).
Qed.

Lemma dense_object_inside fields :
  dense (TObj fields) = true -> dense_inside (TObj fields) = true.
Proof.
  rewrite dense_obj, dense_inside_obj. intros H.
  apply andb_prop in H. now destruct H.
Qed.

(** Lists represented element by element are equal when each element
    stands for one tree only. *)
Lemma items_unique (R R' : val -> tree -> Prop) vs items items' :
  Forall (fun t => forall v t', R v t -> R' v t' -> t = t') items ->
  Forall2 R vs items -> Forall2 R' vs items' -> items = items'.
Proof.
  intros Hall H. revert items'.
  induction H as [|v t vs items Hvt _ IH]; intros items' H'.
  - now inversion H'.
  - inversion H' as [|? t' ? items0 Hvt' Hrest]; subst.
    inversion Hall as [|? ? Hone Hmore]; subst.
    f_equal; [eapply Hone; eassumption | now apply IH].
Qed.

Lemma fields_unique (R R' : val -> tree -> Prop) (ps : list (string * val))
      (fields fields' : list (string * tree)) :
  Forall (fun q => forall v t', R v (snd q) -> R' v t' -> snd q = t') fields ->
  Forall2 (fun p q => fst p = fst q /\ R (snd p) (snd q)) ps fields ->
  Forall2 (fun p q => fst p = fst q /\ R' (snd p) (snd q)) ps fields' ->
  fields = fields'.
Proof.
  intros Hall H. revert fields'.
  induction H as [|[k v] [k1 t] ps fields [Hk Hvt] _ IH]; intros fields' H'.
  - now inversion H'.
  - inversion H' as [|? [k2 t'] ? fields0 [Hk' Hvt'] Hrest]; subst.
    inversion Hall as [|? ? Hone Hmore]; subst.
    cbn in *. subst k1 k2.
    f_equal; [f_equal; eapply Hone; eassumption | now apply IH].
Qed.

(** A value of the store stands for one tree at most. *)
Lemma repr_unique (h : heap) t :
  forall P P' v t', repr P h v t -> repr P' h v t' -> t = t'.
Proof.
  induction t as [| | | | |items extra IHi IHe|fields IHf] using tree_ind_nested;
    intros P P' v t' H H'; inversion H; subst; inversion H'; subst;
    try reflexivity; try congruence.
  - match goal with
    | H1 : h !! ?l = Some (mkObj true ?a ?b),
      H2 : h !! ?l = Some (mkObj true ?c ?d) |- _ =>
        rewrite H1 in H2; injection H2 as <- <-
    end.
    f_equal.
    + eapply items_unique; [|eassumption|eassumption].
      eapply List.Forall_impl; [|exact IHi]. cbn. eauto.
    + eapply fields_unique; [|eassumption|eassumption].
      eapply List.Forall_impl; [|exact IHe]. cbn. eauto.
  - match goal with
    | H1 : h !! ?l = Some (mkObj false [] ?b),
      H2 : h !! ?l = Some (mkObj false [] ?d) |- _ =>
        rewrite H1 in H2; injection H2 as <-
    end.
    f_equal.
    eapply fields_unique; [|eassumption|eassumption].
    eapply List.Forall_impl; [|exact IHf]. cbn. eauto.
Qed.

(** Every location of a represented tree is in the store. *)
Lemma repr_in_store (h : heap) t :
  forall P v, repr P h v t -> repr (below (length h)) h v t.
Proof.
  induction t as [| | | | |items extra IHi IHe|fields IHf] using tree_ind_nested;
    intros P v H; inversion H; subst; try constructor.
  - econstructor; [|eassumption| |].
    + unfold below. eapply StoreSteps.lookup_lt. eassumption.
    + eapply ReprFacts.Forall2_impl_Forall; [exact IHi | eassumption |].
      cbn. eauto.
    + eapply ReprFacts.Forall2_impl_Forall; [exact IHe | eassumption |].
      cbn. intros a b Hb [? ?]. eauto.
  - econstructor; [|eassumption|].
    + unfold below. eapply StoreSteps.lookup_lt. eassumption.
    + eapply ReprFacts.Forall2_impl_Forall; [exact IHf | eassumption |].
      cbn. intros a b Hb [? ?]. eauto.
Qed.

Lemma Forall_children_items (Q : tree -> Prop) items extra :
  Forall Q items ->
  Forall (fun c => Q c /\ child_of (TArr items extra) c) items.
Proof.
  intros H. apply List.Forall_forall. intros c Hin. split.
  - now apply (proj1 (List.Forall_forall _ _) H).
  - cbn. now left.
Qed.

Lemma Forall_children_extra (Q : tree -> Prop) items
      (extra : list (string * tree)) :
  Forall (fun p => Q (snd p)) extra ->
  Forall (fun p => Q (snd p) /\ child_of (TArr items extra) (snd p)) extra.
Proof.
  intros H. apply List.Forall_forall. intros [k c] Hin. split.
  - now apply (proj1 (List.Forall_forall _ _) H (k, c)).
  - cbn. right. now exists k.
Qed.

Lemma Forall_children_fields (Q : tree -> Prop)
      (fields : list (string * tree)) :
  Forall (fun p => Q (snd p)) fields ->
  Forall (fun p => Q (snd p) /\ child_of (TObj fields) (snd p)) fields.
Proof.
  intros H. apply List.Forall_forall. intros [k c] Hin. split.
  - now apply (proj1 (List.Forall_forall _ _) H (k, c)).
  - cbn. now exists k.
Qed.

(** A tree lower than the tree at [l0] does not pass through [l0]. *)
Lemma repr_avoid (h : heap) l0 T0 P0 :
  repr P0 h (VRef l0) T0 ->
  forall t P v,
    repr P h v t -> height t < height T0 ->
    repr (fun l => P l /\ l <> l0) h v t.
Proof.
  intros H0.
  pose (Q := fun t => forall P v,
                 repr P h v t -> height t < height T0 ->
                 repr (fun l => P l /\ l <> l0) h v t).
  induction t as [| | | | |items extra IHi IHe|fields IHf] using tree_ind_nested;
    intros P v H Hlow; inversion H; subst; try constructor.
  - econstructor; [|eassumption| |].
    + split; [assumption|]. intros ->.
      rewrite (repr_unique _ _ _ _ _ _ H H0) in Hlow. lia.
    + eapply ReprFacts.Forall2_impl_Forall;
        [exact (Forall_children_items Q items extra IHi) | eassumption |].
      cbn. intros a b [Hb Hc] Hab. apply Hb; [exact Hab|].
      pose proof (height_child (TArr items extra) b Hc). lia.
    + eapply ReprFacts.Forall2_impl_Forall;
        [exact (Forall_children_extra Q items extra IHe) | eassumption |].
      cbn. intros a b [Hb Hc] [Hk Hab]. split; [exact Hk|].
      apply Hb; [exact Hab|].
      pose proof (height_child (TArr items extra) (snd b) Hc). lia.
  - econstructor; [|eassumption|].
    + split; [assumption|]. intros ->.
      rewrite (repr_unique _ _ _ _ _ _ H H0) in Hlow. lia.
    + eapply ReprFacts.Forall2_impl_Forall;
        [exact (Forall_children_fields Q fields IHf) | eassumption |].
      cbn. intros a b [Hb Hc] [Hk Hab]. split; [exact Hk|].
      apply Hb; [exact Hab|].
      pose proof (height_child (TObj fields) (snd b) Hc). lia.
Qed.

(** The children of a represented container, each with its value. *)
Lemma repr_children P (h : heap) l t c :
  repr P h (VRef l) t -> child_of t c -> exists v, repr P h v c.
Proof.
  intros H Hc. inversion H as [| | | | |? vs ps items extra HP Hl Hvs Hps
                                |? ps fields HP Hl Hps]; subst; cbn in Hc.
  - destruct Hc as [Hin | [k Hin]].
    + apply list_elem_of_In in Hin.
      destruct (list_elem_of_lookup_1 _ _ Hin) as [i Hi].
      destruct (Forall2_lookup_r _ _ _ _ _ Hvs Hi) as (v & _ & Hv). eauto.
    + apply list_elem_of_In in Hin.
      destruct (list_elem_of_lookup_1 _ _ Hin) as [i Hi].
      destruct (Forall2_lookup_r _ _ _ _ _ Hps Hi) as (p & _ & _ & Hv).
      cbn in Hv. eauto.
  - destruct Hc as [k Hin].
    apply list_elem_of_In in Hin.
    destruct (list_elem_of_lookup_1 _ _ Hin) as [i Hi].
    destruct (Forall2_lookup_r _ _ _ _ _ Hps Hi) as (p & _ & _ & Hv).
    cbn in Hv. eauto.
Qed.

(** A tree is no higher than the number of locations it may pass
    through. *)
Lemma repr_height_locs (h : heap) t :
  forall (locs : list loc) v,
    repr (fun l => In l locs) h v t -> height t <= length locs.
Proof.
  remember (height t) as n eqn:Hn. revert t Hn.
  induction n as [n IH] using lt_wf_ind. intros t Hn locs v H.
  destruct n as [|n]; [lia|].
  assert (Hroot : exists l, v = VRef l /\ In l locs).
  { inversion H; subst; try discriminate Hn; eauto. }
  destruct Hroot as (l & -> & Hl).
  assert (Hkids : forall c, child_of t c ->
                            height c <= length (remove Nat.eq_dec l locs)).
  { intros c Hc. pose proof (height_child _ _ Hc) as Hlow.
    destruct (repr_children _ _ _ _ _ H Hc) as [vc Hvc].
    apply (IH (height c) ltac:(lia) c eq_refl _ vc).
    eapply ReprFacts.repr_weaken; [|eapply (repr_avoid h l t _ H c _ vc Hvc Hlow)].
    cbn. intros x [Hx Hne]. now apply in_in_remove. }
  pose proof (remove_length_lt Nat.eq_dec locs l Hl) as Hless.
  assert (Hmax : forall (A : Type) (f : A -> tree) (l0 : list A),
             (forall a, In a l0 -> child_of t (f a)) ->
             list_max (map (fun a => height (f a)) l0)
             <= length (remove Nat.eq_dec l locs)).
  { intros A f l0 Hall. apply list_max_le. apply List.Forall_forall.
    intros x Hx. apply in_map_iff in Hx. destruct Hx as (a & <- & Ha).
    apply Hkids. now apply Hall. }
  destruct t as [| | | | |items extra|fields]; try discriminate Hn;
    cbn [height] in Hn |- *.
  - pose proof (Hmax tree (fun c => c) items
                  ltac:(intros a Ha; cbn; now left)) as H1.
    pose proof (Hmax (string * tree)%type snd extra
                  ltac:(intros [k a] Ha; cbn; right; now exists k)) as H2.
    cbn beta in H1, H2.
    change (list_max (map height items)
            <= length (remove Nat.eq_dec l locs)) in H1.
    unfold loc in *. lia.
  - pose proof (Hmax (string * tree)%type snd fields
                  ltac:(intros [k a] Ha; cbn; now exists k)) as H2.
    cbn beta in H2. unfold loc in *. lia.
Qed.

(** A tree of the store is no higher than the store is long. *)
Lemma repr_height P (h : heap) v t : repr P h v t -> height t <= length h.
Proof.
  intros H. apply repr_in_store in H.
  assert (Hb : height t <= length (seq 0 (length h))).
  { apply (repr_height_locs h t (seq 0 (length h)) v).
    eapply ReprFacts.repr_weaken; [|exact H].
    unfold below. intros l Hl. apply in_seq. lia. }
  now rewrite length_seq in Hb.
Qed.

End ReprShape.

(** ** Writing a tree to the store and reading it back *)

Module TreeStore.

Import StoreSteps.

Lemma alloc_arr items extra (h : heap) :
  Tree.alloc (TArr items extra) h
  = let '(vs, h1) := alloc_items Tree.alloc items h in
    let '(ps, h2) := alloc_props Tree.alloc extra h1 in
    (VRef (length h2), h2 ++ [mkObj true vs ps]).
Proof.
  cbn [Tree.alloc].
  match goal with
  | |- context [let '(_, _) := ?F items h in _] =>
      assert (HF : forall ts h0, F ts h0 = alloc_items Tree.alloc ts h0)
  end.
  { induction ts as [|t ts IH]; intros h0; [reflexivity|].
    cbn [alloc_items]. destruct (Tree.alloc t h0) as [v h1] eqn:E.
    now rewrite <- IH. }
  rewrite HF. destruct (alloc_items Tree.alloc items h) as [vs h1].
  match goal with
  | |- context [let '(_, _) := ?F extra h1 in _] =>
      assert (HG : forall fs h0, F fs h0 = alloc_props Tree.alloc fs h0)
  end.
  { induction fs as [|[k t] fs IH]; intros h0; [reflexivity|].
    cbn [alloc_props]. destruct (Tree.alloc t h0) as [v h2] eqn:E.
    now rewrite <- IH. }
  rewrite HG. now destruct (alloc_props Tree.alloc extra h1).
Qed.

Lemma alloc_obj fields (h : heap) :
  Tree.alloc (TObj fields) h
  = let '(ps, h1) := alloc_props Tree.alloc fields h in
    (VRef (length h1), h1 ++ [mkObj false [] ps]).
Proof.
  cbn [Tree.alloc].
  match goal with
  | |- context [let '(_, _) := ?F fields h in _] =>
      assert (HG : forall fs h0, F fs h0 = alloc_props Tree.alloc fs h0)
  end.
  { induction fs as [|[k t] fs IH]; intros h0; [reflexivity|].
    cbn [alloc_props]. destruct (Tree.alloc t h0) as [v h2] eqn:E.
    now rewrite <- IH. }
  rewrite HG. now destruct (alloc_props Tree.alloc fields h).
Qed.

Lemma reify_ref fuel (h : heap) l :
  Tree.reify (S fuel) h (VRef l)
  = match h !! l with
    | None => None
    | Some o =>
        match reify_items (Tree.reify fuel h) (elems o),
              reify_props (Tree.reify fuel h) (props o) with
        | Some ts, Some fs => Some (if is_array o then TArr ts fs else TObj fs)
        | _, _ => None
        end
    end.
Proof.
  cbn [Tree.reify]. destruct (h !! l) as [o|]; [|reflexivity].
  match goal with
  | |- match ?F (elems o) with _ => _ end = _ =>
      assert (HF : forall vs, F vs = reify_items (Tree.reify fuel h) vs)
  end.
  { induction vs as [|v vs IH]; [reflexivity|].
    cbn [reify_items]. now rewrite <- IH. }
  rewrite HF. destruct (reify_items (Tree.reify fuel h) (elems o)); [|reflexivity].
  match goal with
  | |- match ?F (props o) with _ => _ end = _ =>
      assert (HG : forall ps, F ps = reify_props (Tree.reify fuel h) ps)
  end.
  { induction ps as [|[k v] ps IH]; [reflexivity|].
    cbn [reify_props]. now rewrite <- IH. }
  now rewrite HG.
Qed.

(** A tree stays represented while the store grows. *)
Lemma repr_grow (h ext : heap) v t :
  repr (below (length h)) h v t ->
  repr (below (length (h ++ ext))) (h ++ ext) v t.
Proof.
  intros H. eapply ReprFacts.repr_move; [| |exact H].
  - unfold below. intros l Hl. rewrite length_app. lia.
  - unfold below. intros l Hl. now apply lookup_app_l.
Qed.

Lemma alloc_props_repr (fields : list (string * tree)) :
  Forall (fun p => forall h, exists v ext,
              Tree.alloc (snd p) h = (v, h ++ ext)
              /\ repr (below (length (h ++ ext))) (h ++ ext) v (snd p)) fields ->
  forall h, exists ps ext,
    alloc_props Tree.alloc fields h = (ps, h ++ ext)
    /\ Forall2 (fun p q => fst p = fst q
                           /\ repr (below (length (h ++ ext))) (h ++ ext)
                                   (snd p) (snd q)) ps fields.
Proof.
  induction 1 as [|[k t] fields Hone _ IH]; intros h.
  - exists [], []. rewrite app_nil_r. split; [reflexivity | constructor].
  - cbn [snd] in Hone. destruct (Hone h) as (v & e1 & Ha & Hv).
    destruct (IH (h ++ e1)) as (ps & e2 & Hb & Hps).
    exists ((k, v) :: ps), (e1 ++ e2).
    cbn [alloc_props]. rewrite Ha, Hb. rewrite <- app_assoc in *.
    split; [reflexivity|]. constructor; [|exact Hps].
    split; [reflexivity|]. cbn [snd].
    rewrite app_assoc. now apply repr_grow.
Qed.

Lemma alloc_items_repr (items : list tree) :
  Forall (fun t => forall h, exists v ext,
              Tree.alloc t h = (v, h ++ ext)
              /\ repr (below (length (h ++ ext))) (h ++ ext) v t) items ->
  forall h, exists vs ext,
    alloc_items Tree.alloc items h = (vs, h ++ ext)
    /\ Forall2 (repr (below (length (h ++ ext))) (h ++ ext)) vs items.
Proof.
  induction 1 as [|t items Hone _ IH]; intros h.
  - exists [], []. rewrite app_nil_r. split; [reflexivity | constructor].
  - destruct (Hone h) as (v & e1 & Ha & Hv).
    destruct (IH (h ++ e1)) as (vs & e2 & Hb & Hvs).
    exists (v :: vs), (e1 ++ e2).
    cbn [alloc_items]. rewrite Ha, Hb. rewrite <- app_assoc in *.
    split; [reflexivity|]. constructor; [|exact Hvs].
    rewrite app_assoc. now apply repr_grow.
Qed.

(** [Tree.alloc] extends the store by the objects of the tree, and its
    value stands for the tree. *)
Lemma alloc_repr t : forall (h : heap),
  exists v ext,
    Tree.alloc t h = (v, h ++ ext)
    /\ repr (below (length (h ++ ext))) (h ++ ext) v t.
Proof.
  induction t as [| | | | |items extra IHi IHe|fields IHf] using tree_ind_nested;
    intros h;
    try (eexists _, []; rewrite app_nil_r; split; [reflexivity | constructor]).
  - rewrite alloc_arr.
    destruct (alloc_items_repr items IHi h) as (vs & e1 & Ha & Hvs).
    destruct (alloc_props_repr extra IHe (h ++ e1)) as (ps & e2 & Hb & Hps).
    rewrite Ha, Hb.
    exists (VRef (length ((h ++ e1) ++ e2))), (e1 ++ e2 ++ [mkObj true vs ps]).
    split; [now rewrite <- !app_assoc|].
    replace (h ++ e1 ++ e2 ++ [mkObj true vs ps])
      with (((h ++ e1) ++ e2) ++ [mkObj true vs ps])
      by (now rewrite <- !app_assoc).
    eapply repr_arr.
    + unfold below. rewrite (length_app _ [_]). cbn. lia.
    + apply list_lookup_middle. reflexivity.
    + eapply Forall2_impl; [exact Hvs|]. intros a b Hab.
      apply repr_grow. now apply repr_grow.
    + eapply Forall2_impl; [exact Hps|]. intros a b [Hk Hab].
      split; [exact Hk|]. now apply repr_grow.
  - rewrite alloc_obj.
    destruct (alloc_props_repr fields IHf h) as (ps & e1 & Ha & Hps).
    rewrite Ha.
    exists (VRef (length (h ++ e1))), (e1 ++ [mkObj false [] ps]).
    split; [now rewrite <- !app_assoc|].
    rewrite app_assoc.
    eapply repr_obj.
    + unfold below. rewrite (length_app _ [_]). cbn. lia.
    + apply list_lookup_middle. reflexivity.
    + eapply Forall2_impl; [exact Hps|]. intros a b [Hk Hab].
      split; [exact Hk|]. now apply repr_grow.
Qed.

Lemma reify_items_all (r : val -> option tree) vs items :
  Forall2 (fun v t => r v = Some t) vs items -> reify_items r vs = Some items.
Proof.
  induction 1 as [|v t vs items Hvt _ IH]; [reflexivity|].
  cbn [reify_items]. now rewrite Hvt, IH.
Qed.

Lemma reify_props_all (r : val -> option tree) (ps : list (string * val))
      (fields : list (string * tree)) :
  Forall2 (fun p q => fst p = fst q /\ r (snd p) = Some (snd q)) ps fields ->
  reify_props r ps = Some fields.
Proof.
  induction 1 as [|[k v] [k' t] ps fields [Hk Hvt] _ IH]; [reflexivity|].
  cbn in Hk, Hvt. subst k'. cbn [reify_props]. now rewrite Hvt, IH.
Qed.

Lemma Forall2_impl_in {A B} (R R' : A -> B -> Prop) l k :
  Forall2 R l k ->
  (forall a b, In b k -> R a b -> R' a b) ->
  Forall2 R' l k.
Proof.
  induction 1 as [|a b l k Hab _ IH]; intros Himp; constructor.
  - apply Himp; [now left | exact Hab].
  - apply IH. intros a' b' Hin. apply Himp. now right.
Qed.

(** With fuel for its height, a represented tree is read back. *)
Lemma reify_repr fuel : forall P (h : heap) v t,
  repr P h v t -> height t <= fuel -> Tree.reify fuel h v = Some t.
Proof.
  induction fuel as [|fuel IH]; intros P h v t H Hfuel.
  - inversion H; subst; try reflexivity; cbn [height] in Hfuel; lia.
  - inversion H as [| | | | |l vs ps items extra HP Hl Hvs Hps
                     |l ps fields HP Hl Hps]; subst; try reflexivity.
    + rewrite reify_ref, Hl. cbn [elems props is_array].
      rewrite (reify_items_all _ vs items), (reify_props_all _ ps extra);
        [reflexivity | |].
      * eapply Forall2_impl_in; [exact Hps|].
        intros p q Hq [Hk Hpq]. split; [exact Hk|].
        eapply IH; [exact Hpq|].
        assert (Hc : child_of (TArr items extra) (snd q))
          by (cbn; right; exists (fst q); now destruct q).
        pose proof (ReprShape.height_child _ _ Hc). lia.
      * eapply Forall2_impl_in; [exact Hvs|].
        intros a b Hb Hab.
        eapply IH; [exact Hab|].
        assert (Hc : child_of (TArr items extra) b) by (cbn; now left).
        pose proof (ReprShape.height_child _ _ Hc). lia.
    + rewrite reify_ref, Hl. cbn [elems props is_array reify_items].
      rewrite (reify_props_all _ ps fields); [reflexivity|].
      eapply Forall2_impl_in; [exact Hps|].
      intros p q Hq [Hk Hpq]. split; [exact Hk|].
      eapply IH; [exact Hpq|].
      assert (Hc : child_of (TObj fields) (snd q))
        by (cbn; exists (fst q); now destruct q).
      pose proof (ReprShape.height_child _ _ Hc). lia.
Qed.

(** Every represented tree is read back by [Tree.read]. *)
Lemma read_repr P (h : heap) v t : repr P h v t -> Tree.read h v = Some t.
Proof.
  intros H. unfold Tree.read. eapply reify_repr; [exact H|].
  pose proof (ReprShape.repr_height _ _ _ _ H). lia.
Qed.

End TreeStore.

(** ** Pruning a value that has nothing empty in it *)

Module PruneDense.

Import JsonFieldFilter StoreSteps.

Lemma cleanup_unfold fuel (h : heap) l :
  cleanupEmptyStructures (S fuel) h (VRef l)
  = fold_left (fun r k => let* h0 := r in prune_visit fuel l h0 k)
              (rev (Obj.keys (Store.get h l))) (Ok h).
Proof. reflexivity. Qed.

Lemma fold_same {K} (g : heap -> K -> result heap) (ks : list K) (h : heap) :
  (forall k, In k ks -> g h k = Ok h) ->
  fold_left (fun r k => let* h0 := r in g h0 k) ks (Ok h) = Ok h.
Proof.
  induction ks as [|k ks IH]; intros Hall; [reflexivity|].
  cbn [fold_left bind]. rewrite (Hall k) by now left.
  apply IH. intros k' Hk'. apply Hall. now right.
Qed.

Lemma forEach_from_same (f : nat -> val -> heap -> result heap) src (h : heap) n :
  forall i,
    (forall j item, Obj.get_index (Store.get h src) j = Some item ->
                    f j item h = Ok h) ->
    forEach_from f src i n h = Ok h.
Proof.
  induction n as [|n IH]; intros i Hall; [reflexivity|].
  cbn [forEach_from].
  destruct (Obj.get_index (Store.get h src) i) as [item|] eqn:E.
  - rewrite (Hall i item E). cbn [bind]. now apply IH.
  - now apply IH.
Qed.

Lemma forEach_same (f : nat -> val -> heap -> result heap) src (h : heap) :
  (forall j item, Obj.get_index (Store.get h src) j = Some item ->
                  f j item h = Ok h) ->
  forEach f src h = Ok h.
Proof. intros H. unfold forEach. now apply forEach_from_same. Qed.

Lemma index_keys_in k vs : forall j,
  In k (Obj.index_keys j vs) ->
  exists i v, k = KIndex (j + i) /\ vs !! i = Some v /\ v <> VUndef.
Proof.
  induction vs as [|v vs IH]; intros j Hin; [contradiction|].
  assert (Hrest : In k (Obj.index_keys (S j) vs) ->
                  exists i v0, k = KIndex (j + i) /\ (v :: vs) !! i = Some v0
                               /\ v0 <> VUndef).
  { intros H. destruct (IH _ H) as (i & v0 & -> & Hi & Hv0).
    exists (S i), v0. repeat split; [f_equal; lia | exact Hi | exact Hv0]. }
  destruct v; cbn [Obj.index_keys] in Hin; [now apply Hrest | ..];
    (destruct Hin as [<-|Hin]; [|now apply Hrest]);
    exists 0; eexists; (split; [f_equal; lia|]);
    (split; [reflexivity | discriminate]).
Qed.

Lemma index_keys_some vs : forall j i v,
  vs !! i = Some v -> v <> VUndef -> Obj.index_keys j vs <> [].
Proof.
  induction vs as [|v0 vs IH]; intros j i v Hi Hv; [discriminate|].
  destruct i as [|i].
  - cbn in Hi. injection Hi as ->. now destruct v.
  - cbn in Hi. pose proof (IH (S j) i v Hi Hv).
    destruct v0; cbn [Obj.index_keys]; try discriminate. assumption.
Qed.

Lemma assoc_in {A} k (ps : list (string * A)) v :
  Props.assoc k ps = Some v -> In (k, v) ps.
Proof.
  induction ps as [|[k' v'] ps IH]; cbn; [discriminate|].
  destruct (String.eqb_spec k k') as [->|_].
  - intros H. injection H as ->. now left.
  - intros H. right. now apply IH.
Qed.

Lemma assoc_of_key {A} k (ps : list (string * A)) :
  In k (map fst ps) -> exists v, Props.assoc k ps = Some v.
Proof.
  induction ps as [|[k' v'] ps IH]; cbn; [contradiction|].
  destruct (String.eqb_spec k k') as [->|Hne]; [eauto|].
  intros [H|H]; [congruence | now apply IH].
Qed.

(** What stands under a key of a represented container is one of its
    children. *)
Lemma key_child P (h : heap) l t k :
  repr P h (VRef l) t ->
  dense_inside t = true ->
  In k (Obj.keys (Store.get h l)) ->
  exists c, child_of t c /\ repr P h (Obj.get_key (Store.get h l) k) c.
Proof.
  intros H Hd Hk.
  inversion H as [| | | | |? vs ps items extra HP Hl Hvs Hps
                   |? ps fields HP Hl Hps]; subst;
    rewrite (get_lookup _ _ _ Hl) in *; unfold Obj.keys in Hk;
    cbn [elems props] in Hk.
  - rewrite ReprShape.dense_inside_arr in Hd.
    apply andb_prop in Hd. destruct Hd as [_ He].
    destruct extra; [|discriminate]. inversion Hps; subst.
    cbn [map] in Hk. rewrite app_nil_r in Hk.
    destruct (index_keys_in _ _ _ Hk) as (i & v & -> & Hi & Hv).
    cbn [Nat.add].
    destruct (Forall2_lookup_l _ _ _ _ _ Hvs Hi) as (c & Hc & Hvc).
    exists c. split.
    + cbn. left. apply list_elem_of_In. eapply list_elem_of_lookup_2. exact Hc.
    + unfold Obj.get_key, Obj.get_index. cbn [is_array elems].
      rewrite Hi. now destruct v.
  - cbn [Obj.index_keys app] in Hk.
    apply in_map_iff in Hk. destruct Hk as ([name v0] & <- & Hin).
    cbn [fst].
    destruct (assoc_of_key name ps) as [v Hv].
    { apply in_map_iff. now exists (name, v0). }
    pose proof (ReprFacts.assoc_fields (repr P h) name ps fields Hps) as Ha.
    rewrite Hv in Ha.
    destruct (Props.assoc name fields) as [c|] eqn:Hc; [|contradiction].
    exists c. split.
    + cbn. exists name. now apply assoc_in.
    + unfold Obj.get_key, Obj.get_named. cbn [is_array andb props].
      now rewrite Hv.
Qed.

(** A counted container has a key. *)
Lemma counted_has_keys P (h : heap) l c :
  repr P h (VRef l) c -> counted c = true -> no_keys h l = false.
Proof.
  intros H Hd. unfold no_keys.
  inversion H as [| | | | |? vs ps items extra HP Hl Hvs Hps
                   |? ps fields HP Hl Hps]; subst;
    rewrite (get_lookup _ _ _ Hl); unfold Obj.keys; cbn [elems props].
  - cbn [counted] in Hd. apply orb_prop in Hd. destruct Hd as [Hex | Hextra].
    + apply existsb_exists in Hex. destruct Hex as (c & Hin & Hc).
      apply list_elem_of_In in Hin.
      destruct (list_elem_of_lookup_1 _ _ Hin) as [i Hi].
      destruct (Forall2_lookup_r _ _ _ _ _ Hvs Hi) as (v & Hv & Hvc).
      assert (Hdef : v <> VUndef).
      { intros ->. inversion Hvc; subst. discriminate Hc. }
      pose proof (index_keys_some vs 0 i v Hv Hdef).
      now destruct (Obj.index_keys 0 vs).
    + destruct extra as [|e extra]; [discriminate|].
      inversion Hps; subst. now destruct (Obj.index_keys 0 vs).
  - cbn [counted] in Hd.
    destruct fields as [|f fields]; [discriminate|].
    inversion Hps; subst. reflexivity.
Qed.

Lemma not_empty_item P (h : heap) v c :
  repr P h v c -> counted c = true -> is_empty_item h v = false.
Proof.
  intros H Hn. inversion H; subst; try discriminate; try reflexivity;
    cbn [is_empty_item]; eapply counted_has_keys; eassumption.
Qed.

Lemma forallb_false_at {A} (f : A -> bool) (l : list A) x :
  In x l -> f x = false -> forallb f l = false.
Proof.
  intros Hin Hx. destruct (forallb f l) eqn:E; [|reflexivity].
  rewrite (proj1 (forallb_forall _ _) E x Hin) in Hx. discriminate.
Qed.

(** Pruning changes nothing in a container whose values are dense. *)
Lemma cleanup_dense fuel : forall P (h : heap) l t,
  repr P h (VRef l) t ->
  dense_inside t = true ->
  height t <= fuel ->
  cleanupEmptyStructures fuel h (VRef l) = Ok h.
Proof.
  induction fuel as [|fuel IH]; intros P h l t H Hd Hfuel.
  - inversion H; subst; cbn [height] in Hfuel; lia.
  - rewrite cleanup_unfold. apply fold_same. intros k Hk.
    apply in_rev in Hk.
    destruct (key_child _ _ _ _ _ H Hd Hk) as (c & Hc & Hv).
    pose proof (ReprShape.height_child _ _ Hc) as Hlow.
    unfold prune_visit. cbn zeta.
    destruct (Obj.get_key (Store.get h l) k) as [| | | | |lv] eqn:Ev;
      try reflexivity.
    pose proof (ReprShape.dense_child t c Hd Hc) as Hdc.
    inversion Hv as [| | | | |? vs ps items extra HP Hl Hvs Hps
                      |? ps fields HP Hl Hps]; subst.
    + (* an array *)
      rewrite (get_lookup _ _ _ Hl). cbn [is_array elems].
      rewrite ReprShape.dense_arr in Hdc.
      apply andb_prop in Hdc. destruct Hdc as [Hdc _].
      apply andb_prop in Hdc. destruct Hdc as [Hex Hall].
      apply existsb_exists in Hex. destruct Hex as (c0 & Hin0 & Hc0).
      apply list_elem_of_In in Hin0.
      destruct (list_elem_of_lookup_1 _ _ Hin0) as [i Hi].
      destruct (Forall2_lookup_r _ _ _ _ _ Hvs Hi) as (v0 & Hv0 & Hvc0).
      assert (Hlen : (length vs =? 0) = false).
      { apply Nat.eqb_neq. apply lookup_lt_Some in Hv0. lia. }
      rewrite Hlen.
      rewrite forEach_same.
      * cbn [bind]. rewrite (get_lookup _ _ _ Hl). cbn [elems].
        rewrite (forallb_false_at _ vs v0); [reflexivity | |].
        -- apply list_elem_of_In. eapply list_elem_of_lookup_2. exact Hv0.
        -- eapply not_empty_item; [exact Hvc0 | exact Hc0].
      * intros j item Hj. destruct item as [| | | | |li]; try reflexivity.
        rewrite (get_lookup _ _ _ Hl) in Hj.
        unfold Obj.get_index in Hj. cbn [is_array elems] in Hj.
        destruct (vs !! j) as [vj|] eqn:Evj; [|discriminate].
        assert (vj = VRef li) by (destruct vj; congruence). subst vj.
        destruct (Forall2_lookup_l _ _ _ _ _ Hvs Evj) as (cj & Hcj & Hvcj).
        assert (Hinj : In cj items).
        { apply list_elem_of_In. eapply list_elem_of_lookup_2. exact Hcj. }
        eapply IH; [exact Hvcj | |].
        -- exact (proj1 (forallb_forall _ _) Hall _ Hinj).
        -- assert (Hcc : child_of (TArr items extra) cj) by (cbn; now left).
           pose proof (ReprShape.height_child _ _ Hcc). lia.
    + (* an object *)
      rewrite (get_lookup _ _ _ Hl). cbn [is_array].
      rewrite (IH P h lv (TObj fields) Hv
                 (ReprShape.dense_object_inside _ Hdc) ltac:(lia)).
      cbn [bind].
      rewrite (counted_has_keys _ _ _ _ Hv); [reflexivity|].
      rewrite ReprShape.dense_obj in Hdc. apply andb_prop in Hdc.
      exact (proj2 Hdc).
Qed.

End PruneDense.

(** X9.  Pruning removes nothing from a value in which no property
    holds an object without property or an array without counted
    element (one that is neither a hole nor [null] nor a container
    without key), at any depth: [cleanupEmptyStructures] leaves the
    store as it is, provided the recursion has budget for the height of
    the value, which is never more than the size of the store. *)
Theorem pruning_leaves_dense_values_alone :
  forall (P : loc -> Prop) (h : heap) (l : loc) (t : tree),
    repr P h (VRef l) t ->
    dense_inside t = true ->
    (forall fuel, height t <= fuel ->
                  JsonFieldFilter.cleanupEmptyStructures fuel h (VRef l) = Ok h)
    /\ height t <= length h.
Proof.
  intros P h l t H Hd. split.
  - intros fuel Hfuel. eapply PruneDense.cleanup_dense; eassumption.
  - eapply ReprShape.repr_height. exact H.
Qed.

Lemma pruning_leaves_dense_values_alone_witness :
  JsonFieldFilter.cleanupEmptyStructures (S (length person_store))
    person_store (VRef 3)
  = Ok person_store.
Proof.
  destruct (pruning_leaves_dense_values_alone (below 4) person_store 3 person
              Stops.person_in_store eq_refl) as [Hclean Hheight].
  apply Hclean. lia.
Defined.

(** ** One Spec, from tree to tree *)

Module ProjectFacts.

Import JsonFieldFilter FreshWalk StoreSteps.

(** The store [project] starts from. *)
Lemma alloc_root s :
  container s ->
  exists ls (h : heap),
    Tree.alloc s [] = (VRef ls, h)
    /\ repr (below (length h)) h (VRef ls) s.
Proof.
  intros Hc. destruct (TreeStore.alloc_repr s []) as (v & ext & Ha & Hv).
  cbn [app] in Ha, Hv.
  destruct s; try contradiction; inversion Hv; subst; eauto.
Qed.

(** What [project] answers when the projector succeeds. *)
Lemma project_ok specs s ls (h h' : heap) lt s' t P P' :
  Tree.alloc s [] = (VRef ls, h) ->
  _transform specs None h (VRef ls) = Ok (h', VRef lt) ->
  repr P h' (VRef ls) s' ->
  repr P' h' (VRef lt) t ->
  project specs s = Ok (s', t).
Proof.
  intros Ha Ht Hs Hr. unfold project. rewrite Ha, Ht. cbn [bind].
  now rewrite (TreeStore.read_repr _ _ _ _ Hs), (TreeStore.read_repr _ _ _ _ Hr).
Qed.

(** One Spec whose walk builds a tree with nothing empty in it: the
    output is that tree, and the source is as before. *)
Lemma single_spec spec s t :
  is_json s = true ->
  container s ->
  Spec.project_tokens (parsePath spec) s false = Ok t ->
  dense_inside t = true ->
  project [spec] s = Ok (s, t).
Proof.
  intros Hjson Hc Hproj Hd.
  destruct (alloc_root s Hc) as (ls & h & Ha & Hs).
  assert (Hs0 : repr (below (length h)) (h ++ [empty_object]) (VRef ls) s).
  { eapply ReprFacts.repr_frame; [|exact Hs].
    intros x Hx. unfold below in Hx. now apply lookup_alloc_old. }
  assert (Hlt : (h ++ [empty_object]) !! length h = Some (fresh_obj false))
    by (apply list_lookup_middle; reflexivity).
  pose proof (WalkAgrees.walk_agrees (parsePath spec) (h ++ [empty_object])
                (length h) (VRef ls) s (length h) false Hs0 Hjson (le_n _) Hlt
                ltac:(intros E; discriminate E)) as Hwalk.
  rewrite Hproj in Hwalk.
  destruct Hwalk as (h1 & Hrun & Hlen & Hframe & Hrepr).
  assert (Hclean : cleanupEmptyStructures (S (length h1)) h1 (VRef (length h))
                   = Ok h1).
  { eapply PruneDense.cleanup_dense; [exact Hrepr | exact Hd |].
    pose proof (ReprShape.repr_height _ _ _ _ Hrepr). lia. }
  eapply (project_ok [spec] s ls h h1 (length h)); [exact Ha | | | exact Hrepr].
  - unfold _transform, Store.alloc, applySpecs, extractField.
    cbn [fold_left bind]. rewrite Hrun. cbn [bind]. now rewrite Hclean.
  - eapply ReprFacts.repr_frame; [|exact Hs0].
    intros x Hx. unfold below in Hx. apply Hframe; rewrite ?length_app; cbn; lia.
Qed.

Lemma dense_nest names v : dense v = true -> dense (nest names v) = true.
Proof.
  intros Hv. induction names as [|k ks IH]; [exact Hv|].
  cbn [nest]. rewrite ReprShape.dense_obj. cbn [forallb snd]. now rewrite IH.
Qed.

Lemma literal_no_access k : literal k -> is_array_access k = false.
Proof. intros [Hs Hn]. now apply WalkAgrees.literal_is_no_access. Qed.

(** The walk along names that all exist, down to the last token. *)
Lemma walk_names names : forall s sv,
  names <> [] ->
  Forall literal names ->
  reach s names = Some sv ->
  Spec.project_tokens names s false = Ok (nest names sv).
Proof.
  induction names as [|k ks IH]; intros s sv Hne Hlit Hreach; [congruence|].
  inversion Hlit as [|? ? [Hstar Hnan] Hlit']; subst.
  cbn [reach] in Hreach.
  destruct (Spec.named s k) as [sk|] eqn:Esk; [|discriminate].
  cbn [Spec.project_tokens]. rewrite Hstar, Hnan, Esk. cbn [negb].
  destruct ks as [|k2 ks'].
  - cbn in Hreach. injection Hreach as ->. reflexivity.
  - inversion Hlit' as [|? ? Hk2 _]; subst.
    cbn [hd]. rewrite (literal_no_access k2 Hk2).
    rewrite (IH sk sv ltac:(discriminate) Hlit' Hreach). reflexivity.
Qed.

(** The walk along names that all exist, and on with other tokens. *)
Lemma walk_prefix names : forall s sk rest c,
  names <> [] ->
  Forall literal names ->
  reach s names = Some sk ->
  rest <> [] ->
  Spec.project_tokens rest sk (is_array_access (hd EmptyString rest)) = Ok c ->
  Spec.project_tokens (names ++ rest) s false = Ok (nest names c).
Proof.
  induction names as [|k ks IH]; intros s sk rest c Hne Hlit Hreach Hrest Hc;
    [congruence|].
  inversion Hlit as [|? ? [Hstar Hnan] Hlit']; subst.
  cbn [reach] in Hreach.
  destruct (Spec.named s k) as [s1|] eqn:Es1; [|discriminate].
  change ((k :: ks) ++ rest) with (k :: (ks ++ rest)).
  cbn [Spec.project_tokens]. rewrite Hstar, Hnan, Es1. cbn [negb].
  destruct ks as [|k2 ks'].
  - cbn in Hreach. injection Hreach as ->. cbn [app].
    destruct rest as [|r rest']; [congruence|].
    rewrite Hc. reflexivity.
  - inversion Hlit' as [|? ? Hk2 _]; subst.
    change ((k2 :: ks') ++ rest) with (k2 :: (ks' ++ rest)).
    cbn [hd]. rewrite (literal_no_access k2 Hk2).
    change (k2 :: (ks' ++ rest)) with ((k2 :: ks') ++ rest).
    rewrite (IH s1 sk rest c ltac:(discriminate) Hlit' Hreach Hrest Hc).
    reflexivity.
Qed.

(** The Wildcard followed by one name, on an array. *)
Lemma walk_each_leaf leaf items :
  literal leaf ->
  Spec.project_tokens ["*"; leaf] (TArr items []) true
  = Ok (TArr (map (leaf_object leaf) items) []).
Proof.
  intros [Hstar Hnan].
  change (Spec.project_tokens ["*"; leaf] (TArr items []) true)
    with (let* elems :=
            Spec.collect
              (map (fun si => Spec.project_tokens [leaf] si false) items) in
          Ok (TArr elems [])).
  rewrite (WildcardFacts.collect_all
             (fun si => Spec.project_tokens [leaf] si false) items
             (map (leaf_object leaf) items)); [reflexivity|].
  apply Forall2_fmap_r. apply Forall_Forall2_diag. apply Forall_forall.
  intros item _. unfold compose, leaf_object.
  cbn [Spec.project_tokens]. rewrite Hstar, Hnan. cbn [negb].
  destruct (Spec.named item leaf); reflexivity.
Qed.

End ProjectFacts.







(** ** Specs that are top-level property names *)

Module PlainNames.

Import JsonFieldFilter FreshWalk StoreSteps.

Lemma parsePath_name k : plain_name k -> parsePath k = [k].
Proof.
  intros (Hdot & Hopen & _). unfold parsePath.
  rewrite PathFacts.split_none by exact Hdot.
  cbn [map concat]. rewrite app_nil_r.
  now apply PathFacts.parseSegment_plain.
Qed.

Lemma assoc_replace {A} k k' (v : A) ps :
  Props.assoc k' ps <> None ->
  Props.assoc k (Props.replace k' v ps)
  = if String.eqb k k' then Some v else Props.assoc k ps.
Proof.
  induction ps as [|[k1 v1] ps IH]; cbn; [congruence|].
  destruct (String.eqb_spec k' k1) as [->|Hne]; intros Hsome.
  - cbn. now destruct (String.eqb k k1).
  - cbn. destruct (String.eqb_spec k k1) as [->|Hne1].
    + destruct (String.eqb_spec k1 k') as [->|_]; [congruence | reflexivity].
    + now apply IH.
Qed.

Lemma assoc_insert_new {A} k k' (v : A) ps :
  Props.assoc k' ps = None ->
  Props.assoc k (Props.insert_new k' v ps)
  = if String.eqb k k' then Some v else Props.assoc k ps.
Proof.
  induction ps as [|[k1 v1] ps IH]; cbn [Props.insert_new Props.assoc].
  - intros _. now destruct (String.eqb k k').
  - destruct (String.eqb_spec k' k1) as [->|Hne]; [discriminate|]. intros Hnone.
    assert (Hstep : Props.assoc k ((k1, v1) :: Props.insert_new k' v ps)
                    = if String.eqb k k' then Some v
                      else if String.eqb k k1 then Some v1 else Props.assoc k ps).
    { cbn [Props.assoc]. rewrite (IH Hnone).
      destruct (String.eqb_spec k k1) as [->|_]; [|reflexivity].
      destruct (String.eqb_spec k1 k') as [->|_]; [congruence | reflexivity]. }
    destruct (Props.canonical_index k') as [n|]; [|exact Hstep].
    destruct (Props.canonical_index k1) as [n1|];
      [destruct (n <? n1)%N; [reflexivity | exact Hstep] | reflexivity].
Qed.

(** Reading a property after an assignment. *)
Lemma assoc_upsert {A} k k' (v : A) ps :
  Props.assoc k (Props.upsert k' v ps)
  = if String.eqb k k' then Some v else Props.assoc k ps.
Proof.
  unfold Props.upsert. destruct (Props.assoc k' ps) eqn:E.
  - apply assoc_replace. congruence.
  - now apply assoc_insert_new.
Qed.

Lemma assoc_pick {A} k ks (src : list (string * A)) : forall acc,
  Props.assoc k (pick ks src acc)
  = match (if existsb (String.eqb k) ks then Props.assoc k src else None) with
    | Some v => Some v
    | None => Props.assoc k acc
    end.
Proof.
  unfold pick. induction ks as [|k' ks IH]; intros acc; [reflexivity|].
  cbn [fold_left existsb]. rewrite IH.
  destruct (String.eqb_spec k k') as [->|Hne]; cbn [orb].
  - destruct (Props.assoc k' src) as [t|] eqn:Et.
    + rewrite assoc_upsert, String.eqb_refl.
      now destruct (existsb (String.eqb k') ks).
    + now destruct (existsb (String.eqb k') ks).
  - destruct (Props.assoc k' src) as [t|] eqn:Et; [|reflexivity].
    rewrite assoc_upsert.
    destruct (String.eqb_spec k k') as [|_]; [contradiction | reflexivity].
Qed.

Section Related.

Context {A B : Type} (R : A -> B -> Prop).

Local Abbreviation RP := (fun p q => fst p = fst q /\ R (snd p) (snd q)).

Lemma assoc_related k ps qs :
  Forall2 RP ps qs ->
  match Props.assoc k ps, Props.assoc k qs with
  | Some v, Some t => R v t
  | None, None => True
  | _, _ => False
  end.
Proof.
  induction 1 as [|[k1 v1] [k2 t2] ps qs [Hk Hv] _ IH]; cbn; [exact I|].
  cbn in Hk, Hv. subst k2. destruct (String.eqb k k1); [exact Hv | exact IH].
Qed.

Lemma replace_related k v t ps qs :
  R v t -> Forall2 RP ps qs ->
  Forall2 RP (Props.replace k v ps) (Props.replace k t qs).
Proof.
  intros Hvt. induction 1 as [|[k1 v1] [k2 t2] ps qs [Hk Hv] Hrest IH];
    cbn; [constructor|].
  cbn in Hk, Hv. subst k2.
  destruct (String.eqb k k1); constructor; try assumption; now split.
Qed.

Lemma insert_new_related k v t ps qs :
  R v t -> Forall2 RP ps qs ->
  Forall2 RP (Props.insert_new k v ps) (Props.insert_new k t qs).
Proof.
  intros Hvt. induction 1 as [|[k1 v1] [k2 t2] ps qs [Hk Hv] Hrest IH];
    cbn [Props.insert_new].
  - constructor; [now split | constructor].
  - cbn in Hk, Hv. subst k2.
    assert (Hhere : Forall2 RP ((k, v) :: (k1, v1) :: ps) ((k, t) :: (k1, t2) :: qs))
      by (repeat constructor; assumption).
    assert (Hlater : Forall2 RP ((k1, v1) :: Props.insert_new k v ps)
                                ((k1, t2) :: Props.insert_new k t qs))
      by (constructor; [now split | exact IH]).
    destruct (Props.canonical_index k); [|exact Hlater].
    destruct (Props.canonical_index k1); [|exact Hhere].
    destruct (_ <? _)%N; assumption.
Qed.

Lemma upsert_related k v t ps qs :
  R v t -> Forall2 RP ps qs ->
  Forall2 RP (Props.upsert k v ps) (Props.upsert k t qs).
Proof.
  intros Hvt Hall. unfold Props.upsert.
  pose proof (assoc_related k ps qs Hall) as Ha.
  destruct (Props.assoc k ps), (Props.assoc k qs); try contradiction.
  - now apply replace_related.
  - now apply insert_new_related.
Qed.

Lemma pick_related ks src tsrc : forall acc tacc,
  Forall2 RP src tsrc -> Forall2 RP acc tacc ->
  Forall2 RP (pick ks src acc) (pick ks tsrc tacc).
Proof.
  unfold pick. induction ks as [|k ks IH]; intros acc tacc Hsrc Hacc;
    [exact Hacc|].
  cbn [fold_left]. apply IH; [exact Hsrc|].
  pose proof (assoc_related k src tsrc Hsrc) as Ha.
  destruct (Props.assoc k src), (Props.assoc k tsrc); try contradiction;
    [now apply upsert_related | exact Hacc].
Qed.

End Related.

(** The values of a selection are values of the source under the names
    selected. *)
Lemma pick_values {A} k (v : A) ks src : forall acc,
  Props.assoc k (pick ks src acc) = Some v ->
  Props.assoc k acc = Some v \/ (In k ks /\ Props.assoc k src = Some v).
Proof.
  intros acc. rewrite assoc_pick.
  destruct (existsb (String.eqb k) ks) eqn:E.
  - destruct (Props.assoc k src) as [t|] eqn:Et; [|now left].
    intros H. injection H as ->. right. split; [|reflexivity].
    apply existsb_exists in E. destruct E as (k' & Hin & Hk').
    apply String.eqb_eq in Hk'. now subst k'.
  - now left.
Qed.

Lemma replace_in {A} k (v : A) p ps :
  In p (Props.replace k v ps) -> p = (k, v) \/ In p ps.
Proof.
  induction ps as [|[k1 v1] ps IH]; cbn; [tauto|].
  destruct (String.eqb k k1); cbn; intuition auto.
Qed.

Lemma insert_new_in {A} k (v : A) p ps :
  In p (Props.insert_new k v ps) -> p = (k, v) \/ In p ps.
Proof.
  induction ps as [|[k1 v1] ps IH]; cbn [Props.insert_new].
  - cbn. intuition auto.
  - assert (Hlater : In p ((k1, v1) :: Props.insert_new k v ps) ->
                     p = (k, v) \/ In p ((k1, v1) :: ps))
      by (cbn; intuition auto).
    assert (Hhere : In p ((k, v) :: (k1, v1) :: ps) ->
                    p = (k, v) \/ In p ((k1, v1) :: ps))
      by (cbn; intuition auto).
    destruct (Props.canonical_index k); [|exact Hlater].
    destruct (Props.canonical_index k1); [|exact Hhere].
    destruct (_ <? _)%N; assumption.
Qed.

Lemma upsert_in {A} k (v : A) p ps :
  In p (Props.upsert k v ps) -> p = (k, v) \/ In p ps.
Proof.
  unfold Props.upsert. destruct (Props.assoc k ps);
    [apply replace_in | apply insert_new_in].
Qed.

(** The pairs of a selection come from the source, under the names
    selected. *)
Lemma pick_in {A} k (t : A) ks src : forall acc,
  In (k, t) (pick ks src acc) ->
  In (k, t) acc \/ (In k ks /\ Props.assoc k src = Some t).
Proof.
  unfold pick. induction ks as [|k' ks IH]; intros acc; [now left|].
  cbn [fold_left]. intros Hin. destruct (IH _ Hin) as [Hacc | [Hk Hsrc]].
  - destruct (Props.assoc k' src) as [t'|] eqn:Et; [|now left].
    destruct (upsert_in _ _ _ _ Hacc) as [Heq | Hold]; [|now left].
    injection Heq as -> ->. right. split; [now left | exact Et].
  - right. split; [now right | exact Hsrc].
Qed.

(** The Specs one after the other, each a name: the target gets the
    properties selected, in one object, and nothing else changes. *)
Lemma apply_names ks ps ls lt : forall (h : heap) tps,
  Forall plain_name ks ->
  ls <> lt ->
  h !! ls = Some (mkObj false [] ps) ->
  h !! lt = Some (mkObj false [] tps) ->
  applySpecs ks h (VRef ls) (VRef lt)
  = Ok (Store.set lt (mkObj false [] (pick ks ps tps)) h).
Proof.
  induction ks as [|k ks IH]; intros h tps Hplain Hne Hls Hlt.
  - cbn. unfold Store.set. now rewrite list_insert_id.
  - inversion Hplain as [|? ? Hk Hplain']; subst.
    unfold applySpecs. cbn [fold_left bind]. unfold extractField at 2.
    rewrite (parsePath_name k Hk).
    destruct Hk as (_ & _ & Hstar & Hnan).
    cbn [buildStructureFromPath]. rewrite Hstar, Hnan. cbn [negb].
    rewrite (get_lookup _ _ _ Hls).
    unfold Obj.get_named at 1. cbn [is_array andb props].
    unfold pick. cbn [fold_left].
    destruct (Props.assoc k ps) as [v|] eqn:Ev.
    + unfold assign_named, Obj.set_named. rewrite (get_lookup _ _ _ Hlt).
      cbn [is_array andb bind elems props].
      set (h2 := Store.set lt (mkObj false [] (Props.upsert k v tps)) h).
      assert (Hlt' : lt < length h) by (eapply lookup_lt; eassumption).
      pose proof (IH h2 (Props.upsert k v tps) Hplain' Hne) as Hnext.
      unfold applySpecs in Hnext. rewrite Hnext.
      * unfold h2, Store.set, pick. now rewrite list_insert_insert_eq.
      * unfold h2. rewrite lookup_set_ne by congruence. exact Hls.
      * unfold h2. now apply lookup_set_eq.
    + pose proof (IH h tps Hplain' Hne Hls Hlt) as Hnext.
      unfold applySpecs in Hnext. exact Hnext.
Qed.

(** The projection of an object by names. *)
Lemma project_names ks fields :
  Forall plain_name ks ->
  (forall k t, In k ks -> Props.assoc k fields = Some t -> dense t = true) ->
  project ks (TObj fields) = Ok (TObj fields, TObj (select ks fields)).
Proof.
  intros Hplain Hdense.
  destruct (ProjectFacts.alloc_root (TObj fields) I) as (ls & h & Ha & Hs).
  inversion Hs as [| | | | | |? ps ? HP Hl Hps]; subst.
  unfold below in HP.
  set (h0 := h ++ [empty_object]).
  set (h2 := Store.set (length h) (mkObj false [] (pick ks ps [])) h0).
  assert (Hlen0 : length h0 = S (length h))
    by (unfold h0; rewrite length_app; cbn; lia).
  assert (Hold : forall x, x < length h -> h2 !! x = h !! x).
  { intros x Hx. unfold h2. rewrite lookup_set_ne by lia.
    now apply lookup_alloc_old. }
  assert (Hrun : applySpecs ks h0 (VRef ls) (VRef (length h)) = Ok h2).
  { apply apply_names; [exact Hplain | lia | |].
    - unfold h0. rewrite lookup_alloc_old by exact HP. exact Hl.
    - unfold h0. apply list_lookup_middle. reflexivity. }
  assert (Hsrc : repr (below (length h)) h2 (VRef ls) (TObj fields)).
  { eapply ReprFacts.repr_frame; [|exact Hs]. intros x Hx. now apply Hold. }
  assert (Htgt : repr (below (length h2)) h2 (VRef (length h))
                      (TObj (select ks fields))).
  { assert (Hlen2 : length h2 = S (length h))
      by (unfold h2; rewrite length_set; exact Hlen0).
    eapply repr_obj.
    - unfold below. lia.
    - unfold h2. apply lookup_set_eq. lia.
    - unfold select.
      eapply Forall2_impl;
        [apply (pick_related (repr (below (length h)) h) ks ps fields [] []);
         [exact Hps | constructor]|].
      intros p q [Hk Hpq]. split; [exact Hk|].
      eapply ReprFacts.repr_move; [| |exact Hpq].
      + unfold below. intros x Hx. lia.
      + intros x Hx. now apply Hold. }
  assert (Hd : dense_inside (TObj (select ks fields)) = true).
  { rewrite ReprShape.dense_inside_obj. apply forallb_forall.
    intros [k t] Hin. cbn [snd].
    unfold select in Hin.
    destruct (pick_in _ _ _ _ _ Hin) as [[] | [Hk Hsome]].
    eapply Hdense; eassumption. }
  eapply (ProjectFacts.project_ok ks (TObj fields) ls h h2 (length h));
    [exact Ha | | exact Hsrc | exact Htgt].
  unfold _transform, Store.alloc. fold h0. rewrite Hrun. cbn [bind].
  rewrite (PruneDense.cleanup_dense (S (length h2)) _ h2 (length h) _ Htgt Hd);
    [reflexivity|].
  pose proof (ReprShape.repr_height _ _ _ _ Htgt). lia.
Qed.

End PlainNames.



(** ** The orchestrator and the chunks of the body *)

Module ChunkFacts.

Import JsonParser.

(** Two adjacent chunks anywhere in the input are handled as their
    concatenation. *)
Lemma run_merge s (before after : list string) (a b : string) :
  run s (before ++ a :: b :: after) = run s (before ++ (a +:+ b) :: after).
Proof.
  unfold run. rewrite !fold_left_app. cbn [fold_left].
  now rewrite JsonParserFacts._transform_app.
Qed.

End ChunkFacts.


(** ** Specs with different first names *)

Module Compose.

Import JsonFieldFilter FreshWalk StoreSteps.

Local Abbreviation RP R := (fun p q => fst p = fst q /\ R (snd p) (snd q)).

Lemma digits_value_digits l : forall acc n,
  StringToNumber.digits_value 10 acc l = Some n ->
  Forall (fun c => StringToNumber.is_digit c = true) l.
Proof.
  induction l as [|c l IH]; intros acc n H; [constructor|].
  cbn [StringToNumber.digits_value] in H.
  destruct (StringToNumber.digit_of 10 c) as [d|] eqn:Ed; [|discriminate].
  constructor; [|eapply IH; exact H].
  unfold StringToNumber.digit_of in Ed. unfold StringToNumber.is_digit.
  destruct ((48 <=? StringToNumber.code c) && (StringToNumber.code c <=? 57))%N
    eqn:E09; [reflexivity|].
  exfalso.
  destruct ((97 <=? StringToNumber.code c) && (StringToNumber.code c <=? 102))%N
    eqn:Eaf.
  - apply andb_prop in Eaf. destruct Eaf as [H1 H2].
    apply N.leb_le in H1, H2.
    destruct (StringToNumber.code c - 87 <? 10)%N eqn:El; [|discriminate].
    apply N.ltb_lt in El. lia.
  - destruct ((65 <=? StringToNumber.code c) && (StringToNumber.code c <=? 70))%N
      eqn:EAF; [|discriminate].
    apply andb_prop in EAF. destruct EAF as [H1 H2].
    apply N.leb_le in H1, H2.
    destruct (StringToNumber.code c - 55 <? 10)%N eqn:El; [|discriminate].
    apply N.ltb_lt in El. lia.
Qed.

(** A Literal token is not an array index. *)
Lemma literal_not_index k : literal k -> Props.canonical_index k = None.
Proof.
  intros [_ Hnan]. unfold Props.canonical_index.
  destruct (StringToNumber.all_digits 10 (JsString.chars k)) as [n|] eqn:E;
    [|reflexivity].
  exfalso.
  assert (Hd : NumericParts.digits (JsString.chars k)).
  { unfold StringToNumber.all_digits in E.
    destruct (JsString.chars k) as [|c l] eqn:Ek; [discriminate|].
    split; [discriminate|]. eapply digits_value_digits. exact E. }
  rewrite (NumericParts.Number_digits k Hd) in Hnan. discriminate.
Qed.

Lemma insert_new_last {A} k (v : A) ps :
  Props.canonical_index k = None -> Props.insert_new k v ps = ps ++ [(k, v)].
Proof.
  intros Hk. induction ps as [|[k1 v1] ps IH]; [reflexivity|].
  cbn [Props.insert_new]. rewrite Hk, IH. reflexivity.
Qed.

Lemma assoc_absent {A} k (ps : list (string * A)) :
  ~ In k (map fst ps) -> Props.assoc k ps = None.
Proof.
  induction ps as [|[k1 v1] ps IH]; cbn; [reflexivity|].
  intros H. destruct (String.eqb_spec k k1) as [->|_]; [tauto|].
  apply IH. tauto.
Qed.

Lemma upsert_new {A} k (v : A) ps :
  literal k -> ~ In k (map fst ps) -> Props.upsert k v ps = ps ++ [(k, v)].
Proof.
  intros Hk Hin. unfold Props.upsert. rewrite (assoc_absent k ps Hin).
  apply insert_new_last. now apply literal_not_index.
Qed.

(** One Spec whose first name the target does not have yet. *)
Lemma step_root k rest (h : heap) n0 ls s lt tps facc t :
  literal k ->
  repr (below n0) h (VRef ls) s ->
  is_json s = true ->
  n0 <= lt -> lt < length h ->
  h !! lt = Some (mkObj false [] tps) ->
  ~ In k (map fst tps) ->
  Forall2 (RP (repr (under n0 lt (length h)) h)) tps facc ->
  Spec.project_tokens (k :: rest) s false = Ok t ->
  exists (h' : heap) tps',
    buildStructureFromPath (k :: rest) h (VRef ls) (VRef lt) = Ok h'
    /\ length h <= length h'
    /\ (forall l, l < n0 -> h' !! l = h !! l)
    /\ h' !! lt = Some (mkObj false [] tps')
    /\ (forall x, In x (map fst tps') -> In x (map fst tps) \/ x = k)
    /\ Forall2 (RP (repr (under n0 lt (length h')) h')) tps' (facc ++ fields_of t).
Proof.
  intros Hk Hs Hjson Hn Hlt Htgt Hnew Hkids Hproj.
  pose proof Hk as [Hstar Hnan].
  cbn [Spec.project_tokens] in Hproj. rewrite Hstar, Hnan in Hproj.
  cbn [negb] in Hproj.
  cbn [buildStructureFromPath]. rewrite Hstar, Hnan. cbn [negb].
  pose proof (ReprFacts.repr_named _ _ _ _ k Hs) as Hnamed.
  destruct (Spec.named s k) as [sv|] eqn:Esv.
  - destruct (Obj.get_named (Store.get h ls) k) as [v|] eqn:Ev; [|contradiction].
    assert (Hjsv : is_json sv = true)
      by (eapply ReprFacts.is_json_named; eassumption).
    destruct rest as [|next rest'].
    + (* the last token: the value itself *)
      injection Hproj as <-.
      unfold assign_named, Obj.set_named. rewrite (get_lookup _ _ _ Htgt).
      cbn [is_array andb bind elems props].
      rewrite (upsert_new k v tps Hk Hnew).
      eexists _, _. split; [reflexivity|].
      rewrite length_set. split; [lia|]. split; [|split; [|split]].
      * intros l Hl. apply lookup_set_ne. lia.
      * now apply lookup_set_eq.
      * intros x Hx. rewrite map_app in Hx. apply in_app_or in Hx.
        destruct Hx as [Hx|[<-|[]]]; auto.
      * cbn [fields_of Spec.put_named]. apply Forall2_app.
        -- eapply Forall2_impl; [exact Hkids|]. intros p q [Hpq Hr].
           split; [exact Hpq|].
           eapply ReprFacts.repr_frame; [|exact Hr].
           unfold under. intros x Hx. apply lookup_set_ne. lia.
        -- repeat constructor. cbn [snd].
           eapply ReprFacts.repr_move; [| |exact Hnamed].
           ++ unfold below, under. intros x Hx. now left.
           ++ unfold below. intros x Hx. apply lookup_set_ne. lia.
    + (* more tokens: a new container, and the walk into it *)
      unfold target_named at 1. rewrite (get_lookup _ _ _ Htgt).
      unfold Obj.get_named at 1. cbn [is_array andb props].
      rewrite (assoc_absent k tps Hnew). cbn [Obj.read bind truthy negb hd].
      unfold Store.alloc.
      change (if is_array_access next then empty_array else empty_object)
        with (fresh_obj (is_array_access next)).
      set (kind := is_array_access next) in *.
      set (h1 := h ++ [fresh_obj kind]).
      assert (Htgt1 : h1 !! lt = Some (mkObj false [] tps))
        by (unfold h1; rewrite lookup_alloc_old by exact Hlt; exact Htgt).
      unfold assign_named, Obj.set_named. rewrite (get_lookup _ _ _ Htgt1).
      cbn [is_array andb bind elems props].
      rewrite (upsert_new k (VRef (length h)) tps Hk Hnew).
      set (h2 := Store.set lt (mkObj false [] (tps ++ [(k, VRef (length h))])) h1).
      assert (Hlen1 : length h1 = S (length h))
        by (unfold h1; rewrite length_app; cbn; lia).
      assert (Hlen2 : length h2 = S (length h))
        by (unfold h2; rewrite length_set; exact Hlen1).
      assert (Htgt2 : h2 !! lt
                      = Some (mkObj false [] (tps ++ [(k, VRef (length h))])))
        by (unfold h2; apply lookup_set_eq; lia).
      assert (Hold2 : forall x, x < length h -> x <> lt -> h2 !! x = h !! x).
      { intros x Hx Hne. unfold h2. rewrite lookup_set_ne by lia.
        unfold h1. now apply lookup_alloc_old. }
      unfold target_named. rewrite (get_lookup _ _ _ Htgt2).
      unfold Obj.get_named. cbn [is_array andb props].
      rewrite <- (upsert_new k (VRef (length h)) tps Hk Hnew).
      rewrite PlainNames.assoc_upsert, String.eqb_refl. cbn [Obj.read bind].
      assert (Hv2 : repr (below n0) h2 v sv).
      { eapply ReprFacts.repr_frame; [|exact Hnamed].
        unfold below. intros x Hx. apply Hold2; lia. }
      assert (Hc2 : h2 !! length h = Some (fresh_obj kind)).
      { unfold h2. rewrite lookup_set_ne by lia. unfold h1.
        apply list_lookup_middle. reflexivity. }
      pose proof (WalkAgrees.walk_agrees (next :: rest') h2 n0 v sv (length h)
                    kind Hv2 Hjsv ltac:(lia) Hc2
                    ltac:(intros E; exact E)) as Hwalk.
      cbn [hd] in Hproj. fold kind in Hproj.
      destruct (Spec.project_tokens (next :: rest') sv kind) as [c|e];
        [|discriminate Hproj].
      cbn [bind] in Hproj. injection Hproj as <-.
      destruct Hwalk as (h' & Hrun & Hlen' & Hframe & Hrepr).
      exists h', (tps ++ [(k, VRef (length h))]).
      split; [exact Hrun|]. split; [lia|]. split; [|split; [|split]].
      * intros l Hl. etransitivity; [apply Hframe; lia|]. apply Hold2; lia.
      * etransitivity; [apply Hframe; lia|]. exact Htgt2.
      * intros x Hx. rewrite map_app in Hx. apply in_app_or in Hx.
        destruct Hx as [Hx|[<-|[]]]; auto.
      * cbn [fields_of Spec.put_named]. apply Forall2_app.
        -- eapply Forall2_impl; [exact Hkids|]. intros p q [Hpq Hr].
           split; [exact Hpq|].
           eapply ReprFacts.repr_move; [| |exact Hr].
           ++ unfold under. intros x Hx. lia.
           ++ unfold under. intros x Hx.
              etransitivity; [apply Hframe; lia|]. apply Hold2; lia.
        -- repeat constructor. cbn [snd].
           eapply ReprFacts.repr_weaken; [|exact Hrepr].
           unfold built, under. intros x Hx. lia.
  - (* the source has no such property *)
    destruct (Obj.get_named (Store.get h ls) k); [contradiction|].
    injection Hproj as <-. cbn [fields_of Spec.fresh]. rewrite app_nil_r.
    exists h, tps. repeat split; auto.
Qed.

(** The Specs one after the other. *)
Lemma apply_roots specs : forall ts (h : heap) n0 ls s lt tps facc,
  Forall2 (fun spec t =>
             Spec.project_tokens (parsePath spec) s false = Ok t) specs ts ->
  Forall (fun spec => literal (root_token spec)) specs ->
  NoDup (map root_token specs) ->
  (forall spec, In spec specs -> ~ In (root_token spec) (map fst tps)) ->
  repr (below n0) h (VRef ls) s ->
  is_json s = true ->
  n0 <= lt -> lt < length h ->
  h !! lt = Some (mkObj false [] tps) ->
  Forall2 (RP (repr (under n0 lt (length h)) h)) tps facc ->
  exists (h' : heap) tps',
    applySpecs specs h (VRef ls) (VRef lt) = Ok h'
    /\ length h <= length h'
    /\ (forall l, l < n0 -> h' !! l = h !! l)
    /\ h' !! lt = Some (mkObj false [] tps')
    /\ Forall2 (RP (repr (under n0 lt (length h')) h')) tps'
               (facc ++ concat (map fields_of ts)).
Proof.
  induction specs as [|spec specs IH];
    intros ts h n0 ls s lt tps facc Hall Hlit Hdup Hnew Hs Hjson Hn Hlt Htgt Hkids.
  - inversion Hall; subst. cbn. rewrite app_nil_r.
    exists h, tps. repeat split; auto.
  - inversion Hall as [|? t ? ts' Hone Hrest]; subst.
    inversion Hlit as [|? ? Hk Hlit']; subst.
    inversion Hdup as [|? ? Hfresh Hdup']; subst.
    destruct (parsePath spec) as [|k rest] eqn:Eparts.
    { unfold root_token in Hk. rewrite Eparts in Hk. cbn in Hk.
      destruct Hk as [_ Hk]. discriminate Hk. }
    assert (Hroot : root_token spec = k)
      by (unfold root_token; now rewrite Eparts).
    rewrite Hroot in Hk, Hfresh.
    assert (Hknew : ~ In k (map fst tps)).
    { specialize (Hnew spec ltac:(now left)). now rewrite Hroot in Hnew. }
    destruct (step_root k rest h n0 ls s lt tps facc t Hk Hs Hjson Hn Hlt Htgt
                Hknew Hkids Hone)
      as (h1 & tps1 & Hrun1 & Hlen1 & Hsrc1 & Htgt1 & Hkeys1 & Hkids1).
    assert (Hs1 : repr (below n0) h1 (VRef ls) s).
    { eapply ReprFacts.repr_frame; [|exact Hs]. exact Hsrc1. }
    assert (Hnew1 : forall spec', In spec' specs ->
                                  ~ In (root_token spec') (map fst tps1)).
    { intros spec' Hin' Hx. destruct (Hkeys1 _ Hx) as [Hold|Heq].
      - exact (Hnew spec' (or_intror Hin') Hold).
      - apply Hfresh. rewrite <- Heq. apply list_elem_of_In. now apply in_map. }
    destruct (IH ts' h1 n0 ls s lt tps1 (facc ++ fields_of t) Hrest Hlit' Hdup'
                Hnew1 Hs1 Hjson Hn ltac:(lia) Htgt1 Hkids1)
      as (h' & tps' & Hrun & Hlen & Hsrc & Htgt' & Hkids').
    exists h', tps'.
    split.
    { unfold applySpecs. cbn [fold_left bind]. unfold extractField at 2.
      rewrite Eparts, Hrun1. exact Hrun. }
    split; [lia|]. split.
    { intros l Hl. etransitivity; [now apply Hsrc | now apply Hsrc1]. }
    split; [exact Htgt'|].
    cbn [map concat]. now rewrite app_assoc.
Qed.

(** The projection by Specs with different first names. *)
Lemma project_roots specs ts s :
  is_json s = true ->
  container s ->
  Forall2 (fun spec t =>
             Spec.project_tokens (parsePath spec) s false = Ok t) specs ts ->
  Forall (fun spec => literal (root_token spec)) specs ->
  NoDup (map root_token specs) ->
  dense_inside (TObj (concat (map fields_of ts))) = true ->
  project specs s = Ok (s, TObj (concat (map fields_of ts))).
Proof.
  intros Hjson Hc Hall Hlit Hdup Hd.
  destruct (ProjectFacts.alloc_root s Hc) as (ls & h & Ha & Hs).
  set (h0 := h ++ [empty_object]).
  assert (Hs0 : repr (below (length h)) h0 (VRef ls) s).
  { eapply ReprFacts.repr_frame; [|exact Hs].
    unfold below. intros x Hx. now apply lookup_alloc_old. }
  destruct (apply_roots specs ts h0 (length h) ls s (length h) [] []
              Hall Hlit Hdup ltac:(intros ? ? [])
              Hs0 Hjson (le_n _)
              ltac:(unfold h0; rewrite length_app; cbn; lia)
              ltac:(unfold h0; apply list_lookup_middle; reflexivity)
              ltac:(constructor))
    as (h1 & tps & Hrun & Hlen & Hsrc & Htgt & Hkids).
  cbn [app] in Hkids.
  assert (Hlt1 : length h < length h1)
    by (unfold h0 in Hlen; rewrite length_app in Hlen; cbn in Hlen; lia).
  assert (Hrepr : repr (below (length h1)) h1 (VRef (length h))
                       (TObj (concat (map fields_of ts)))).
  { eapply repr_obj; [exact Hlt1 | exact Htgt |].
    eapply Forall2_impl; [exact Hkids|]. intros p q [Hpq Hr].
    split; [exact Hpq|].
    eapply ReprFacts.repr_weaken; [|exact Hr].
    unfold under, below. intros x Hx. lia. }
  eapply (ProjectFacts.project_ok specs s ls h h1 (length h));
    [exact Ha | | | exact Hrepr].
  - unfold _transform, Store.alloc. fold h0. rewrite Hrun. cbn [bind].
    rewrite (PruneDense.cleanup_dense (S (length h1)) _ h1 (length h) _ Hrepr Hd);
      [reflexivity|].
    pose proof (ReprShape.repr_height _ _ _ _ Hrepr). lia.
  - eapply ReprFacts.repr_frame; [|exact Hs0]. exact Hsrc.
Qed.

End Compose.



(** ** What the projector does not touch *)

(** X16.  Elements that are no objects go through the filter as they
    are: for a run of booleans, numbers and strings the values collected
    are the values parsed, whatever the Specs and the hook. *)
Theorem scalars_pass_unfiltered :
  forall (cfg : AxiosResponseStreamFilter.config) (values : list tree),
    Forall scalar values ->
    AxiosResponseStreamFilter.collect cfg values = Ok values.
Proof.
  intros cfg values Hall.
  induction Hall as [|v values Hv _ IH]; [reflexivity|].
  cbn [AxiosResponseStreamFilter.collect]. rewrite IH.
  destruct v; try contradiction; reflexivity.
Qed.

Lemma scalars_pass_unfiltered_witness :
  AxiosResponseStreamFilter.collect
    (AxiosResponseStreamFilter.mkConfig ["id"] None)
    [TNum (num 1); TStr "two"; TBool true]
  = Ok [TNum (num 1); TStr "two"; TBool true].
Proof.
  apply scalars_pass_unfiltered. repeat constructor.
Defined.

(** X17.  The walk of one Spec into a new target writes nowhere in the
    source: whatever the Spec, every object that was in the store before
    the target was made is as it was once [extractField] has returned,
    and the source value stands for the same tree. *)
Theorem one_spec_walk_leaves_source_alone :
  forall (spec : string) (h h' : heap) (n0 : nat) (ls : loc) (s : tree),
    repr (below n0) h (VRef ls) s ->
    is_json s = true ->
    n0 <= length h ->
    JsonFieldFilter.extractField (h ++ [empty_object]) (VRef ls) spec
                                 (VRef (length h)) = Ok h' ->
    (forall l, l < length h -> h' !! l = h !! l)
    /\ repr (below n0) h' (VRef ls) s.
Proof.
  intros spec h h' n0 ls s Hs Hjson Hn Hrun.
  assert (Hs0 : repr (below n0) (h ++ [empty_object]) (VRef ls) s).
  { eapply ReprFacts.repr_frame; [|exact Hs].
    unfold below. intros x Hx. apply StoreSteps.lookup_alloc_old. lia. }
  pose proof (WalkAgrees.walk_agrees (JsonFieldFilter.parsePath spec)
                (h ++ [empty_object]) n0 (VRef ls) s (length h) false
                Hs0 Hjson Hn
                ltac:(apply list_lookup_middle; reflexivity)
                ltac:(intros E; discriminate E)) as Hwalk.
  unfold JsonFieldFilter.extractField in Hrun.
  destruct (Spec.project_tokens (JsonFieldFilter.parsePath spec) s false)
    as [t|e]; [|congruence].
  destruct Hwalk as (h1 & Hrun1 & Hlen & Hframe & _).
  rewrite Hrun in Hrun1. injection Hrun1 as <-.
  assert (Hold : forall l, l < length h -> h' !! l = h !! l).
  { intros l Hl.
    etransitivity; [apply Hframe; rewrite ?length_app; cbn; lia|].
    now apply StoreSteps.lookup_alloc_old. }
  split; [exact Hold|].
  eapply ReprFacts.repr_frame; [|exact Hs].
  unfold below. intros x Hx. apply Hold. lia.
Qed.

Lemma one_spec_walk_leaves_source_alone_witness :
  exists h',
    JsonFieldFilter.extractField (person_store ++ [empty_object]) (VRef 3)
                                 "personBasic.names[*].firstName" (VRef 4)
    = Ok h'
    /\ (forall l, l < length person_store -> h' !! l = person_store !! l)
    /\ repr (below 4) h' (VRef 3) person.
Proof.
  eexists. split; [vm_compute; reflexivity|].
  apply (one_spec_walk_leaves_source_alone "personBasic.names[*].firstName"
           person_store _ 4 3 person).
  - exact Stops.person_in_store.
  - reflexivity.
  - vm_compute. lia.
  - vm_compute. reflexivity.
Defined.

(** ** What pruning never does *)

Module PruneKeeps.

Import JsonFieldFilter StoreSteps.

Lemma props_left_refl ps : props_left ps ps.
Proof. induction ps; constructor; assumption. Qed.

Lemma props_left_trans a b : props_left a b -> forall c, props_left b c -> props_left a c.
Proof.
  induction 1 as [|p a b Hab IH|k l a b Hab IH]; intros c Hbc.
  - exact Hbc.
  - inversion Hbc; subst; constructor; auto.
  - constructor. auto.
Qed.

Lemma props_left_names ps ps' x :
  props_left ps ps' -> In x (map fst ps') -> In x (map fst ps).
Proof.
  induction 1 as [|p a b Hab IH|k l a b Hab IH]; cbn; intuition auto.
Qed.

Lemma props_left_unique ps ps' :
  props_left ps ps' -> NoDup (map fst ps) -> NoDup (map fst ps').
Proof.
  induction 1 as [|p a b Hab IH|k l a b Hab IH]; cbn [map fst]; intros Hu.
  - exact Hu.
  - apply NoDup_cons in Hu. destruct Hu as [Hp Hu].
    apply NoDup_cons. split; [|now apply IH].
    intros Hin. apply Hp. apply list_elem_of_In.
    apply list_elem_of_In in Hin. eapply props_left_names; eassumption.
  - apply NoDup_cons in Hu. destruct Hu as [_ Hu]. now apply IH.
Qed.

(** A property that did not hold a reference reads the same. *)
Lemma assoc_left name ps ps' :
  props_left ps ps' ->
  (forall l, Props.assoc name ps <> Some (VRef l)) ->
  Props.assoc name ps' = Props.assoc name ps.
Proof.
  induction 1 as [|[k v] a b Hab IH|k l a b Hab IH]; cbn [Props.assoc];
    intros Hno; [reflexivity| |].
  - destruct (String.eqb name k); [reflexivity | now apply IH].
  - destruct (String.eqb_spec name k) as [->|_]; [now destruct (Hno l)|].
    now apply IH.
Qed.

(** With names that are unique, a property that held a reference holds
    it still or is gone. *)
Lemma assoc_left_ref name l ps ps' :
  props_left ps ps' ->
  NoDup (map fst ps) ->
  Props.assoc name ps = Some (VRef l) ->
  Props.assoc name ps' = Some (VRef l) \/ Props.assoc name ps' = None.
Proof.
  induction 1 as [|[k v] a b Hab IH|k l0 a b Hab IH]; cbn [Props.assoc map fst];
    intros Hu Ha; [discriminate| |].
  - destruct (String.eqb name k); [now left|].
    apply IH; [|exact Ha]. apply NoDup_cons in Hu. tauto.
  - apply NoDup_cons in Hu. destruct Hu as [Hk Hu].
    destruct (String.eqb_spec name k) as [->|_]; [|now apply IH].
    right. apply Compose.assoc_absent. intros Hin. apply Hk.
    apply list_elem_of_In. eapply props_left_names; eassumption.
Qed.

Lemma remove_absent {A} name (ps : list (string * A)) :
  Props.assoc name ps = None -> Props.remove name ps = ps.
Proof.
  induction ps as [|[k v] ps IH]; cbn; [reflexivity|].
  destruct (String.eqb name k); [discriminate|]. intros H. now rewrite IH.
Qed.

Lemma remove_left name l ps :
  Props.assoc name ps = Some (VRef l) -> props_left ps (Props.remove name ps).
Proof.
  induction ps as [|[k v] ps IH]; cbn; [discriminate|].
  destruct (String.eqb name k).
  - intros H. injection H as ->. constructor. apply props_left_refl.
  - intros H. constructor. now apply IH.
Qed.

Lemma elems_left_refl vs : elems_left vs vs.
Proof. induction vs; constructor; auto. Qed.

Lemma elems_left_trans a b c : elems_left a b -> elems_left b c -> elems_left a c.
Proof.
  unfold elems_left. intros Hab. revert c.
  induction Hab as [|x y a b Hxy _ IH]; intros c Hbc; inversion Hbc as [|y' z b' c' Hyz Hrest];
    subst; constructor; auto.
  destruct Hxy as [->|[-> [l ->]]]; [assumption|].
  destruct Hyz as [->|[-> [l' Hl']]]; [right; eauto | discriminate].
Qed.

Lemma elems_left_hole vs i l :
  (vs !! i = Some (VRef l) \/ vs !! i = Some VUndef \/ vs !! i = None) ->
  elems_left vs (<[i := VUndef]> vs).
Proof.
  unfold elems_left. revert i. induction vs as [|v vs IH]; intros i Hi.
  - constructor.
  - destruct i as [|i]; cbn.
    + constructor; [|apply elems_left_refl].
      cbn in Hi. destruct Hi as [Hi|[Hi|Hi]]; try discriminate;
        injection Hi as ->; [right; eauto | now left].
    + constructor; [now left | now apply IH].
Qed.

Lemma obj_left_refl o : obj_left o o.
Proof.
  repeat split; [apply elems_left_refl | apply props_left_refl].
Qed.

Lemma obj_left_trans a b c : obj_left a b -> obj_left b c -> obj_left a c.
Proof.
  intros (H1 & H2 & H3) (H4 & H5 & H6). repeat split.
  - congruence.
  - eapply elems_left_trans; eassumption.
  - eapply props_left_trans; eassumption.
Qed.

Lemma store_left_refl (h : heap) : store_left h h.
Proof. unfold store_left. induction h; constructor; auto using obj_left_refl. Qed.

Lemma store_left_trans (a b c : heap) :
  store_left a b -> store_left b c -> store_left a c.
Proof.
  unfold store_left. intros Hab. revert c.
  induction Hab; intros c Hbc; inversion Hbc; subst; constructor;
    eauto using obj_left_trans.
Qed.

Lemma store_left_unique (h h' : heap) :
  store_left h h' -> unique_names h -> unique_names h'.
Proof.
  unfold store_left, unique_names.
  induction 1 as [|o o' h h' (_ & _ & Hp) _ IH]; intros Hu; [constructor|].
  inversion Hu; subst. constructor; [|now apply IH].
  eapply props_left_unique; eassumption.
Qed.

Lemma store_left_get (h h' : heap) l :
  store_left h h' -> obj_left (Store.get h l) (Store.get h' l).
Proof.
  unfold store_left, Store.get. intros H. revert l.
  induction H as [|o o' h h' Ho _ IH]; intros l.
  - destruct l; apply obj_left_refl.
  - destruct l as [|l]; [exact Ho | apply IH].
Qed.

(** Replacing one object by what is left of it. *)
Lemma store_left_set (h : heap) l o' :
  obj_left (Store.get h l) o' -> store_left h (Store.set l o' h).
Proof.
  unfold store_left, Store.set, Store.get. revert l.
  induction h as [|o h IH]; intros l Ho; [constructor|].
  destruct l as [|l]; cbn in *.
  - constructor; [exact Ho | apply store_left_refl].
  - constructor; [apply obj_left_refl | now apply IH].
Qed.

(** Deleting, in what is left of an object, a key under which the object
    held a reference. *)
Lemma delete_left o o1 k l :
  NoDup (map fst (props o)) ->
  obj_left o o1 ->
  Obj.get_key o k = VRef l ->
  obj_left o1 (Obj.delete_key o1 k).
Proof.
  intros Hu (Harr & Hel & Hpr) Hk.
  assert (Hprops : forall name,
             Props.assoc name (props o) = Some (VRef l) ->
             props_left (props o1) (Props.remove name (props o1))).
  { intros name Ha.
    destruct (assoc_left_ref name l _ _ Hpr Hu Ha) as [H1|H1].
    - eapply remove_left. exact H1.
    - rewrite (remove_absent _ _ H1). apply props_left_refl. }
  destruct k as [i|name]; unfold Obj.delete_key; cbn [Obj.get_key] in Hk.
  - unfold Obj.get_index in Hk. rewrite Harr.
    destruct (is_array o) eqn:Ea.
    + repeat split; cbn [is_array elems props];
        [now rewrite Harr | | apply props_left_refl].
      destruct (elems o !! i) as [v|] eqn:Ev.
      * assert (v = VRef l) by (destruct v; cbn in Hk; congruence). subst v.
        destruct (Forall2_lookup_l _ _ _ _ _ Hel Ev) as (v1 & Hv1 & Hrel).
        apply (elems_left_hole _ _ l).
        destruct Hrel as [->|[-> _]]; auto.
      * discriminate Hk.
    + repeat split; cbn [is_array elems props];
        [now rewrite Harr | apply elems_left_refl |].
      apply Hprops.
      destruct (Props.assoc (index_key (N.of_nat i)) (props o)) as [v|];
        cbn in Hk; congruence.
  - unfold Obj.get_named in Hk.
    repeat split; cbn [is_array elems props]; [apply elems_left_refl|].
    apply Hprops.
    destruct (is_array o && String.eqb name "length"); [discriminate Hk|].
    destruct (Props.assoc name (props o)) as [v|]; cbn in Hk; congruence.
Qed.

(** The deletion done by a round of pruning, after whatever the round
    did before it. *)
Lemma delete_step (h0 h1 : heap) l k lv :
  unique_names h0 ->
  store_left h0 h1 ->
  Obj.get_key (Store.get h0 l) k = VRef lv ->
  store_left h0 (Store.set l (Obj.delete_key (Store.get h1 l) k) h1).
Proof.
  intros Hu Hleft Hk.
  eapply store_left_trans; [exact Hleft|].
  apply store_left_set.
  eapply (delete_left (Store.get h0 l)); [| |exact Hk].
  - unfold Store.get. destruct (h0 !! l) as [o|] eqn:E; [|constructor].
    unfold unique_names in Hu.
    apply (proj1 (List.Forall_forall _ _) Hu).
    apply list_elem_of_In. eapply list_elem_of_lookup_2. exact E.
  - now apply store_left_get.
Qed.

Lemma fold_left_store {K} (g : heap -> K -> result heap) (ks : list K) :
  (forall (h0 h1 : heap) k,
      unique_names h0 -> g h0 k = Ok h1 -> store_left h0 h1) ->
  forall (h h' : heap),
    unique_names h ->
    fold_left (fun r k => let* h0 := r in g h0 k) ks (Ok h) = Ok h' ->
    store_left h h'.
Proof.
  intros Hstep. induction ks as [|k ks IH]; intros h h' Hu Hrun.
  - cbn in Hrun. injection Hrun as <-. apply store_left_refl.
  - cbn [fold_left bind] in Hrun.
    destruct (g h k) as [h1|e] eqn:E.
    + pose proof (Hstep h h1 k Hu E) as H1.
      eapply store_left_trans; [exact H1|].
      apply IH; [eapply store_left_unique; eassumption | exact Hrun].
    + exfalso. clear -Hrun.
      induction ks as [|k' ks IH]; [discriminate | now apply IH].
Qed.

Lemma forEach_from_store (f : nat -> val -> heap -> result heap) src n :
  (forall i item (h0 h1 : heap),
      unique_names h0 -> f i item h0 = Ok h1 -> store_left h0 h1) ->
  forall i (h h' : heap),
    unique_names h ->
    forEach_from f src i n h = Ok h' ->
    store_left h h'.
Proof.
  intros Hstep. induction n as [|n IH]; intros i h h' Hu Hrun.
  - cbn in Hrun. injection Hrun as <-. apply store_left_refl.
  - cbn [forEach_from] in Hrun.
    destruct (Obj.get_index (Store.get h src) i) as [item|]; [|now apply (IH (S i))].
    destruct (f i item h) as [h1|e] eqn:E; [|discriminate].
    cbn [bind] in Hrun.
    pose proof (Hstep i item h h1 Hu E) as H1.
    eapply store_left_trans; [exact H1|].
    apply (IH (S i)); [eapply store_left_unique; eassumption | exact Hrun].
Qed.

(** Pruning only takes away properties and elements that held an object
    or array. *)
Lemma cleanup_left fuel : forall (h h' : heap) v,
  unique_names h ->
  cleanupEmptyStructures fuel h v = Ok h' ->
  store_left h h'.
Proof.
  induction fuel as [|fuel IH]; intros h h' v Hu Hrun; [discriminate|].
  destruct v as [| | | | |l];
    try (cbn in Hrun; injection Hrun as <-; apply store_left_refl).
  rewrite PruneDense.cleanup_unfold in Hrun.
  eapply fold_left_store; [|exact Hu|exact Hrun].
  clear h h' Hu Hrun. intros h0 h1 k Hu0 Hvisit.
  unfold prune_visit in Hvisit. cbn zeta in Hvisit.
  destruct (Obj.get_key (Store.get h0 l) k) as [| | | | |lv] eqn:Ek;
    try (injection Hvisit as <-; apply store_left_refl).
  destruct (is_array (Store.get h0 lv)).
  - destruct (length (elems (Store.get h0 lv)) =? 0).
    + injection Hvisit as <-.
      eapply delete_step; [exact Hu0 | apply store_left_refl | exact Ek].
    + destruct (forEach _ lv h0) as [h2|e] eqn:Eloop; [|discriminate].
      cbn [bind] in Hvisit.
      assert (H2 : store_left h0 h2).
      { unfold forEach in Eloop.
        eapply forEach_from_store; [|exact Hu0|exact Eloop].
        intros i item ha hb Hua Hitem.
        destruct item; try (injection Hitem as <-; apply store_left_refl).
        eapply IH; eassumption. }
      destruct (forallb (is_empty_item h2) (elems (Store.get h2 lv))).
      * injection Hvisit as <-. eapply delete_step; eassumption.
      * injection Hvisit as <-. exact H2.
  - destruct (cleanupEmptyStructures fuel h0 (VRef lv)) as [h2|e] eqn:Erec;
      [|discriminate].
    cbn [bind] in Hvisit.
    pose proof (IH h0 h2 (VRef lv) Hu0 Erec) as H2.
    destruct (no_keys h2 lv).
    + injection Hvisit as <-. eapply delete_step; eassumption.
    + injection Hvisit as <-. exact H2.
Qed.

(** What is left of an object reads the same under every key that did
    not hold a reference. *)
Lemma get_key_left o o' k :
  obj_left o o' ->
  (forall l, Obj.get_key o k <> VRef l) ->
  Obj.get_key o' k = Obj.get_key o k.
Proof.
  intros (Harr & Hel & Hpr) Hno.
  assert (Hprops : forall name,
             (forall l, Obj.read (Props.assoc name (props o)) <> VRef l) ->
             Props.assoc name (props o') = Props.assoc name (props o)).
  { intros name Hn. apply assoc_left; [exact Hpr|].
    intros l E. apply (Hn l). now rewrite E. }
  assert (Hlen : length (elems o') = length (elems o))
    by (symmetry; eapply Forall2_length; exact Hel).
  destruct k as [i|name]; cbn [Obj.get_key] in *.
  - unfold Obj.get_index in *. rewrite Harr.
    destruct (is_array o).
    + destruct (elems o !! i) as [v|] eqn:Ev.
      * destruct (Forall2_lookup_l _ _ _ _ _ Hel Ev) as (v' & -> & Hrel).
        destruct Hrel as [->|[-> [l ->]]]; [reflexivity|].
        now destruct (Hno l).
      * assert (elems o' !! i = None) as ->; [|reflexivity].
        apply lookup_ge_None. apply lookup_ge_None in Ev. lia.
    + now rewrite Hprops.
  - unfold Obj.get_named, Obj.length_value in *. rewrite Harr, Hlen.
    destruct (is_array o && String.eqb name "length"); [reflexivity|].
    now rewrite Hprops.
Qed.

End PruneKeeps.

(** X18.  Pruning only ever takes away what held an object or array:
    whatever the store (objects shared between the target and the
    source included; no object has two properties of one name), after
    [cleanupEmptyStructures] the store has the same objects, each still
    an array or not as before, and reading any key of any of them gives
    what it gave before, a missing key being still missing, unless it
    gave an object or array.  No scalar is removed or changed and
    nothing is added. *)
Theorem pruning_only_deletes_references :
  forall (fuel : nat) (h h' : heap) (v : val),
    unique_names h ->
    JsonFieldFilter.cleanupEmptyStructures fuel h v = Ok h' ->
    length h' = length h
    /\ forall (l : loc) (k : key),
         is_array (Store.get h' l) = is_array (Store.get h l)
         /\ ((forall l', Obj.get_key (Store.get h l) k <> VRef l') ->
             Obj.get_key (Store.get h' l) k = Obj.get_key (Store.get h l) k).
Proof.
  intros fuel h h' v Hu Hrun.
  pose proof (PruneKeeps.cleanup_left fuel h h' v Hu Hrun) as Hleft.
  split; [symmetry; eapply Forall2_length; exact Hleft|].
  intros l k.
  pose proof (PruneKeeps.store_left_get h h' l Hleft) as Ho.
  split; [exact (proj1 Ho)|].
  now apply PruneKeeps.get_key_left.
Qed.

Lemma pruning_only_deletes_references_witness :
  exists h',
    JsonFieldFilter.cleanupEmptyStructures 4 nested_store (VRef 2) = Ok h'
    /\ Obj.get_key (Store.get h' 1) (KName "c") = VNum (num 1)
    /\ Obj.get_key (Store.get h' 1) (KName "b") = VUndef.
Proof.
  eexists. split; [vm_compute; reflexivity|].
  split; [|vm_compute; reflexivity].
  refine (proj2 (proj2 (pruning_only_deletes_references 4 nested_store _ (VRef 2)
                          _ _) 1 (KName "c")) _).
  - repeat constructor; vm_compute; intros H;
      repeat (apply elem_of_cons in H; destruct H as [H|H]; [discriminate|]);
      now apply elem_of_nil in H.
  - vm_compute. reflexivity.
  - intros l'. vm_compute. discriminate.
Defined.

(** ** Several Wildcard Specs over one array of objects *)

Module MergeRows.

Import JsonFieldFilter FreshWalk StoreSteps.

Lemma pick_snoc {A} ks k (src acc : list (string * A)) :
  pick (ks ++ [k]) src acc
  = match Props.assoc k src with
    | Some t => Props.upsert k t (pick ks src acc)
    | None => pick ks src acc
    end.
Proof. unfold pick. now rewrite fold_left_app. Qed.

Lemma laid_ext h base pss m sel sel' (h' : heap) :
  (forall j, j < m -> sel j = sel' j) ->
  laid h base pss m sel h' -> laid h base pss m sel' h'.
Proof.
  intros Hsel (H1 & H2 & H3 & H4 & H5). repeat split; auto.
  intros j Hj. rewrite <- (Hsel j Hj). now apply H5.
Qed.

(** The last token, a name, walked from a source object into a target
    object. *)
Lemma leaf_step leaf (h : heap) r ps e qs :
  literal leaf ->
  h !! r = Some (mkObj false [] ps) ->
  h !! e = Some (mkObj false [] qs) ->
  buildStructureFromPath [leaf] h (VRef r) (VRef e)
  = Ok match Props.assoc leaf ps with
       | Some v => Store.set e (mkObj false [] (Props.upsert leaf v qs)) h
       | None => h
       end.
Proof.
  intros [Hstar Hnan] Hr He. cbn [buildStructureFromPath].
  rewrite Hstar, Hnan. cbn [negb]. rewrite (get_lookup _ _ _ Hr).
  unfold Obj.get_named. cbn [is_array andb props].
  destruct (Props.assoc leaf ps) as [v|]; [|reflexivity].
  unfold assign_named, Obj.set_named. rewrite (get_lookup _ _ _ He).
  reflexivity.
Qed.

(** A name that is not the last token: the step of the walk. *)
Lemma name_step part next rest (h0 : heap) ls target :
  literal part ->
  buildStructureFromPath (part :: next :: rest) h0 (VRef ls) target
  = match Obj.get_named (Store.get h0 ls) part with
    | None => Ok h0
    | Some sourceValue =>
        let* tp := target_named h0 target part in
        let* h1 :=
          if negb (truthy tp) then
            let fresh :=
              if is_array_access next then empty_array else empty_object in
            let '(lc, h') := Store.alloc fresh h0 in
            assign_named h' target part (VRef lc)
          else Ok h0 in
        let* tp' := target_named h1 target part in
        buildStructureFromPath (next :: rest) h1 sourceValue tp'
    end.
Proof.
  intros [Hstar Hnan]. remember (next :: rest) as tail eqn:Etail.
  cbn [buildStructureFromPath]. rewrite Hstar, Hnan. cbn [negb].
  subst tail. reflexivity.
Qed.

Section Rows.

Variables (h : heap) (base : string) (lb : loc) (sps : list (string * val)).
Variables (rs : list loc) (pss : list (list (string * val))).

Hypothesis Hlb : lb < length h.
Hypothesis Hsrc : h !! lb = Some (mkObj true (map VRef rs) sps).
Hypothesis Hrows : rows_at h rs pss.

Local Abbreviation lt := (length h).
Local Abbreviation la := (S (length h)).

Lemma row_at i r :
  rs !! i = Some r ->
  exists ps, pss !! i = Some ps /\ r < length h /\ h !! r = Some (mkObj false [] ps).
Proof.
  intros Hr. destruct (Forall2_lookup_l _ _ _ _ _ Hrows Hr) as (ps & Hps & H1 & H2).
  eauto.
Qed.

(** The object of element [i] takes the property [leaf] of its row. *)
Lemma leaf_update done leaf m i r ps (h1 : heap) :
  literal leaf ->
  rs !! i = Some r -> pss !! i = Some ps ->
  r < length h -> h !! r = Some (mkObj false [] ps) ->
  i < m ->
  laid h base pss m (stage done leaf i) h1 ->
  exists h2,
    buildStructureFromPath [leaf] h1 (VRef r) (VRef (lt + 2 + i)) = Ok h2
    /\ laid h base pss m (stage done leaf (S i)) h2.
Proof.
  intros Hlit Hr Hps Hrlt Hrobj Him (Hlen & Hframe & Hroot & Harr & Hel).
  assert (Hnth : nth i pss [] = ps) by (now rewrite nth_lookup, Hps).
  assert (Hr1 : h1 !! r = Some (mkObj false [] ps))
    by (rewrite Hframe by exact Hrlt; exact Hrobj).
  pose proof (Hel i Him) as Hei. rewrite Hnth in Hei.
  unfold stage in Hei at 1. rewrite Nat.ltb_irrefl in Hei.
  rewrite (leaf_step leaf h1 r ps _ _ Hlit Hr1 Hei).
  eexists. split; [reflexivity|].
  assert (Hother : forall j, j <> i -> stage done leaf (S i) j = stage done leaf i j).
  { intros j Hj. unfold stage.
    destruct (Nat.ltb_spec j (S i)), (Nat.ltb_spec j i); try reflexivity; lia. }
  assert (Hhere : pick (stage done leaf (S i) i) ps []
                  = match Props.assoc leaf ps with
                    | Some v => Props.upsert leaf v (pick done ps [])
                    | None => pick done ps []
                    end).
  { unfold stage. replace (i <? S i) with true by (symmetry; apply Nat.ltb_lt; lia).
    apply pick_snoc. }
  destruct (Props.assoc leaf ps) as [v|].
  - repeat split.
    + now rewrite length_set.
    + intros x Hx. rewrite lookup_set_ne by lia. now apply Hframe.
    + rewrite lookup_set_ne by lia. exact Hroot.
    + rewrite lookup_set_ne by lia. exact Harr.
    + intros j Hj. destruct (Nat.eq_dec j i) as [->|Hne].
      * rewrite lookup_set_eq by lia. now rewrite Hnth, Hhere.
      * rewrite lookup_set_ne by lia. rewrite (Hother j Hne). now apply Hel.
  - repeat split; auto.
    intros j Hj. destruct (Nat.eq_dec j i) as [->|Hne].
    + now rewrite Hnth, Hhere.
    + rewrite (Hother j Hne). now apply Hel.
Qed.

(** One round of the loop: the element has its object already, or it is
    the first past the end of the target array and is given one. *)
Lemma merged_round done leaf m i r (h1 : heap) :
  literal leaf ->
  rs !! i = Some r ->
  i < m \/ (i = m /\ done = []) ->
  laid h base pss m (stage done leaf i) h1 ->
  exists h2,
    each_merged (VRef la) [leaf] i (VRef r) h1 = Ok h2
    /\ laid h base pss (Nat.max (S i) m) (stage done leaf (S i)) h2.
Proof.
  intros Hlit Hr Hcase Hlaid.
  destruct (row_at i r Hr) as (ps & Hps & Hrlt & Hrobj).
  pose proof Hlaid as (Hlen & Hframe & Hroot & Harr & Hel).
  unfold each_merged, target_index. rewrite (get_lookup _ _ _ Harr).
  unfold Obj.get_index at 1. cbn [is_array elems].
  rewrite list_lookup_fmap.
  destruct Hcase as [Him | [-> ->]].
  - rewrite lookup_seq_lt by exact Him. cbn [fmap option_fmap option_map Obj.read bind].
    rewrite (get_lookup _ _ _ Harr).
    unfold Obj.get_index. cbn [is_array elems].
    rewrite list_lookup_fmap, lookup_seq_lt by exact Him.
    cbn [fmap option_fmap option_map Obj.read bind].
    replace (Nat.max (S i) m) with m by lia.
    eapply leaf_update; eassumption.
  - rewrite lookup_seq_ge by lia. cbn [fmap option_fmap option_map Obj.read bind].
    unfold Store.alloc, assign_index.
    set (li := length h1). set (h2 := h1 ++ [empty_object]).
    assert (Harr2 : h2 !! la = Some (mkObj true (map VRef (seq (lt + 2) m)) [])).
    { unfold h2. rewrite lookup_alloc_old by lia. exact Harr. }
    rewrite (get_lookup _ _ _ Harr2).
    assert (Hput : Obj.set_index (mkObj true (map VRef (seq (lt + 2) m)) []) m (VRef li)
                   = mkObj true (map VRef (seq (lt + 2) (S m))) []).
    { unfold Obj.set_index. cbn [is_array elems props].
      rewrite length_map, length_seq, Nat.ltb_irrefl, Nat.sub_diag.
      cbn [repeat app]. rewrite seq_S, map_app. cbn [map].
      unfold li. now rewrite Hlen. }
    rewrite Hput. cbn [bind].
    set (h3 := Store.set la (mkObj true (map VRef (seq (lt + 2) (S m))) []) h2).
    assert (Hlen3 : length h3 = lt + 2 + S m).
    { unfold h3, h2. rewrite length_set, length_app. cbn. lia. }
    assert (Harr3 : h3 !! la = Some (mkObj true (map VRef (seq (lt + 2) (S m))) [])).
    { unfold h3. apply lookup_set_eq. unfold h2. rewrite length_app. cbn. lia. }
    rewrite (get_lookup _ _ _ Harr3).
    unfold Obj.get_index. cbn [is_array elems].
    rewrite list_lookup_fmap, lookup_seq_lt by lia.
    cbn [fmap option_fmap option_map Obj.read bind].
    replace (Nat.max (S m) m) with (S m) by lia.
    eapply leaf_update; try eassumption; [lia|].
    repeat split.
    + exact Hlen3.
    + intros x Hx. unfold h3, h2. rewrite lookup_set_ne by lia.
      rewrite lookup_alloc_old by lia. now apply Hframe.
    + unfold h3, h2. rewrite lookup_set_ne by lia.
      rewrite lookup_alloc_old by lia. exact Hroot.
    + exact Harr3.
    + intros j Hj. unfold h3, h2. rewrite lookup_set_ne by lia.
      destruct (Nat.eq_dec j m) as [->|Hne].
      * replace (lt + 2 + m) with (length h1 + 0) by lia.
        rewrite lookup_app_r by lia.
        replace (length h1 + 0 - length h1) with 0 by lia.
        unfold stage. rewrite Nat.ltb_irrefl. reflexivity.
      * rewrite lookup_alloc_old by lia. apply Hel. lia.
Qed.

(** The rounds from element [i] on. *)
Lemma merged_rounds done leaf (f : nat -> val -> heap -> result heap) :
  literal leaf ->
  (forall i v (h1 : heap), f i v h1 = each_merged (VRef la) [leaf] i v h1) ->
  forall k i m (h1 : heap),
    i + k = length rs ->
    m = length rs \/ (m = i /\ done = []) ->
    laid h base pss m (stage done leaf i) h1 ->
    exists h2,
      forEach_from f lb i k h1 = Ok h2
      /\ laid h base pss (length rs) (stage done leaf (length rs)) h2.
Proof.
  intros Hlit Hf. induction k as [|k IH]; intros i m h1 Hik Hm Hlaid.
  - exists h1. split; [reflexivity|].
    assert (i = length rs) by lia. subst i.
    destruct Hm as [->|[-> _]]; exact Hlaid.
  - assert (Hi : i < length rs) by lia.
    destruct (lookup_lt_is_Some_2 rs i Hi) as [r Hr].
    pose proof Hlaid as (Hlen & Hframe & _).
    cbn [forEach_from].
    assert (Hsrc1 : h1 !! lb = Some (mkObj true (map VRef rs) sps))
      by (rewrite Hframe by exact Hlb; exact Hsrc).
    rewrite (get_lookup _ _ _ Hsrc1).
    assert (Hitem : map VRef rs !! i = Some (VRef r))
      by (now rewrite list_lookup_fmap, Hr).
    rewrite (WildcardLoop.get_index_defined _ _ _ _ Hitem) by discriminate.
    rewrite Hf.
    destruct (merged_round done leaf m i r h1 Hlit Hr) as (h2 & Hrun & Hlaid2);
      [destruct Hm as [->|[-> ->]]; [left; lia | right; split; reflexivity]
      | exact Hlaid |].
    rewrite Hrun. cbn [bind].
    apply (IH (S i) (Nat.max (S i) m) h2); [lia | | exact Hlaid2].
    destruct Hm as [->|[-> ->]]; [left; lia | right; split; [lia | reflexivity]].
Qed.

(** The Wildcard token on the target array. *)
Lemma wildcard_merge done leaf m (h1 : heap) :
  literal leaf ->
  m = length rs \/ (m = 0 /\ done = []) ->
  laid h base pss m (fun _ => done) h1 ->
  exists h2,
    buildStructureFromPath ["*"; leaf] h1 (VRef lb) (VRef la) = Ok h2
    /\ laid h base pss (length rs) (fun _ => done ++ [leaf]) h2.
Proof.
  intros Hlit Hm Hlaid.
  pose proof Hlaid as (Hlen & Hframe & Hroot & Harr & Hel).
  assert (Hsrc1 : h1 !! lb = Some (mkObj true (map VRef rs) sps))
    by (rewrite Hframe by exact Hlb; exact Hsrc).
  destruct (merged_rounds done leaf (each_merged (VRef la) [leaf]) Hlit
              ltac:(reflexivity) (length rs) 0 m h1 eq_refl Hm)
    as (h2 & Hrun & Hlaid2).
  { eapply laid_ext; [|exact Hlaid]. intros j Hj. unfold stage.
    now rewrite (proj2 (Nat.ltb_ge j 0)) by lia. }
  exists h2. split.
  - change (buildStructureFromPath ["*"; leaf] h1 (VRef lb) (VRef la))
      with (if negb (is_array (Store.get h1 lb)) then Ok h1
            else if negb (Store.isArray h1 (VRef la))
                 then let '(la0, h0) := Store.alloc empty_array h1 in
                      let* _ := forEach (each_fresh la0 [leaf]) lb h0 in
                      Err TypeError
                 else forEach (each_merged (VRef la) [leaf]) lb h1).
    unfold Store.isArray. rewrite (get_lookup _ _ _ Hsrc1), (get_lookup _ _ _ Harr).
    cbn [is_array negb]. unfold forEach.
    rewrite (get_lookup _ _ _ Hsrc1). cbn [elems]. rewrite length_map.
    exact Hrun.
  - eapply laid_ext; [|exact Hlaid2]. intros j Hj. unfold stage.
    now rewrite (proj2 (Nat.ltb_lt j (length rs))) by lia.
Qed.

Variables (ls : loc) (rps : list (string * val)).

Hypothesis Hls : ls < length h.
Hypothesis Hroot : h !! ls = Some (mkObj false [] rps).
Hypothesis Hbase : Props.assoc base rps = Some (VRef lb).
Hypothesis Hlit : literal base.

(** The first Spec: the array is made, then filled. *)
Lemma first_spec leaf :
  literal leaf ->
  exists h2,
    buildStructureFromPath [base; "*"; leaf] (h ++ [empty_object]) (VRef ls) (VRef lt)
    = Ok h2
    /\ laid h base pss (length rs) (fun _ => [leaf]) h2.
Proof.
  intros Hleaf.
  set (h0 := h ++ [empty_object]).
  set (h1 := Store.set lt (mkObj false [] [(base, VRef la)]) (h0 ++ [empty_array])).
  assert (Hlen0 : length h0 = S lt) by (unfold h0; rewrite length_app; cbn; lia).
  assert (Hlaid : laid h base pss 0 (fun _ => []) h1).
  { repeat split.
    - unfold h1. rewrite length_set, length_app. cbn. lia.
    - intros x Hx. unfold h1. rewrite lookup_set_ne by lia.
      rewrite lookup_alloc_old by lia. unfold h0. now apply lookup_alloc_old.
    - unfold h1. apply lookup_set_eq. rewrite length_app. cbn. lia.
    - unfold h1. rewrite lookup_set_ne by lia.
      rewrite <- Hlen0. apply list_lookup_middle. reflexivity.
    - intros j Hj. lia. }
  destruct (wildcard_merge [] leaf 0 h1 Hleaf ltac:(right; split; reflexivity) Hlaid)
    as (h2 & Hrun & Hlaid2).
  exists h2. split; [|exact Hlaid2].
  destruct Hlit as [Hstar Hnan].
  assert (Hls0 : h0 !! ls = Some (mkObj false [] rps))
    by (unfold h0; rewrite lookup_alloc_old by exact Hls; exact Hroot).
  assert (Hlt0 : h0 !! lt = Some empty_object)
    by (unfold h0; apply list_lookup_middle; reflexivity).
  fold h0. rewrite (name_step base "*" [leaf] h0 ls (VRef lt) Hlit).
  rewrite (get_lookup _ _ _ Hls0).
  unfold Obj.get_named at 1. cbn [is_array andb props]. rewrite Hbase.
  unfold target_named at 1. rewrite (get_lookup _ _ _ Hlt0).
  cbn [Obj.get_named empty_object is_array andb props Props.assoc Obj.read bind
       truthy negb].
  change (is_array_access "*") with true. cbn iota.
  unfold Store.alloc, assign_named, Obj.set_named.
  assert (Hlt1 : (h0 ++ [empty_array]) !! lt = Some empty_object)
    by (rewrite lookup_alloc_old by lia; exact Hlt0).
  rewrite (get_lookup _ _ _ Hlt1).
  cbn [empty_object is_array andb elems props bind Props.upsert Props.assoc
       Props.insert_new].
  rewrite Hlen0. fold h1.
  pose proof Hlaid as (_ & _ & Hroot1 & _).
  unfold target_named. rewrite (get_lookup _ _ _ Hroot1).
  unfold Obj.get_named. cbn [is_array andb props Props.assoc].
  rewrite String.eqb_refl. cbn [Obj.read bind].
  exact Hrun.
Qed.

(** A later Spec: the array is there, with an object for each row. *)
Lemma next_spec done leaf (h1 : heap) :
  literal leaf ->
  laid h base pss (length rs) (fun _ => done) h1 ->
  exists h2,
    buildStructureFromPath [base; "*"; leaf] h1 (VRef ls) (VRef lt) = Ok h2
    /\ laid h base pss (length rs) (fun _ => done ++ [leaf]) h2.
Proof.
  intros Hleaf Hlaid.
  destruct (wildcard_merge done leaf (length rs) h1 Hleaf ltac:(now left) Hlaid)
    as (h2 & Hrun & Hlaid2).
  exists h2. split; [|exact Hlaid2].
  pose proof Hlaid as (_ & Hframe & Hroot1 & _).
  assert (Hls1 : h1 !! ls = Some (mkObj false [] rps))
    by (rewrite Hframe by exact Hls; exact Hroot).
  rewrite (name_step base "*" [leaf] h1 ls (VRef lt) Hlit).
  rewrite (get_lookup _ _ _ Hls1).
  unfold Obj.get_named at 1. cbn [is_array andb props]. rewrite Hbase.
  unfold target_named. rewrite (get_lookup _ _ _ Hroot1).
  unfold Obj.get_named. cbn [is_array andb props Props.assoc].
  rewrite String.eqb_refl. cbn [Obj.read bind truthy negb].
  rewrite (get_lookup _ _ _ Hroot1). cbn [is_array andb props Props.assoc].
  rewrite String.eqb_refl. exact Hrun.
Qed.

(** The Specs after the first, one after the other. *)
Lemma later_specs specs leaves :
  Forall2 (fun spec leaf => parsePath spec = [base; "*"; leaf]) specs leaves ->
  Forall literal leaves ->
  forall done (h1 : heap),
    laid h base pss (length rs) (fun _ => done) h1 ->
    exists h2,
      applySpecs specs h1 (VRef ls) (VRef lt) = Ok h2
      /\ laid h base pss (length rs) (fun _ => done ++ leaves) h2.
Proof.
  induction 1 as [|spec leaf specs leaves Hparse _ IH]; intros Hleaves done h1 Hlaid.
  - exists h1. split; [reflexivity|]. now rewrite app_nil_r.
  - inversion Hleaves as [|? ? Hleaf Hrest]; subst.
    destruct (next_spec done leaf h1 Hleaf Hlaid) as (h2 & Hrun & Hlaid2).
    destruct (IH Hrest (done ++ [leaf]) h2 Hlaid2) as (h3 & Hrun3 & Hlaid3).
    exists h3. split.
    + unfold applySpecs in *. cbn [fold_left bind]. unfold extractField at 2.
      rewrite Hparse, Hrun. exact Hrun3.
    + now rewrite <- app_assoc in Hlaid3.
Qed.

(** All the Specs, from the empty target. *)
Lemma all_specs specs leaves :
  Forall2 (fun spec leaf => parsePath spec = [base; "*"; leaf]) specs leaves ->
  Forall literal leaves ->
  leaves <> [] ->
  exists h2,
    applySpecs specs (h ++ [empty_object]) (VRef ls) (VRef lt) = Ok h2
    /\ laid h base pss (length rs) (fun _ => leaves) h2.
Proof.
  intros Hparse Hleaves Hne.
  destruct Hparse as [|spec leaf specs leaves Hspec Hparse]; [congruence|].
  inversion Hleaves as [|? ? Hleaf Hrest]; subst.
  destruct (first_spec leaf Hleaf) as (h1 & Hrun & Hlaid).
  destruct (later_specs specs leaves Hparse Hrest [leaf] h1 Hlaid)
    as (h2 & Hrun2 & Hlaid2).
  exists h2. split; [|exact Hlaid2].
  unfold applySpecs in *. cbn [fold_left bind]. unfold extractField at 2.
  rewrite Hspec, Hrun. exact Hrun2.
Qed.

End Rows.

(** A source array of objects, in the store. *)
Lemma rows_in_store (h : heap) n0 rows : forall vs,
  Forall2 (repr (below n0) h) vs (map TObj rows) ->
  exists rs pss,
    vs = map VRef rs
    /\ Forall2 (fun r ps => r < n0 /\ h !! r = Some (mkObj false [] ps)) rs pss
    /\ Forall2 (Forall2 (fun p q => fst p = fst q
                                    /\ repr (below n0) h (snd p) (snd q)))
               pss rows.
Proof.
  induction rows as [|row rows IH]; intros vs Hvs; cbn [map] in Hvs.
  - inversion Hvs; subst. exists [], []. repeat split; constructor.
  - inversion Hvs as [|v ? vs' ? Hv Hrest]; subst.
    destruct (IH vs' Hrest) as (rs & pss & -> & Hrs & Hpss).
    inversion Hv as [| | | | | |l ps ? HP Hl Hps]; subst.
    exists (l :: rs), (ps :: pss). repeat split; constructor; auto.
Qed.

(** A selection is not empty when the source has one of the names. *)
Lemma select_some ks (row : list (string * tree)) k :
  In k ks -> Props.assoc k row <> None -> select ks row <> [].
Proof.
  intros Hin Hsome Hnil.
  pose proof (PlainNames.assoc_pick k ks row []) as Ha.
  fold (select ks row) in Ha. rewrite Hnil in Ha. cbn [Props.assoc] in Ha.
  assert (Hex : existsb (String.eqb k) ks = true).
  { apply existsb_exists. exists k. split; [exact Hin | apply String.eqb_refl]. }
  rewrite Hex in Ha. destruct (Props.assoc k row); congruence.
Qed.

(** The values of a selection are values of the source. *)
Lemma select_dense ks (row : list (string * tree)) :
  (forall k t, In k ks -> Props.assoc k row = Some t -> dense t = true) ->
  dense_inside (TObj (select ks row)) = true.
Proof.
  intros Hdense. rewrite ReprShape.dense_inside_obj. apply forallb_forall.
  intros [k t] Hin. cbn [snd]. unfold select in Hin.
  destruct (PlainNames.pick_in _ _ _ _ _ Hin) as [[] | [Hk Hsome]].
  eapply Hdense; eassumption.
Qed.

(** The projection of an object by Specs [base[*].leaf], one for each
    of [leaves]. *)
Lemma project_rows specs leaves base fields rows :
  Forall2 (fun spec leaf => parsePath spec = [base; "*"; leaf]) specs leaves ->
  leaves <> [] ->
  literal base ->
  Forall literal leaves ->
  Props.assoc base fields = Some (TArr (map TObj rows) []) ->
  (forall row k t,
      In row rows -> In k leaves -> Props.assoc k row = Some t -> dense t = true) ->
  (exists row k, In row rows /\ In k leaves /\ Props.assoc k row <> None) ->
  project specs (TObj fields)
  = Ok (TObj fields,
        TObj [(base, TArr (map (fun row => TObj (select leaves row)) rows) [])]).
Proof.
  intros Hparse Hne Hbase Hleaves Hfield Hdense (row0 & k0 & Hrow0 & Hk0 & Hhas).
  destruct (ProjectFacts.alloc_root (TObj fields) I) as (ls & h & Ha & Hs).
  inversion Hs as [| | | | | |? rps ? HP Hl Hrps]; subst.
  unfold below in HP.
  pose proof (ReprFacts.assoc_fields _ base rps fields Hrps) as Hb.
  rewrite Hfield in Hb.
  destruct (Props.assoc base rps) as [vb|] eqn:Evb; [|contradiction].
  inversion Hb as [| | | | |lb vs sps ? ? HPb Hlb Hvs Hsps|]; subst.
  unfold below in HPb.
  destruct (rows_in_store h (length h) rows vs Hvs) as (rs & pss & -> & Hrs & Hpss).
  assert (Hlen : length rs = length rows).
  { etransitivity; eapply Forall2_length; eassumption. }
  destruct (all_specs h base lb sps rs pss HPb Hlb Hrs ls rps HP Hl Evb Hbase
              specs leaves Hparse Hleaves Hne) as (h2 & Hrun & Hlaid).
  destruct Hlaid as (Hlen2 & Hframe & Hroot & Harr & Hel).
  set (out := map (fun row => TObj (select leaves row)) rows).
  assert (Hsrc : repr (below (length h)) h2 (VRef ls) (TObj fields)).
  { eapply ReprFacts.repr_frame; [|exact Hs]. intros x Hx. now apply Hframe. }
  assert (Helems : Forall2 (repr (below (length h2)) h2)
                     (map VRef (seq (length h + 2) (length rs))) out).
  { apply Forall2_same_length_lookup_2.
    - unfold out. rewrite !length_map, length_seq. exact Hlen.
    - intros j v t Hv Ht. unfold out in Ht.
      rewrite list_lookup_fmap in Hv.
      change (((fun row => TObj (select leaves row)) <$> rows) !! j = Some t) in Ht.
      rewrite list_lookup_fmap in Ht.
      destruct (rows !! j) as [row|] eqn:Erow; [|discriminate].
      injection Ht as <-.
      assert (Hj : j < length rs)
        by (rewrite Hlen; eapply lookup_lt_Some; exact Erow).
      rewrite lookup_seq_lt in Hv by exact Hj. injection Hv as <-.
      destruct (Forall2_lookup_r _ _ _ _ _ Hpss Erow) as (ps & Hps & Hrel).
      eapply repr_obj.
      + unfold below. lia.
      + etransitivity; [exact (Hel j Hj)|]. now rewrite nth_lookup, Hps.
      + unfold select.
        eapply Forall2_impl;
          [apply (PlainNames.pick_related (repr (below (length h)) h)
                    leaves ps row [] []); [exact Hrel | constructor]|].
        intros p q [Hk Hpq]. split; [exact Hk|].
        eapply ReprFacts.repr_move; [| |exact Hpq].
        * unfold below. intros x Hx. lia.
        * intros x Hx. now apply Hframe. }
  assert (Htgt : repr (below (length h2)) h2 (VRef (length h))
                      (TObj [(base, TArr out [])])).
  { eapply repr_obj; [unfold below; lia | exact Hroot |].
    constructor; [|constructor]. split; [reflexivity|]. cbn [snd].
    eapply repr_arr; [unfold below; lia | exact Harr | exact Helems | constructor]. }
  assert (Hd : dense_inside (TObj [(base, TArr out [])]) = true).
  { rewrite ReprShape.dense_inside_obj. cbn [forallb snd]. rewrite andb_true_r.
    rewrite ReprShape.dense_arr, andb_true_r. apply andb_true_intro. split.
    - apply existsb_exists. exists (TObj (select leaves row0)). split.
      + unfold out. apply in_map_iff. eauto.
      + cbn [counted]. destruct (select leaves row0) eqn:E; [|reflexivity].
        exfalso. eapply select_some; eassumption.
    - apply forallb_forall. intros t Ht. unfold out in Ht.
      apply in_map_iff in Ht. destruct Ht as (row & <- & Hrow).
      apply select_dense. intros k t. now apply Hdense. }
  eapply (ProjectFacts.project_ok specs (TObj fields) ls h h2 (length h));
    [exact Ha | | exact Hsrc | exact Htgt].
  unfold _transform, Store.alloc. rewrite Hrun. cbn [bind].
  rewrite (PruneDense.cleanup_dense (S (length h2)) _ h2 (length h) _ Htgt Hd);
    [reflexivity|].
  pose proof (ReprShape.repr_height _ _ _ _ Htgt). lia.
Qed.

End MergeRows.


